(** * plog: a priority logger over per-priority ring buffers

    Shallow embedding of [plog.go] (package [plog]) together with the parts
    of the Go standard library it is written against:
    - [container/ring] (a circular list with a designated element),
    - [bytes.Buffer] (the append buffer of [Logger]),
    - byte slices, which are references into backing arrays.

    Stored log entries are [[]byte] values, that is references: what [Pop]
    returns is the content of the referenced array when [Pop] runs.  The
    model therefore keeps an explicit heap of backing arrays. *)

From Stdlib Require Import ZArith Lia List.
From Stdlib Require Import Strings.String Strings.Byte.
From stdpp Require Import base numbers option list gmap sorting.

Local Open Scope Z_scope.

(** ** Byte slices and the heap *)

Module mem.

(** The heap: backing arrays, addressed by their position. *)
Abbreviation heap := (list (list byte)).

(** A Go slice header.  [arr = None] is the nil slice.  [off] is the
    position of the slice's first element inside its backing array. *)
Record slice := Slice {
  arr : option nat;
  off : nat;
  len : nat;
  cap : nat
}.

Definition nil_slice : slice := Slice None 0 0 0.

Definition is_nil (s : slice) : bool :=
  match arr s with None => true | Some _ => false end.

Definition array_of (h : heap) (s : slice) : list byte :=
  match arr s with
  | Some a => default [] (h !! a)
  | None => []
  end.

(** The elements of a slice, as they are in the heap now. *)
Definition load (h : heap) (s : slice) : list byte :=
  take (len s) (drop (off s) (array_of h s)).

(** [make([]byte, n, c)]: a fresh zeroed array of [c] bytes. *)
Definition make (h : heap) (n c : nat) : slice * heap :=
  (Slice (Some (length h)) 0 n c, h ++ [replicate c x00]).

(** [s[lo:hi]]; the callers below only reslice within [0 <= lo <= hi <= cap]. *)
Definition reslice (s : slice) (lo hi : nat) : slice :=
  Slice (arr s) (off s + lo)%nat (hi - lo)%nat (cap s - lo)%nat.

(** [s[lo:]] *)
Definition reslice_from (s : slice) (lo : nat) : slice :=
  reslice s lo (len s).

(** Overwrite [l] from position [i] on with [src] (no growth). *)
Definition blit (l : list byte) (i : nat) (src : list byte) : list byte :=
  take i l ++ take (length l - i) src ++ drop (i + length src) l.

(** [copy(dst, src)]: copies [min(len(dst), len(src))] bytes. *)
Definition copy (h : heap) (dst : slice) (src : list byte) : nat * heap :=
  let src' := take (len dst) src in
  match arr dst with
  | Some a =>
      (length src', alter (fun l => blit l (off dst) src') a h)
  | None => (0%nat, h)
  end.

(** [string(b)] *)
Definition to_string (h : heap) (b : slice) : string :=
  string_of_list_byte (load h b).

(** [[]byte(s)]: a fresh array holding the bytes of [s]. *)
Definition of_string (h : heap) (s : string) : slice * heap :=
  let l := list_byte_of_string s in
  (Slice (Some (length h)) 0 (length l) (length l), h ++ [l]).

End mem.

(** ** bytes.Buffer

    The methods [Logger] calls, as they are in the Go standard library
    ([bytes/buffer.go], go1.20 and later): [NewBuffer], [WriteString],
    [Bytes], [Reset], and the unexported [tryGrowByReslice], [grow] and
    [growSlice] behind [WriteString]. *)

Module bytes.
Import mem.

(** [type Buffer struct { buf []byte; off int; lastRead readOp }];
    [lastRead] only serves [UnreadByte]/[UnreadRune] and is left out. *)
Record Buffer := mkBuffer {
  buf : slice;
  off : nat
}.

Definition smallBufferSize : nat := 64.

Definition NewBuffer (b : slice) : Buffer := mkBuffer b 0.

Definition Bytes (b : Buffer) : slice := reslice_from (buf b) (off b).

Definition Len (b : Buffer) : nat := (len (buf b) - off b)%nat.

Definition Reset (b : Buffer) : Buffer := mkBuffer (reslice (buf b) 0 0) 0.

Definition tryGrowByReslice (b : Buffer) (n : nat) : option (nat * Buffer) :=
  let l := len (buf b) in
  if decide (n <= cap (buf b) - l)%nat
  then Some (l, mkBuffer (reslice (buf b) 0 (l + n)) (off b))
  else None.

Section growth.
(** The capacity the runtime gives to an allocation made by [append]
    when [n] bytes are asked for (size-class rounding). *)
Variable roundupsize : nat -> nat.

(** [growSlice(b, n)] *)
Definition growSlice (h : heap) (b : slice) (n : nat) : slice * heap :=
  let c := (len b + n)%nat in
  let c := if decide (c < 2 * cap b)%nat then (2 * cap b)%nat else c in
  let '(b2, h) := make h c (roundupsize c) in
  let '(i, h) := copy h b2 (load h b) in
  (reslice b2 0 i, h).

(** [grow(n)]; the [ErrTooLarge] panic needs a buffer near [maxInt]
    bytes and is outside this model. *)
Definition grow (h : heap) (b : Buffer) (n : nat) : nat * Buffer * heap :=
  let m := Len b in
  let b := if decide (m = 0%nat /\ off b <> 0%nat) then Reset b else b in
  match tryGrowByReslice b n with
  | Some (i, b) => (i, b, h)
  | None =>
      if decide (is_nil (buf b) = true /\ (n <= smallBufferSize)%nat) then
        let '(s, h) := make h n smallBufferSize in
        (0%nat, mkBuffer s (off b), h)
      else
        let c := cap (buf b) in
        let '(b, h) :=
          (* [n <= c/2-m] over Go's signed [int] *)
          if decide (m + n <= c / 2)%nat then
            (b, snd (copy h (buf b) (load h (reslice_from (buf b) (off b)))))
          else
            let '(s, h) := growSlice h (reslice_from (buf b) (off b)) (off b + n) in
            (mkBuffer s (off b), h) in
        (m, mkBuffer (reslice (buf b) 0 (m + n)) 0, h)
  end.

(** [WriteString(s)] *)
Definition WriteString (h : heap) (b : Buffer) (s : string) : Buffer * heap :=
  let n := length (list_byte_of_string s) in
  let '(m, b, h) :=
    match tryGrowByReslice b n with
    | Some (m, b) => (m, b, h)
    | None => grow h b n
    end in
  (b, snd (copy h (reslice_from (buf b) m) (list_byte_of_string s))).
End growth.

End bytes.

(** ** container/ring

    [New], [Next], [Prev] and the field [Value] of the Go standard library
    ([container/ring/ring.go]).  A ring made by [New(n)] is a cycle of [n]
    elements; a [*Ring] points to one of them. *)

Module ring.
Import mem.

(** The dynamic type of [Ring.Value] ([any]): the nil interface or a
    [[]byte].  Nothing else is ever stored by this package. *)
Abbreviation any := (option slice) (only parsing).

(** A non-nil [*Ring]: the circular list, and which of its elements the
    pointer designates. *)
Record Ring := mkRing {
  slots : list any;
  cur : nat
}.

(** [ring.New(n)]; the result is the nil pointer ([None]) when [n <= 0]. *)
Definition New (n : Z) : option Ring :=
  if decide (n <= 0) then None
  else Some (mkRing (replicate (Z.to_nat n) None) 0).

Definition Len (r : Ring) : nat := length (slots r).

Definition Next (r : Ring) : Ring :=
  mkRing (slots r) ((cur r + 1) mod Len r)%nat.

Definition Prev (r : Ring) : Ring :=
  mkRing (slots r) ((cur r + Len r - 1) mod Len r)%nat.

(** [r.Value] *)
Definition Value (r : Ring) : any := default None (slots r !! cur r).

(** [r.Value = v] *)
Definition set_Value (r : Ring) (v : any) : Ring :=
  mkRing (<[cur r := v]> (slots r)) (cur r).

End ring.

(** ** plog *)

Import mem ring.

(** [type LogPriority int] *)
Definition LogPriority := Z.
Definition Trivial : LogPriority := 0.
Definition Minor : LogPriority := 1.
Definition Major : LogPriority := 2.
Definition Critical : LogPriority := 3.

(** [RingBuffer]; the mutex is modelled apart (see the section on locking). *)
Module RingBuffer.
Record t := mk {
  p : LogPriority;
  bufCap : Z;
  buf : gmap Z (option Ring);
  highP : Z
}.
Definition set_p (r : t) (x : LogPriority) : t := mk x (bufCap r) (buf r) (highP r).
Definition set_buf (r : t) (m : gmap Z (option Ring)) : t := mk (p r) (bufCap r) m (highP r).
Definition set_highP (r : t) (i : Z) : t := mk (p r) (bufCap r) (buf r) i.
End RingBuffer.
Import RingBuffer(bufCap, buf, highP, set_p, set_buf, set_highP).

(** The two errors [Pop] builds with [fmt.Errorf]. *)
Inductive error := ErrBufferEmpty | ErrTypeAssertion.

Definition Error (e : error) : string :=
  match e with
  | ErrBufferEmpty => "Buffer is empty"
  | ErrTypeAssertion => "pop type assertion failed"
  end.

Global Instance error_eq_dec : EqDecision error.
Proof. solve_decision. Defined.

(** A call either returns, with the store it leaves behind, or panics on a
    nil [*Ring] (nothing in the package recovers). *)
Inductive result (A : Type) :=
  | Ret (a : A) (r : RingBuffer.t)
  | Panic.
Arguments Ret {A} a r.
Arguments Panic {A}.

Definition NewRingBuffer (p : LogPriority) (size : Z) : RingBuffer.t :=
  RingBuffer.mk p size ∅ 0.

Definition GetPriority (r : RingBuffer.t) : LogPriority := RingBuffer.p r.

Definition SetPriority (r : RingBuffer.t) (p : LogPriority) : RingBuffer.t :=
  set_p r p.

(** [r.buf[i]] read as a pointer: a missing key reads as nil. *)
Definition ring_at (r : RingBuffer.t) (i : Z) : option Ring :=
  default None (buf r !! i).

(** A statement that dereferences [r.buf[i]]. *)
Definition deref (r : RingBuffer.t) (i : Z) (k : Ring -> RingBuffer.t) : option RingBuffer.t :=
  k <$> ring_at r i.

(** *** The statements of [PWrite] *)

(** [if i > r.highP { r.highP = i }] *)
Definition PWrite_raise (i : Z) (r : RingBuffer.t) : RingBuffer.t :=
  if decide (highP r < i) then set_highP r i else r.

(** [if r.buf[i] == nil { r.buf[i] = ring.New(r.bufCap) }] *)
Definition PWrite_alloc (i : Z) (r : RingBuffer.t) : RingBuffer.t :=
  match ring_at r i with
  | None => set_buf r (<[i := New (bufCap r)]> (buf r))
  | Some _ => r
  end.

(** [r.buf[i].Value = b] *)
Definition PWrite_store (i : Z) (b : slice) (r : RingBuffer.t) : option RingBuffer.t :=
  deref r i (fun rg => set_buf r (<[i := Some (set_Value rg (Some b))]> (buf r))).

(** [r.buf[i] = r.buf[i].Next()] *)
Definition PWrite_advance (i : Z) (r : RingBuffer.t) : option RingBuffer.t :=
  deref r i (fun rg => set_buf r (<[i := Some (Next rg)]> (buf r))).

Definition PWrite (r : RingBuffer.t) (p : LogPriority) (b : slice)
  : result (nat * option error) :=
  let i := p in
  match PWrite_store i b (PWrite_alloc i (PWrite_raise i r)) ≫= PWrite_advance i with
  | Some r => Ret (len b, None) r
  | None => Panic
  end.

Definition Write (r : RingBuffer.t) (b : slice) : result (nat * option error) :=
  PWrite r (GetPriority r) b.

(** *** The statements of [Pop] *)

(** [r.buf[r.highP] = r.buf[r.highP].Prev()] *)
Definition Pop_prev (r : RingBuffer.t) : option RingBuffer.t :=
  deref r (highP r) (fun rg => set_buf r (<[highP r := Some (Prev rg)]> (buf r))).

(** [r.buf[r.highP].Value = nil] *)
Definition Pop_clear (r : RingBuffer.t) : option RingBuffer.t :=
  deref r (highP r) (fun rg => set_buf r (<[highP r := Some (set_Value rg None)]> (buf r))).

(** The loop [for i := r.highP; i >= 0; i-- { ... }] with [n] iterations
    left to run from index [i]: [Some (Some j)] when it breaks at [j],
    [Some None] when it runs out, [None] when [r.buf[i].Prev()] panics. *)
Fixpoint rescan (m : gmap Z (option Ring)) (n : nat) (i : Z) : option (option Z) :=
  match n with
  | O => Some None
  | S n =>
      match m !! i with
      | Some None => None
      | Some (Some rg) =>
          match Value (Prev rg) with
          | Some _ => Some (Some i)
          | None => rescan m n (i - 1)
          end
      | None => rescan m n (i - 1)
      end
  end.

(** The whole "update highP" loop. *)
Definition Pop_update (r : RingBuffer.t) : option RingBuffer.t :=
  found ← rescan (buf r) (Z.to_nat (highP r + 1)) (highP r);
  Some (match found with Some i => set_highP r i | None => r end).

(** [Pop]; [h] is the heap [string(b)] reads. *)
Definition Pop (h : heap) (r : RingBuffer.t) : result (string * option error) :=
  match buf r !! highP r with
  | None => Ret (""%string, Some ErrBufferEmpty) r
  | Some _ =>
      match Pop_prev r with
      | None => Panic
      | Some r =>
          match ring_at r (highP r) ≫= Value with
          | None => Ret (""%string, Some ErrTypeAssertion) r
          | Some b =>
              match Pop_clear r ≫= Pop_update with
              | None => Panic
              | Some r => Ret (to_string h b, None) r
              end
          end
      end
  end.

(** ** Logger *)

Module Logger.
(** [buf] is the [Buffer] interface value; [*RingBuffer] is its only
    implementation in the package.  The mutex [lock] is only ever
    touched by [Lock]/[Unlock], which callers invoke themselves. *)
Record t := mk {
  buf : RingBuffer.t;
  aBuf : bytes.Buffer
}.
End Logger.

Section logger.
Variable roundupsize : nat -> nat.

(** [NewLogger(b)]; [[]byte{}] is an empty, non-nil slice. *)
Definition NewLogger (h : heap) (b : RingBuffer.t) : Logger.t * heap :=
  let '(s, h) := make h 0 0 in
  (Logger.mk b (bytes.NewBuffer s), h).

(** [l.aBuf.WriteString(s)] *)
Definition Append (h : heap) (l : Logger.t) (s : string) : Logger.t * heap :=
  let '(a, h) := bytes.WriteString roundupsize h (Logger.aBuf l) s in
  (Logger.mk (Logger.buf l) a, h).

(** [l.buf.PWrite(p, l.aBuf.Bytes()); l.aBuf.Reset()]; [None] is a panic
    inside [PWrite]. *)
Definition AppendDone (l : Logger.t) (p : LogPriority) : option Logger.t :=
  match PWrite (Logger.buf l) p (bytes.Bytes (Logger.aBuf l)) with
  | Ret _ r => Some (Logger.mk r (bytes.Reset (Logger.aBuf l)))
  | Panic => None
  end.

(** [l.buf.PWrite(p, []byte(s))] *)
Definition Print (h : heap) (l : Logger.t) (p : LogPriority) (s : string)
  : option (Logger.t * heap) :=
  let '(b, h) := of_string h s in
  match PWrite (Logger.buf l) p b with
  | Ret _ r => Some (Logger.mk r (Logger.aBuf l), h)
  | Panic => None
  end.

Definition PrintDef (h : heap) (l : Logger.t) (s : string) : option (Logger.t * heap) :=
  Print h l (GetPriority (Logger.buf l)) s.

Definition Println (h : heap) (l : Logger.t) (p : LogPriority) (s : string)
  : option (Logger.t * heap) :=
  Print h l p (s ++ String (Ascii.ascii_of_nat 10) EmptyString)%string.

Definition GetBuffer (l : Logger.t) : RingBuffer.t := Logger.buf l.
End logger.

(** * Specification vocabulary *)

(** ** The ring as a sequence *)

(** The pointer designates an element of the ring. *)
Definition ring_wf (r : Ring) : Prop := (cur r < Len r)%nat.

(** The values met from the designated element on, following [next]. *)
Definition view (r : Ring) : list any :=
  drop (cur r) (slots r) ++ take (cur r) (slots r).

(** [holds C r es]: the ring has [C] elements and is a bounded stack: its
    unread entries are [es], oldest first, and they sit right behind the
    designated element; every other element is nil. *)
Definition holds (C : nat) (r : Ring) (es : list slice) : Prop :=
  ring_wf r /\ (length es <= C)%nat /\
  view r = replicate (C - length es) None ++ (Some <$> es).

(** What [PWrite] does to the entries of a ring: the oldest goes when the
    ring is full. *)
Definition push (C : nat) (es : list slice) (b : slice) : list slice :=
  drop (S (length es) - C) (es ++ [b]).

(** ** Stores *)

(** The ring [PWrite] finds or makes at rank [i] of a store of positive
    capacity. *)
Definition ring_or_New (r : RingBuffer.t) (i : Z) : Ring :=
  default (mkRing (replicate (Z.to_nat (bufCap r)) None) 0) (ring_at r i).

(** The store [PWrite r p b] leaves behind when the capacity is positive. *)
Definition written (r : RingBuffer.t) (p : LogPriority) (b : slice) : RingBuffer.t :=
  RingBuffer.mk (RingBuffer.p r) (bufCap r)
    (<[p := Some (Next (set_Value (ring_or_New r p) (Some b)))]> (buf r))
    (Z.max (highP r) p).

(** The map [Pop] leaves behind when it takes an entry out of the ring [rg]
    of rank [highP]. *)
Definition popped (r : RingBuffer.t) (rg : Ring) : gmap Z (option Ring) :=
  <[highP r := Some (set_Value (Prev rg) None)]> (buf r).

(** The invariant of the stores the public API builds: positive capacity,
    a non-negative [highP], and every ring of the map is a bounded stack of
    that capacity. *)
Definition wf (r : RingBuffer.t) : Prop :=
  0 < bufCap r /\ 0 <= highP r /\
  forall i x, buf r !! i = Some x ->
    exists rg es, x = Some rg /\ holds (Z.to_nat (bufCap r)) rg es.

(** The stores obtained from [NewRingBuffer d C] through the public API.
    [GetPriority] leaves the store as it is. *)
Inductive reachable (d : LogPriority) (C : Z) : RingBuffer.t -> Prop :=
  | reach_New : reachable d C (NewRingBuffer d C)
  | reach_PWrite r p b a r' :
      reachable d C r -> PWrite r p b = Ret a r' -> reachable d C r'
  | reach_Write r b a r' :
      reachable d C r -> Write r b = Ret a r' -> reachable d C r'
  | reach_Pop h r a r' :
      reachable d C r -> Pop h r = Ret a r' -> reachable d C r'
  | reach_SetPriority r p :
      reachable d C r -> reachable d C (SetPriority r p).


(** [n] successive calls of [Pop]: what they return, and the last store. *)
Fixpoint Pops (n : nat) (h : heap) (r : RingBuffer.t)
  : option (list (string * option error) * RingBuffer.t) :=
  match n with
  | O => Some ([], r)
  | S n =>
      match Pop h r with
      | Ret a r => '(l, r) ← Pops n h r; Some (a :: l, r)
      | Panic => None
      end
  end.

(** A ring with no entry in it. *)
Definition all_nil (rg : Ring) : Prop := Forall (eq None) (slots rg).

(** ** Scripts of calls *)

Inductive call :=
  | CPWrite (p : LogPriority) (b : slice)
  | CWrite (b : slice)
  | CPop
  | CGetPriority
  | CSetPriority (p : LogPriority).

Inductive reply :=
  | RWrite (n : nat) (e : option error)
  | RPop (s : string) (e : option error)
  | RPriority (p : LogPriority)
  | RUnit.

(** One call on the store; [None] is a panic. *)
Definition do_call (h : heap) (c : call) (r : RingBuffer.t) : option (reply * RingBuffer.t) :=
  match c with
  | CPWrite p b =>
      match PWrite r p b with Ret (n, e) r => Some (RWrite n e, r) | Panic => None end
  | CWrite b =>
      match Write r b with Ret (n, e) r => Some (RWrite n e, r) | Panic => None end
  | CPop =>
      match Pop h r with Ret (s, e) r => Some (RPop s e, r) | Panic => None end
  | CGetPriority => Some (RPriority (GetPriority r), r)
  | CSetPriority p => Some (RUnit, SetPriority r p)
  end.

Fixpoint run (h : heap) (cs : list call) (r : RingBuffer.t)
  : option (list reply * RingBuffer.t) :=
  match cs with
  | [] => Some ([], r)
  | c :: cs =>
      '(a, r) ← do_call h c r;
      '(l, r) ← run h cs r;
      Some (a :: l, r)
  end.

(** [[]byte(s)] for each string of a list, in turn. *)
Fixpoint of_strings (h : heap) (ss : list string) : list slice * heap :=
  match ss with
  | [] => ([], h)
  | s :: ss =>
      let '(b, h) := of_string h s in
      let '(bs, h) := of_strings h ss in
      (b :: bs, h)
  end.

(** ** Sample data *)

(** The heap after [[]byte("a")] and [[]byte("b")], and the two slices. *)
Definition sample_heap : heap := snd (of_strings [] ["a"; "b"]%string).
Definition sa : slice := Slice (Some 0%nat) 0 1 1.
Definition sb : slice := Slice (Some 1%nat) 0 1 1.

(** A store of capacity 3 after [PWrite(Major, "a")] and one [Pop]: its
    only ring is empty again. *)
Definition drained : RingBuffer.t :=
  RingBuffer.mk Minor 3 {[ Major := Some (mkRing [None; None; None] 0) ]} Major.

(** The same store after one more [Pop]. *)
Definition drained_stepped : RingBuffer.t :=
  RingBuffer.mk Minor 3 {[ Major := Some (mkRing [None; None; None] 2) ]} Major.

(** A store of capacity 1 after [Write("a")] and one [Pop]: its only ring
    has one element, which is nil again. *)
Definition drained_one : RingBuffer.t :=
  RingBuffer.mk Minor 1 {[ Minor := Some (mkRing [None] 0) ]} Minor.

(** [drained] after [Write("b")], a write at the default priority [Minor]. *)
Definition stuck : RingBuffer.t :=
  RingBuffer.mk Minor 3
    {[ Minor := Some (mkRing [Some sb; None; None] 1);
       Major := Some (mkRing [None; None; None] 0) ]} Major.

(** The claim that a store without unread entry at or below [highP]
    answers [Pop] with the empty-buffer error. *)
Definition empty_error_when_drained (h : heap) (r : RingBuffer.t) : Prop :=
  (forall i rg, i <= highP r -> buf r !! i = Some (Some rg) -> all_nil rg) ->
  exists r', Pop h r = Ret (""%string, Some ErrBufferEmpty) r'.

(** ** Overflow at one priority *)

(** A store whose only ring is the one of rank [p], which holds [es]. *)
Definition lone (C : Z) (p : LogPriority) (es : list slice) (r : RingBuffer.t) : Prop :=
  bufCap r = C /\ highP r = p /\
  exists rg, buf r = {[ p := Some rg ]} /\ holds (Z.to_nat C) rg es.

(** What a successful [Pop] of the entry [b] returns. *)
Definition popped_entry (h : heap) (b : slice) : string * option error :=
  (to_string h b, None).


(** The overflow test of the package: seven writes at the default priority
    [Minor] on a new store of capacity [C], then six pops. *)
Definition digits : list string := ["0"; "1"; "2"; "3"; "4"; "5"; "6"]%string.

Definition overflow_test (C : Z) : option (list reply) :=
  let '(bs, h) := of_strings [] digits in
  fst <$> run h ((CWrite <$> bs) ++ replicate 6 CPop) (NewRingBuffer Minor C).

(** The replies C7 expects: the seven writes, the five entries written
    last, then an error [e]. *)
Definition overflow_replies (e : error) : list reply :=
  replicate 7 (RWrite 1 None) ++
  [RPop "6" None; RPop "5" None; RPop "4" None; RPop "3" None; RPop "2" None;
   RPop "" (Some e)].

(** ** Ranks that hold entries *)

Definition has_entry (x : option Ring) : bool :=
  match x with
  | Some rg => existsb (fun v => bool_decide (is_Some v)) (slots rg)
  | None => false
  end.

(** The ranks whose ring holds at least one entry, in increasing order. *)
Definition ranks_with_entries (r : RingBuffer.t) : list Z :=
  merge_sort Z.le (fst <$> filter (fun kv => has_entry (snd kv) = true) (map_to_list (buf r))).

(** ** Locking: the statements of [PWrite] and [Pop] as atomic steps

    [RingBuffer.lock] is a [*sync.Mutex].  Two goroutines run one call
    each on the same store; a step is one statement of the source, and the
    steps that touch the store are the statement functions [PWrite] and
    [Pop] are composed of above. *)

Module conc.

(** What the goroutines share: the store and whether its mutex is held. *)
Record shared := mkShared { store : RingBuffer.t; locked : bool }.

Inductive outcome (A : Type) :=
  | Step (a : A) (s : shared)   (* the statement ran *)
  | Blocked                     (* it waits, or the call has returned *)
  | Crash.                      (* nil pointer dereference *)
Arguments Step {A} a s.
Arguments Blocked {A}.
Arguments Crash {A}.

(** Where a call of [PWrite] stands. *)
Inductive wpc :=
  | WLock       (* r.lock.Lock() *)
  | WRaise      (* if i > r.highP { r.highP = i } *)
  | WAlloc      (* if r.buf[i] == nil { r.buf[i] = ring.New(r.bufCap) } *)
  | WStore      (* r.buf[i].Value = b *)
  | WAdvance    (* r.buf[i] = r.buf[i].Next() *)
  | WUnlock     (* return len(b), nil; deferred r.lock.Unlock() *)
  | WDone (n : nat).

Definition on_store {A} (pc : A) (s : shared) (r : option RingBuffer.t) : outcome A :=
  match r with
  | Some r => Step pc (mkShared r (locked s))
  | None => Crash
  end.

Definition PWrite_step (p : LogPriority) (b : slice) (pc : wpc) (s : shared)
  : outcome wpc :=
  match pc with
  | WLock => if locked s then Blocked else Step WRaise (mkShared (store s) true)
  | WRaise => on_store WAlloc s (Some (PWrite_raise p (store s)))
  | WAlloc => on_store WStore s (Some (PWrite_alloc p (store s)))
  | WStore => on_store WAdvance s (PWrite_store p b (store s))
  | WAdvance => on_store WUnlock s (PWrite_advance p (store s))
  | WUnlock => Step (WDone (len b)) (mkShared (store s) false)
  | WDone _ => Blocked
  end.

(** Where a call of [Pop] stands; [b] is its local variable. *)
Inductive ppc :=
  | PCheck              (* _, ok := r.buf[r.highP]; if !ok { return } *)
  | PPrev               (* r.buf[r.highP] = r.buf[r.highP].Prev() *)
  | PAssert             (* b, ok := ....Value.([]byte); if !ok { return } *)
  | PClear (b : slice)  (* r.buf[r.highP].Value = nil *)
  | PUpdate (b : slice) (* the loop that updates highP *)
  | PReturn (b : slice) (* return string(b), nil *)
  | PDone (res : string * option error).

Definition Pop_step (h : heap) (pc : ppc) (s : shared) : outcome ppc :=
  let r := store s in
  match pc with
  | PCheck =>
      match buf r !! highP r with
      | None => Step (PDone (""%string, Some ErrBufferEmpty)) s
      | Some _ => Step PPrev s
      end
  | PPrev => on_store PAssert s (Pop_prev r)
  | PAssert =>
      match ring_at r (highP r) ≫= Value with
      | None => Step (PDone (""%string, Some ErrTypeAssertion)) s
      | Some b => Step (PClear b) s
      end
  | PClear b => on_store (PUpdate b) s (Pop_clear r)
  | PUpdate b => on_store (PReturn b) s (Pop_update r)
  | PReturn b => Step (PDone (to_string h b, None)) s
  | PDone _ => Blocked
  end.

Definition PWrite_done (pc : wpc) : bool :=
  match pc with WDone _ => true | _ => false end.

Definition Pop_done (pc : ppc) : bool :=
  match pc with PDone _ => true | _ => false end.

(** A call run on its own until it returns, for at most [n] steps. *)
Fixpoint alone {A} (step : A -> shared -> outcome A) (done : A -> bool)
    (n : nat) (pc : A) (s : shared) : outcome A :=
  if done pc then Step pc s
  else
    match n with
    | O => Blocked
    | S n =>
        match step pc s with
        | Step pc s => alone step done n pc s
        | Blocked => Blocked
        | Crash => Crash
        end
    end.

(** Two goroutines: one in [PWrite(p, b)], one in [Pop()]. *)
Inductive tid := Writer | Reader.

Record config := mkConfig { w : wpc; r : ppc; mem : shared }.

Definition sched_step (h : heap) (p : LogPriority) (b : slice) (t : tid) (c : config)
  : option config :=
  match t with
  | Writer =>
      match PWrite_step p b (w c) (mem c) with
      | Step pc s => Some (mkConfig pc (r c) s)
      | _ => None
      end
  | Reader =>
      match Pop_step h (r c) (mem c) with
      | Step pc s => Some (mkConfig (w c) pc s)
      | _ => None
      end
  end.

(** A schedule is the order in which the goroutines take their steps;
    [None] when a goroutine is scheduled that cannot step. *)
Fixpoint exec (h : heap) (p : LogPriority) (b : slice) (ts : list tid) (c : config)
  : option config :=
  match ts with
  | [] => Some c
  | t :: ts => sched_step h p b t c ≫= exec h p b ts
  end.

Definition start (r0 : RingBuffer.t) : config :=
  mkConfig WLock PCheck (mkShared r0 false).

End conc.

(** ** The append buffer *)

(** The bytes a buffer holds, as they are in the heap now. *)
Definition contents (h : heap) (b : bytes.Buffer) : list byte :=
  load h (bytes.Bytes b).

(** The buffers [Logger] builds: nothing is ever read from them, so the
    read offset is 0 and the slice starts its backing array, which is as
    long as the slice's capacity. *)
Definition buffer_ok (h : heap) (b : bytes.Buffer) : Prop :=
  bytes.off b = 0%nat /\ mem.off (bytes.buf b) = 0%nat /\
  (len (bytes.buf b) <= cap (bytes.buf b))%nat /\
  exists a l, arr (bytes.buf b) = Some a /\ h !! a = Some l /\
    length l = cap (bytes.buf b).

(** The bytes of the fragments of a session, one after the other. *)
Definition bytes_of (frs : list string) : list byte :=
  concat (list_byte_of_string <$> frs).

Section sessions.
Variable roundupsize : nat -> nat.

(** Successive calls of [Append]. *)
Fixpoint Appends (h : heap) (l : Logger.t) (frs : list string) : Logger.t * heap :=
  match frs with
  | [] => (l, h)
  | s :: frs => let '(l, h) := Append roundupsize h l s in Appends h l frs
  end.

(** A commit session: the appends, then [AppendDone(p)]. *)
Definition session (h : heap) (l : Logger.t) (frs : list string) (p : LogPriority)
  : option (Logger.t * heap) :=
  let '(l, h) := Appends h l frs in
  (fun l => (l, h)) <$> AppendDone l p.
End sessions.

(** ** What a rank holds *)

(** [rank_holds r i es]: the unread entries of rank [i] are [es], oldest
    first; a rank without ring holds nothing. *)
Definition rank_holds (r : RingBuffer.t) (i : Z) (es : list slice) : Prop :=
  match buf r !! i with
  | Some (Some rg) => holds (Z.to_nat (bufCap r)) rg es
  | Some None => False
  | None => es = []
  end.

(** ** The tests of the package *)

(** [testRingBufferPop]: eight writes in mixed order, then eight pops. *)
Definition pop_test : option (list reply) :=
  let '(bs, h) :=
    of_strings [] ["major0"; "minor0"; "trivial0"; "critical0";
                   "major1"; "minor1"; "critical1"; "trivial1"]%string in
  fst <$> run h
    (zip_with (fun f b => f b)
       [CPWrite Major; CWrite; CPWrite Trivial; CPWrite Critical;
        CPWrite Major; CWrite; CPWrite Critical; CPWrite Trivial] bs
     ++ replicate 8 CPop)
    (NewRingBuffer Minor 3).

(** [testLoggerConcurrentAppend]: the logger's mutex makes the five
    goroutines run their sessions one after the other; then three pops. *)
Definition append_test (roundupsize : nat -> nat) : option (list (string * option error)) :=
  let '(l, h) := NewLogger [] (NewRingBuffer Minor 3) in
  '(l, h) ← foldr (fun frs st => '(l, h) ← st; session roundupsize h l frs Major)
             (Some (l, h)) (replicate 5 ["n"; "e"; "m"; "o"]%string);
  fst <$> Pops 3 h (GetBuffer l).

(** ** Unread entries, computed *)

(** The entries of a ring, met from the designated element on: in the
    rings [PWrite] and [Pop] build these are the unread entries, oldest
    first. *)
Definition unread (rg : Ring) : list slice := omap id (view rg).

(** The unread entries of rank [i], oldest first; none without a ring. *)
Definition rank (r : RingBuffer.t) (i : Z) : list slice :=
  match buf r !! i with
  | Some (Some rg) => unread rg
  | _ => []
  end.

(** [f] applied to the store a call leaves behind. *)
Definition map_store {A} (f : RingBuffer.t -> RingBuffer.t) (x : result A) : result A :=
  match x with
  | Ret a r => Ret a (f r)
  | Panic => Panic
  end.

(** A store of capacity 3 after [PWrite(Major, "a")]. *)
Definition one_entry : RingBuffer.t :=
  RingBuffer.mk Minor 3 {[ Major := Some (mkRing [Some sa; None; None] 1) ]} Major.

(** ** Draining *)

(** The entries of the [n] ranks [i], [i-1], ..., each rank newest first. *)
Fixpoint drain_from (r : RingBuffer.t) (n : nat) (i : Z) : list slice :=
  match n with
  | O => []
  | S n => reverse (rank r i) ++ drain_from r n (i - 1)
  end.

(** The entries of the ranks [highP] down to 0. *)
Definition drain (r : RingBuffer.t) : list slice :=
  drain_from r (Z.to_nat (highP r + 1)) (highP r).

(** [highP] is right: the entries are at ranks from 0 to [highP], and rank
    [highP] holds one unless the store holds none at all. *)
Definition in_order (r : RingBuffer.t) : Prop :=
  (forall i, rank r i <> [] -> 0 <= i <= highP r) /\
  (rank r (highP r) <> [] \/ forall i, rank r i = []).

(** Successive writes, each at its own priority. *)
Fixpoint PWrite_all (r : RingBuffer.t) (ws : list (LogPriority * slice))
  : option RingBuffer.t :=
  match ws with
  | [] => Some r
  | w :: ws =>
      match PWrite r w.1 w.2 with
      | Ret _ r => PWrite_all r ws
      | Panic => None
      end
  end.

(** The entries written at priority [i], in the order of the writes. *)
Definition written_at (ws : list (LogPriority * slice)) (i : Z) : list slice :=
  snd <$> filter (fun w => w.1 = i) ws.

(** The highest priority written, 0 at least. *)
Definition top_priority (ws : list (LogPriority * slice)) : Z :=
  fold_left (fun m w => Z.max m w.1) ws 0.

(** For the [n] priorities [i], [i-1], ...: the [C] entries written last at
    each, the last one first. *)
Fixpoint newest_from (C : nat) (ws : list (LogPriority * slice)) (n : nat) (i : Z)
  : list slice :=
  match n with
  | O => []
  | S n => take C (reverse (written_at ws i)) ++ newest_from C ws n (i - 1)
  end.

Definition newest_first (C : nat) (ws : list (LogPriority * slice)) : list slice :=
  newest_from C ws (Z.to_nat (top_priority ws + 1)) (top_priority ws).

(** The writes of [testRingBufferPop], and the heap they leave. *)
Definition pop_test_names : list string :=
  ["major0"; "minor0"; "trivial0"; "critical0";
   "major1"; "minor1"; "critical1"; "trivial1"]%string.

Definition pop_test_heap : heap := (of_strings [] pop_test_names).2.

Definition pop_test_writes : list (LogPriority * slice) :=
  zip [Major; Minor; Trivial; Critical; Major; Minor; Critical; Trivial]
      (of_strings [] pop_test_names).1.

(** ** Two calls of [PWrite] at once *)

Module writers.
Import conc.

(** Two goroutines, each in a call of [PWrite] on the same store. *)
Record wconfig := mkWconfig { w1 : wpc; w2 : wpc; wmem : shared }.

Inductive writer := First | Second.

Definition writer_step (p1 : LogPriority) (b1 : slice) (p2 : LogPriority) (b2 : slice)
    (t : writer) (c : wconfig) : option wconfig :=
  match t with
  | First =>
      match PWrite_step p1 b1 (w1 c) (wmem c) with
      | Step pc s => Some (mkWconfig pc (w2 c) s)
      | _ => None
      end
  | Second =>
      match PWrite_step p2 b2 (w2 c) (wmem c) with
      | Step pc s => Some (mkWconfig (w1 c) pc s)
      | _ => None
      end
  end.

Fixpoint writers_exec (p1 : LogPriority) (b1 : slice) (p2 : LogPriority) (b2 : slice)
    (ts : list writer) (c : wconfig) : option wconfig :=
  match ts with
  | [] => Some c
  | t :: ts => writer_step p1 b1 p2 b2 t c ≫= writers_exec p1 b1 p2 b2 ts
  end.

Definition writers_start (r0 : RingBuffer.t) : wconfig :=
  mkWconfig WLock WLock (mkShared r0 false).

(** A call of [PWrite(p, b)] that started on the store [r0] stands at [pc]
    and the store is [r]. *)
Definition progress (p : LogPriority) (b : slice) (r0 : RingBuffer.t)
    (pc : wpc) (r : RingBuffer.t) : Prop :=
  match pc with
  | WLock => r = r0
  | WRaise => r = r0
  | WAlloc => r = PWrite_raise p r0
  | WStore => r = PWrite_alloc p (PWrite_raise p r0)
  | WAdvance => PWrite_store p b (PWrite_alloc p (PWrite_raise p r0)) = Some r
  | WUnlock =>
      PWrite_store p b (PWrite_alloc p (PWrite_raise p r0)) ≫= PWrite_advance p
      = Some r
  | WDone n => PWrite r0 p b = Ret (n, None) r
  end.

(** The call holds the mutex. *)
Definition critical (pc : wpc) : bool :=
  match pc with
  | WLock | WDone _ => false
  | _ => true
  end.

(** The call [x] came first, on [r0]; the call [y] is behind it. *)
Definition ordered (x y : LogPriority * slice) (r0 : RingBuffer.t)
    (pc pc' : wpc) (s : shared) : Prop :=
  (critical pc = true /\ pc' = WLock /\ locked s = true /\
   progress x.1 x.2 r0 pc (store s)) \/
  (exists n r1, pc = WDone n /\ PWrite r0 x.1 x.2 = Ret (n, None) r1 /\
     progress y.1 y.2 r1 pc' (store s) /\ locked s = critical pc').

(** The schedule that runs the first call to its end, then the second. *)
Definition one_after_the_other : list writer :=
  replicate 6 First ++ replicate 6 Second.

End writers.

(** ** The same session, several times *)

(** [k] commit sessions with the same fragments and priority, one after the
    other, as the goroutines of [testLoggerConcurrentAppend] run them. *)
Fixpoint same_sessions (roundupsize : nat -> nat) (k : nat) (h : heap) (l : Logger.t)
    (frs : list string) (p : LogPriority) : option (Logger.t * heap) :=
  match k with
  | O => Some (l, h)
  | S k =>
      '(l, h) ← session roundupsize h l frs p;
      same_sessions roundupsize k h l frs p
  end.

(** ** Commit sessions of several goroutines *)

Module sessions.

(** The calls a goroutine makes on the shared logger. *)
Inductive op :=
  | OLock                          (* l.Lock() *)
  | OAppend (s : string)           (* l.Append(s) *)
  | OAppendDone (p : LogPriority)  (* l.AppendDone(p) *)
  | OUnlock.                       (* l.Unlock() *)

(** What a goroutine of [testLoggerConcurrentAppend] runs, for the
    fragments [x.1] and the priority [x.2]. *)
Definition session_ops (x : list string * LogPriority) : list op :=
  OLock :: (OAppend <$> x.1) ++ [OAppendDone x.2; OUnlock].

(** [threads]: what each goroutine has left to run; [lock]: [l.lock] is
    held; [handed]: the priority and the bytes of the slice of every call of
    [PWrite] so far, oldest first. *)
Record state := mkState {
  threads : list (list op);
  logger : Logger.t;
  lheap : heap;
  lock : bool;
  handed : list (LogPriority * list byte)
}.

Section steps.
Variable roundupsize : nat -> nat.

(** Goroutine [t] runs its next call; [None] when it cannot: it has
    returned, it waits for the mutex, [PWrite] panics, or it unlocks a mutex
    that is not held. *)
Definition step (t : nat) (st : state) : option state :=
  match threads st !! t with
  | Some (o :: rest) =>
      let ths := <[t := rest]> (threads st) in
      match o with
      | OLock =>
          if lock st then None
          else Some (mkState ths (logger st) (lheap st) true (handed st))
      | OAppend s =>
          let '(l, h) := Append roundupsize (lheap st) (logger st) s in
          Some (mkState ths l h (lock st) (handed st))
      | OAppendDone p =>
          l ← AppendDone (logger st) p;
          Some (mkState ths l (lheap st) (lock st)
                  (handed st ++ [(p, contents (lheap st) (Logger.aBuf (logger st)))]))
      | OUnlock =>
          if lock st
          then Some (mkState ths (logger st) (lheap st) false (handed st))
          else None
      end
  | _ => None
  end.

Fixpoint steps (ts : list nat) (st : state) : option state :=
  match ts with
  | [] => Some st
  | t :: ts => step t st ≫= steps ts
  end.
End steps.

Definition start (h : heap) (l : Logger.t) (xs : list (list string * LogPriority))
  : state :=
  mkState (session_ops <$> xs) l h false [].

(** The schedule that lets each goroutine of [ths] run to its end, the
    first one being number [t]. *)
Fixpoint in_turn (t : nat) (ths : list (list op)) : list nat :=
  match ths with
  | [] => []
  | ops :: ths => replicate (length ops) t ++ in_turn (S t) ths
  end.

(** What the calls left in [ops] will hand to [PWrite], when the
    accumulator holds [c] now; a goroutine that has yet to lock will start
    from the empty accumulator. *)
Fixpoint to_hand (c : list byte) (ops : list op) : option (LogPriority * list byte) :=
  match ops with
  | OLock :: ops => to_hand [] ops
  | OAppend s :: ops => to_hand (c ++ list_byte_of_string s) ops
  | OAppendDone p :: _ => Some (p, c)
  | _ => None
  end.

(** A goroutine outside its session: it has not locked yet, or it has
    returned. *)
Definition idle (ops : list op) : Prop :=
  ops = [] \/ exists x, ops = session_ops x.

(** A goroutine inside its session. *)
Definition holding (c : list byte) (ops : list op) : Prop :=
  (exists frs p, ops = (OAppend <$> frs) ++ [OAppendDone p; OUnlock]) \/
  (ops = [OUnlock] /\ c = []).

(** What every schedule keeps; [target] is what the sessions are to hand
    over. *)
Definition inv (target : list (LogPriority * list byte)) (st : state) : Prop :=
  let c := contents (lheap st) (Logger.aBuf (logger st)) in
  buffer_ok (lheap st) (Logger.aBuf (logger st)) /\
  handed st ++ omap (to_hand c) (threads st) ≡ₚ target /\
  if lock st
  then exists t ops, threads st !! t = Some ops /\ holding c ops /\
         forall t' ops', t' <> t -> threads st !! t' = Some ops' -> idle ops'
  else c = [] /\ Forall idle (threads st).

End sessions.

(** * Verification *)

(** ** Rings *)

Section ring_facts.
Implicit Types (r : Ring) (v : any) (l : list any) (es : list slice).

Lemma length_view r : length (view r) = Len r.
Proof.
  unfold view, Len. rewrite length_app, length_drop, length_take. lia.
Qed.

Lemma Next_wf r : ring_wf r -> ring_wf (Next r).
Proof.
  unfold ring_wf, Next, Len; simpl. intros H.
  apply Nat.mod_upper_bound. lia.
Qed.

Lemma Prev_wf r : ring_wf r -> ring_wf (Prev r).
Proof.
  unfold ring_wf, Prev, Len; simpl. intros H.
  apply Nat.mod_upper_bound. lia.
Qed.

Lemma set_Value_wf r v : ring_wf r -> ring_wf (set_Value r v).
Proof. unfold ring_wf, set_Value, Len; simpl. now rewrite length_insert. Qed.

Lemma Next_Prev r : ring_wf r -> Next (Prev r) = r.
Proof.
  destruct r as [l c]. unfold ring_wf, Next, Prev, Len; simpl. intros H.
  f_equal. destruct c as [|c].
  - rewrite Nat.add_0_l, (Nat.mod_small (length l - 1)) by lia.
    replace (length l - 1 + 1)%nat with (length l) by lia.
    apply Nat.Div0.mod_same.
  - replace (S c + length l - 1)%nat with (c + 1 * length l)%nat by lia.
    rewrite Nat.Div0.mod_add, (Nat.mod_small c) by lia.
    rewrite Nat.mod_small; lia.
Qed.

Lemma view_cons r :
  ring_wf r -> view r = Value r :: drop (S (cur r)) (slots r) ++ take (cur r) (slots r).
Proof.
  unfold ring_wf, view, Value, Len. intros H.
  destruct (lookup_lt_is_Some_2 (slots r) (cur r) H) as [x Hx].
  rewrite Hx; simpl. now rewrite (drop_S _ _ _ Hx).
Qed.

Lemma Value_set_Value r v : ring_wf r -> Value (set_Value r v) = v.
Proof.
  unfold ring_wf, Value, set_Value, Len; simpl. intros H.
  now rewrite list_lookup_insert_eq.
Qed.

Lemma view_set_Value r v : ring_wf r -> view (set_Value r v) = v :: tail (view r).
Proof.
  intros H. rewrite (view_cons r H); simpl.
  rewrite (view_cons _ (set_Value_wf r v H)), (Value_set_Value r v H).
  unfold set_Value; simpl. f_equal. f_equal.
  - now rewrite drop_insert_lt by lia.
  - now rewrite take_insert_ge by lia.
Qed.

Lemma view_Next r : ring_wf r -> view (Next r) = tail (view r) ++ [Value r].
Proof.
  intros H. rewrite (view_cons r H); simpl.
  unfold ring_wf, Len in H. unfold view, Next, Value, Len; simpl.
  destruct (lookup_lt_is_Some_2 (slots r) (cur r) H) as [x Hx]. rewrite Hx; simpl.
  destruct (decide (cur r + 1 < length (slots r))%nat) as [Hlt|Hge].
  - rewrite Nat.mod_small by lia.
    replace (cur r + 1)%nat with (S (cur r)) by lia.
    rewrite (take_S_r _ _ _ Hx). now rewrite app_assoc.
  - replace (cur r + 1)%nat with (length (slots r)) by lia.
    rewrite Nat.Div0.mod_same. simpl. rewrite drop_0, app_nil_r.
    rewrite (drop_ge (slots r) (S (cur r))) by lia. simpl.
    rewrite <- (take_drop (cur r) (slots r)) at 1.
    rewrite (drop_S _ _ _ Hx), drop_ge by lia. reflexivity.
Qed.

Lemma view_Prev r t x :
  ring_wf r -> view r = t ++ [x] -> view (Prev r) = x :: t /\ Value (Prev r) = x.
Proof.
  intros H Hv.
  pose proof (Prev_wf r H) as Hp.
  pose proof (view_Next (Prev r) Hp) as Hn.
  rewrite (Next_Prev r H), Hv in Hn.
  rewrite (view_cons _ Hp) in Hn |- *. simpl in Hn.
  apply app_inj_tail in Hn as [-> ->]. auto.
Qed.

(** The values of the ring, whatever element is designated. *)
Lemma Forall_view (P : any -> Prop) r : Forall P (view r) <-> Forall P (slots r).
Proof.
  unfold view. rewrite Forall_app.
  rewrite <- (take_drop (cur r) (slots r)) at 3. rewrite Forall_app. tauto.
Qed.

Lemma holds_Len C r es : holds C r es -> Len r = C.
Proof.
  intros (_ & Hle & Hv). rewrite <- length_view, Hv.
  rewrite length_app, length_replicate, length_fmap. lia.
Qed.

Lemma holds_New n r : New n = Some r -> holds (Z.to_nat n) r [].
Proof.
  unfold New. destruct (decide (n <= 0)); [discriminate|].
  intros [= <-]. unfold holds, ring_wf, view, Len; simpl.
  rewrite length_replicate, drop_0, Nat.sub_0_r, !app_nil_r.
  repeat split; lia.
Qed.

Lemma holds_write C r es b :
  holds C r es -> holds C (Next (set_Value r (Some b))) (push C es b).
Proof.
  intros (Hwf & Hle & Hv).
  pose proof (holds_Len C r es (conj Hwf (conj Hle Hv))) as HC.
  assert (0 < C)%nat as HC0 by (unfold ring_wf in Hwf; lia).
  pose proof (set_Value_wf r (Some b) Hwf) as Hwf'.
  unfold holds, push. split; [now apply Next_wf|].
  rewrite length_drop, length_app; simpl. split; [lia|].
  rewrite (view_Next _ Hwf'), (Value_set_Value _ _ Hwf), (view_set_Value _ _ Hwf), Hv.
  simpl. destruct (decide (length es < C)%nat) as [Hlt|Hge].
  - replace (S (length es) - C)%nat with 0%nat by lia. rewrite drop_0.
    replace (C - length es)%nat with (S (C - (length es + 1 - 0)))%nat by lia.
    simpl. rewrite fmap_app, app_assoc. reflexivity.
  - replace (C - length es)%nat with 0%nat by lia.
    replace (S (length es) - C)%nat with 1%nat by lia.
    destruct es as [|e es]; [simpl in *; lia|]. simpl. rewrite drop_0.
    replace (C - _)%nat with 0%nat by (simpl in *; lia).
    simpl. now rewrite fmap_app.
Qed.

Lemma holds_pop C r es b :
  holds C r (es ++ [b]) ->
  Value (Prev r) = Some b /\ holds C (set_Value (Prev r) None) es.
Proof.
  intros (Hwf & Hle & Hv). rewrite length_app in Hle, Hv; simpl in *.
  rewrite fmap_app, app_assoc in Hv. simpl in Hv.
  destruct (view_Prev r _ _ Hwf Hv) as [Hp HV]. split; [exact HV|].
  pose proof (Prev_wf r Hwf) as Hwf'.
  split; [now apply set_Value_wf|]. split; [lia|].
  rewrite (view_set_Value _ _ Hwf'), Hp. simpl.
  replace (C - length es)%nat with (S (C - (length es + 1)))%nat by lia.
  reflexivity.
Qed.

Lemma holds_pop_nil C r :
  holds C r [] -> Value (Prev r) = None /\ holds C (Prev r) [].
Proof.
  intros (Hwf & Hle & Hv).
  pose proof (holds_Len C r [] (conj Hwf (conj Hle Hv))) as HC.
  assert (0 < C)%nat as HC0 by (unfold ring_wf in Hwf; lia).
  simpl in Hv. rewrite Nat.sub_0_r, app_nil_r in Hv.
  assert (view r = replicate (C - 1) None ++ [None]) as Hv'.
  { rewrite Hv. replace C with (C - 1 + 1)%nat at 1 by lia.
    now rewrite replicate_add. }
  destruct (view_Prev r _ _ Hwf Hv') as [Hp HV]. split; [exact HV|].
  split; [now apply Prev_wf|]. split; [simpl; lia|].
  rewrite Hp. simpl. rewrite Nat.sub_0_r, app_nil_r.
  replace C with (S (C - 1)) at 2 by lia. reflexivity.
Qed.

(** The slot behind the designated element tells whether the ring holds
    an unread entry. *)
Lemma holds_peek C r es :
  holds C r es -> Value (Prev r) = None <-> es = [].
Proof.
  intros H. destruct es as [|e es _] using rev_ind.
  - now apply holds_pop_nil in H as [-> _].
  - apply holds_pop in H as [-> _]. split; [discriminate|].
    intros Hnil. symmetry in Hnil. now apply app_cons_not_nil in Hnil.
Qed.

Lemma holds_nil_iff C r :
  holds C r [] <-> ring_wf r /\ Len r = C /\ Forall (eq None) (slots r).
Proof.
  split.
  - intros H. pose proof (holds_Len _ _ _ H) as HC.
    destruct H as (Hwf & _ & Hv). repeat split; auto.
    apply Forall_view. rewrite Hv. simpl. rewrite app_nil_r.
    apply Forall_replicate; auto.
  - intros (Hwf & HC & Hall). repeat split; auto; [simpl; lia|].
    simpl. rewrite Nat.sub_0_r, app_nil_r.
    apply Forall_view in Hall. rewrite <- HC, <- length_view.
    symmetry. apply replicate_as_Forall. split; [reflexivity|].
    eapply Forall_impl; [exact Hall|]. simpl. auto.
Qed.
End ring_facts.

(** ** Stores *)

Section store_facts.
Implicit Types (r : RingBuffer.t) (rg : Ring) (i p : Z) (b : slice) (h : heap).

Lemma ring_at_Some r i rg : ring_at r i = Some rg <-> buf r !! i = Some (Some rg).
Proof.
  unfold ring_at. destruct (buf r !! i) as [[?|]|]; simpl; split; congruence.
Qed.

Lemma PWrite_Ret r p b :
  0 < bufCap r -> PWrite r p b = Ret (len b, None) (written r p b).
Proof.
  intros HC. destruct r as [d C m hp]. simpl in HC.
  unfold PWrite, PWrite_store, PWrite_advance, PWrite_alloc, PWrite_raise,
    deref, written, ring_or_New, ring_at, set_buf, set_highP, New; simpl.
  assert ((if decide (hp < p) then p else hp) = Z.max hp p) as Hmax.
  { case_decide; lia. }
  destruct (decide (hp < p)); simpl;
    destruct (m !! p) as [[rg|]|] eqn:Hm; simpl; rewrite ?Hm; simpl;
    rewrite ?decide_False by lia; simpl;
    rewrite ?lookup_insert_eq; simpl; rewrite ?lookup_insert_eq; simpl;
    rewrite ?insert_insert_eq; rewrite <- ?Hmax;
    rewrite ?decide_True by lia; rewrite ?decide_False by lia; reflexivity.
Qed.

Lemma Pop_empty h r :
  buf r !! highP r = None -> Pop h r = Ret (""%string, Some ErrBufferEmpty) r.
Proof. unfold Pop. now intros ->. Qed.

Lemma Pop_nil_ring h r :
  buf r !! highP r = Some None -> Pop h r = Panic.
Proof. unfold Pop, Pop_prev, deref, ring_at. now intros ->. Qed.

Lemma Pop_fail h r rg :
  buf r !! highP r = Some (Some rg) -> Value (Prev rg) = None ->
  Pop h r = Ret (""%string, Some ErrTypeAssertion)
              (set_buf r (<[highP r := Some (Prev rg)]> (buf r))).
Proof.
  intros Hm HV. unfold Pop, Pop_prev, deref, ring_at. rewrite Hm; simpl.
  rewrite lookup_insert_eq; simpl. now rewrite HV.
Qed.

Lemma Pop_ok h r rg b :
  buf r !! highP r = Some (Some rg) -> Value (Prev rg) = Some b ->
  Pop h r =
    match rescan (popped r rg) (Z.to_nat (highP r + 1)) (highP r) with
    | Some found =>
        Ret (to_string h b, None)
          (RingBuffer.mk (RingBuffer.p r) (bufCap r) (popped r rg)
             (default (highP r) found))
    | None => Panic
    end.
Proof.
  intros Hm HV. unfold Pop, Pop_prev, Pop_clear, Pop_update, popped, deref, ring_at.
  rewrite Hm; simpl. rewrite lookup_insert_eq; simpl. rewrite HV; simpl.
  rewrite insert_insert_eq.
  destruct (rescan _ _ _) as [[j|]|]; reflexivity.
Qed.

(** The loop breaks only at a rank within the scanned range whose ring
    has an entry right behind its designated element. *)
Lemma rescan_found (m : gmap Z (option Ring)) n i j :
  rescan m n i = Some (Some j) ->
  i - Z.of_nat n < j <= i /\
  exists rg b, m !! j = Some (Some rg) /\ Value (Prev rg) = Some b.
Proof.
  revert i. induction n as [|n IH]; intros i; simpl; [discriminate|].
  destruct (m !! i) as [[rg|]|] eqn:Hm; [|discriminate|].
  - destruct (Value (Prev rg)) as [b|] eqn:HV.
    + intros [= <-]. split; [lia|]. eauto.
    + intros H. apply IH in H as [? ?]. split; [lia|auto].
  - intros H. apply IH in H as [? ?]. split; [lia|auto].
Qed.

(** It stops at the first such rank. *)
Lemma rescan_top (m : gmap Z (option Ring)) n i rg b :
  m !! i = Some (Some rg) -> Value (Prev rg) = Some b ->
  rescan m (S n) i = Some (Some i).
Proof. intros Hm HV. simpl. now rewrite Hm, HV. Qed.

(** It cannot panic when the map holds no nil pointer. *)
Lemma rescan_total (m : gmap Z (option Ring)) n i :
  (forall j, m !! j <> Some None) -> is_Some (rescan m n i).
Proof.
  intros Hm. revert i. induction n as [|n IH]; intros i; simpl; [eauto|].
  destruct (m !! i) as [[rg|]|] eqn:Hi; [|now apply Hm in Hi|apply IH].
  destruct (Value (Prev rg)); [eauto|apply IH].
Qed.

Lemma wf_no_nil r j : wf r -> buf r !! j <> Some None.
Proof.
  intros (_ & _ & Hm) Hj. apply Hm in Hj as (rg & es & [=] & _).
Qed.

Lemma wf_holds r j rg :
  wf r -> buf r !! j = Some (Some rg) ->
  exists es, holds (Z.to_nat (bufCap r)) rg es.
Proof.
  intros (_ & _ & Hm) Hj. apply Hm in Hj as (rg' & es & [= <-] & H). eauto.
Qed.

Lemma wf_insert r j rg es hp :
  wf r -> holds (Z.to_nat (bufCap r)) rg es -> 0 <= hp ->
  wf (RingBuffer.mk (RingBuffer.p r) (bufCap r) (<[j := Some rg]> (buf r)) hp).
Proof.
  intros (HC & _ & Hm) Hrg Hhp. split; [exact HC|]. split; [exact Hhp|].
  simpl. intros i x. rewrite lookup_insert. case_decide.
  - intros [= <-]. eauto.
  - apply Hm.
Qed.

Lemma wf_New d C : 0 < C -> wf (NewRingBuffer d C).
Proof.
  intros HC. split; [exact HC|]. split; [simpl; lia|].
  simpl. intros i x. now rewrite lookup_empty.
Qed.

Lemma holds_ring_or_New r p :
  wf r -> exists es, holds (Z.to_nat (bufCap r)) (ring_or_New r p) es.
Proof.
  intros Hwf. unfold ring_or_New.
  destruct (ring_at r p) as [rg|] eqn:Hat; simpl.
  - apply ring_at_Some in Hat. eapply wf_holds; eauto.
  - exists []. apply holds_New. unfold New.
    destruct Hwf as (HC & _). now rewrite decide_False by lia.
Qed.

Lemma wf_written r p b : wf r -> wf (written r p b).
Proof.
  intros Hwf. destruct (holds_ring_or_New r p Hwf) as [es Hes].
  unfold written. eapply wf_insert; [exact Hwf| |destruct Hwf; lia].
  apply holds_write, Hes.
Qed.

Lemma wf_SetPriority r p : wf r -> wf (SetPriority r p).
Proof. intros (? & ? & ?). repeat split; auto. Qed.

(** On a well-formed store [Pop] returns, and leaves a well-formed store. *)
Lemma wf_Pop h r :
  wf r -> exists a r', Pop h r = Ret a r' /\ wf r' /\ bufCap r' = bufCap r.
Proof.
  intros Hwf. destruct (buf r !! highP r) as [[rg|]|] eqn:Hm.
  - destruct (wf_holds r _ rg Hwf Hm) as [es Hes].
    destruct es as [|b es _] using rev_ind.
    + destruct (holds_pop_nil _ _ Hes) as [HV Hes'].
      rewrite (Pop_fail h r rg Hm HV). do 2 eexists. split; [reflexivity|].
      split; [|reflexivity]. destruct r as [d C m hp].
      eapply (wf_insert _ _ _ _ hp Hwf Hes'). now destruct Hwf as (_ & ? & _).
    + destruct (holds_pop _ _ _ _ Hes) as [HV Hes'].
      rewrite (Pop_ok h r rg b Hm HV).
      assert (wf (RingBuffer.mk (RingBuffer.p r) (bufCap r) (popped r rg) (highP r)))
        as Hwf'.
      { eapply wf_insert; eauto. now destruct Hwf as (_ & ? & _). }
      destruct (rescan_total (popped r rg) (Z.to_nat (highP r + 1)) (highP r))
        as [found Hf].
      { intros j. apply (wf_no_nil _ j Hwf'). }
      rewrite Hf. do 2 eexists. split; [reflexivity|]. split; [|reflexivity].
      destruct Hwf' as (HC & Hhp & Hmap). split; [exact HC|]. split; [|exact Hmap].
      simpl in *. destruct found as [j|]; simpl; [|exact Hhp].
      apply rescan_found in Hf as [? _]. lia.
  - now apply wf_no_nil in Hm.
  - rewrite (Pop_empty h r Hm). eauto.
Qed.

(** Every store of positive capacity that the public API builds is
    well formed, and keeps the capacity it was made with. *)
Lemma reachable_wf d C r : 0 < C -> reachable d C r -> wf r /\ bufCap r = C.
Proof.
  intros HC. induction 1 as
    [|r p b a r' _ [IH IHC] Hw|r b a r' _ [IH IHC] Hw|h r a r' _ [IH IHC] Hp
     |r p _ [IH IHC]].
  - split; [now apply wf_New|reflexivity].
  - rewrite PWrite_Ret in Hw by lia. injection Hw as _ <-.
    split; [now apply wf_written|exact IHC].
  - unfold Write in Hw. rewrite PWrite_Ret in Hw by lia. injection Hw as _ <-.
    split; [now apply wf_written|exact IHC].
  - destruct (wf_Pop h r IH) as (a' & r'' & Hp' & Hwf' & HC').
    rewrite Hp in Hp'. injection Hp' as _ <-. split; [exact Hwf'|congruence].
  - split; [now apply wf_SetPriority|exact IHC].
Qed.

(** The ranks the loop passes over have nothing behind their designated
    element. *)
Lemma rescan_passed (m : gmap Z (option Ring)) n i found k rg :
  rescan m n i = Some found ->
  default (i - Z.of_nat n) found < k <= i ->
  m !! k = Some (Some rg) -> Value (Prev rg) = None.
Proof.
  revert i. induction n as [|n IH]; intros i; simpl.
  - intros [= <-]. simpl. lia.
  - destruct (m !! i) as [[rg'|]|] eqn:Hm; [|discriminate|].
    + destruct (Value (Prev rg')) as [b|] eqn:HV.
      * intros [= <-]. simpl. lia.
      * intros Hf Hk Hmk. destruct (decide (k = i)) as [->|Hne].
        -- congruence.
        -- apply (IH (i - 1) Hf); [|exact Hmk].
           destruct found; simpl in *; lia.
    + intros Hf Hk Hmk. destruct (decide (k = i)) as [->|Hne].
      * congruence.
      * apply (IH (i - 1) Hf); [|exact Hmk].
        destruct found; simpl in *; lia.
Qed.
End store_facts.

(** ** Scripts *)

Lemma run_reachable d C h cs r l r' :
  reachable d C r -> run h cs r = Some (l, r') -> reachable d C r'.
Proof.
  revert r l. induction cs as [|c cs IH]; intros r l Hr; simpl.
  - now intros [= _ <-].
  - destruct (do_call h c r) as [[a r1]|] eqn:Hc; simpl; [|discriminate].
    destruct (run h cs r1) as [[l1 r2]|] eqn:Hrun; simpl; [|discriminate].
    intros [= _ <-]. apply (IH r1 l1); [|exact Hrun].
    destruct c as [p b|b| | |p]; simpl in Hc.
    + destruct (PWrite r p b) as [[n e] r0|] eqn:Hw; [|discriminate].
      injection Hc as _ <-. eapply reach_PWrite; eauto.
    + destruct (Write r b) as [[n e] r0|] eqn:Hw; [|discriminate].
      injection Hc as _ <-. eapply reach_Write; eauto.
    + destruct (Pop h r) as [[s e] r0|] eqn:Hp; [|discriminate].
      injection Hc as _ <-. eapply reach_Pop; eauto.
    + injection Hc as _ <-. exact Hr.
    + injection Hc as _ <-. now apply reach_SetPriority.
Qed.

Lemma sample_heap_eq :
  of_strings [] ["a"; "b"]%string = ([sa; sb], sample_heap).
Proof. reflexivity. Qed.

Lemma drained_run :
  run sample_heap [CPWrite Major sa; CPop] (NewRingBuffer Minor 3)
  = Some ([RWrite 1 None; RPop "a" None], drained).
Proof. vm_compute. reflexivity. Qed.

Lemma drained_reachable : reachable Minor 3 drained.
Proof. eapply run_reachable; [apply reach_New|apply drained_run]. Qed.

Lemma stuck_run :
  run sample_heap [CPWrite Major sa; CPop; CWrite sb] (NewRingBuffer Minor 3)
  = Some ([RWrite 1 None; RPop "a" None; RWrite 1 None], stuck).
Proof. vm_compute. reflexivity. Qed.

(** ** The two errors of [Pop] *)

Lemma Prev_neq rg : ring_wf rg -> (1 < Len rg)%nat -> Prev rg <> rg.
Proof.
  destruct rg as [l c]. unfold ring_wf, Prev, Len; simpl. intros Hc Hl [= Heq].
  destruct c as [|c].
  - rewrite Nat.add_0_l, Nat.mod_small in Heq by lia. lia.
  - replace (S c + length l - 1)%nat with (c + 1 * length l)%nat in Heq by lia.
    rewrite Nat.Div0.mod_add, Nat.mod_small in Heq by lia. lia.
Qed.

Lemma Prev_one rg : ring_wf rg -> Len rg = 1%nat -> Prev rg = rg.
Proof.
  destruct rg as [l c]. unfold ring_wf, Prev, Len; simpl. intros Hc Hl.
  rewrite Hl in *. f_equal. rewrite Nat.mod_1_r. lia.
Qed.

(** C10, as stated, fails: a failed type assertion need not change the
    store.  With a capacity of 1, after [Write("a")] and one [Pop], the
    ring of rank [Minor] has a single element, which is its own [Prev()]:
    the next [Pop] returns the type-assertion error and leaves the store
    exactly as it was. *)
Lemma type_assertion_failure_leaves_store :
  run sample_heap [CWrite sa; CPop] (NewRingBuffer Minor 1)
  = Some ([RWrite 1 None; RPop "a" None], drained_one) /\
  Pop sample_heap drained_one
  = Ret (""%string, Some ErrTypeAssertion) drained_one.
Proof. split; vm_compute; reflexivity. Qed.

(** C10 (amended). The two failures of [Pop] differ in what they leave
    behind.  When [Pop] returns the empty-buffer error, no ring exists at
    rank [highP] and the store is unchanged.  When it returns the
    type-assertion error, the ring of rank [highP] exists and the store is
    the initial one with that ring's pointer stepped to [Prev()]: the step
    has been written back before the error is returned.  The store then
    differs from the initial one exactly when the ring has more than one
    element, that is, on a store the public API has built from a positive
    capacity, exactly when the capacity is greater than 1. *)
Theorem Pop_error_atomicity h r s e r' :
  Pop h r = Ret (s, Some e) r' ->
  match e with
  | ErrBufferEmpty => buf r !! highP r = None /\ r' = r
  | ErrTypeAssertion =>
      exists rg, buf r !! highP r = Some (Some rg) /\
        r' = set_buf r (<[highP r := Some (Prev rg)]> (buf r)) /\
        (ring_wf rg -> (r' <> r <-> (1 < Len rg)%nat)) /\
        (forall d C, 0 < C -> reachable d C r -> (r' <> r <-> 1 < C))
  end.
Proof.
  destruct (buf r !! highP r) as [[rg|]|] eqn:Hm.
  - destruct (Value (Prev rg)) as [b|] eqn:HV.
    + rewrite (Pop_ok h r rg b Hm HV).
      destruct (rescan _ _ _); discriminate.
    + rewrite (Pop_fail h r rg Hm HV). intros [= <- <- <-].
      exists rg. split; [reflexivity|]. split; [reflexivity|].
      assert (Hiff : ring_wf rg ->
                set_buf r (<[highP r := Some (Prev rg)]> (buf r)) <> r
                <-> (1 < Len rg)%nat).
      { intros Hwf. split.
        - intros Hne. destruct (decide (1 < Len rg)%nat) as [|Hle]; [assumption|].
          exfalso. apply Hne. unfold ring_wf in Hwf.
          rewrite Prev_one by (unfold ring_wf; lia).
          rewrite insert_id by exact Hm. now destruct r.
        - intros Hlen Heq. apply (f_equal buf) in Heq. simpl in Heq.
          apply (f_equal (fun m => m !! highP r)) in Heq.
          rewrite lookup_insert_eq, Hm in Heq. injection Heq as Heq.
          now apply Prev_neq in Heq. }
      split; [exact Hiff|].
      intros d C HC Hr. apply (reachable_wf d C r HC) in Hr as [Hwf HCr].
      destruct (wf_holds r (highP r) rg Hwf Hm) as [es Hes].
      rewrite HCr in Hes. pose proof (holds_Len _ _ _ Hes) as HLen.
      rewrite (Hiff (proj1 Hes)), HLen. lia.
  - now rewrite (Pop_nil_ring h r Hm).
  - rewrite (Pop_empty h r Hm). intros [= <- <- <-]. auto.
Qed.

Lemma Pop_error_atomicity_witness :
  Pop sample_heap drained = Ret (""%string, Some ErrTypeAssertion) drained_stepped /\
  exists rg, buf drained !! highP drained = Some (Some rg) /\
    drained_stepped = set_buf drained (<[highP drained := Some (Prev rg)]> (buf drained)) /\
    (ring_wf rg -> (drained_stepped <> drained <-> (1 < Len rg)%nat)) /\
    (forall d C, 0 < C -> reachable d C drained -> (drained_stepped <> drained <-> 1 < C)).
Proof.
  split; [vm_compute; reflexivity|].
  apply (Pop_error_atomicity sample_heap drained ""%string ErrTypeAssertion).
  vm_compute; reflexivity.
Defined.

(** ** Empty ranks *)

Lemma holds_all_nil C rg es : holds C rg es -> all_nil rg -> es = [].
Proof.
  intros (_ & _ & Hv) Hall. apply Forall_view in Hall. rewrite Hv in Hall.
  apply Forall_app in Hall as [_ Hall].
  destruct es as [|e es]; [reflexivity|]. simpl in Hall.
  now apply Forall_cons in Hall as [[=] _].
Qed.

Lemma holds_nil_all_nil C rg : holds C rg [] -> all_nil rg.
Proof. intros H. now apply holds_nil_iff in H as (_ & _ & ?). Qed.

Lemma push_snoc C es b :
  (0 < C)%nat -> push C es b = drop (S (length es) - C) es ++ [b].
Proof.
  intros HC. unfold push. rewrite drop_app_le by lia. reflexivity.
Qed.

(** A failed [Pop] on an empty ring of rank [highP] leaves a store of the
    same kind, and touches no other rank. *)
Lemma Pop_all_nil h r rg :
  wf r -> buf r !! highP r = Some (Some rg) -> all_nil rg ->
  exists r',
    Pop h r = Ret (""%string, Some ErrTypeAssertion) r' /\
    wf r' /\ highP r' = highP r /\
    (exists rg', buf r' !! highP r' = Some (Some rg') /\ all_nil rg') /\
    forall i, i <> highP r -> buf r' !! i = buf r !! i.
Proof.
  intros Hwf Hm Hall. destruct (wf_holds r _ rg Hwf Hm) as [es Hes].
  pose proof (holds_all_nil _ _ _ Hes Hall) as ->.
  destruct (holds_pop_nil _ _ Hes) as [HV Hes'].
  eexists. split; [apply (Pop_fail h r rg Hm HV)|].
  split; [|split; [reflexivity|split]].
  - destruct r as [d C m hp]. apply (wf_insert _ _ _ _ hp Hwf Hes').
    now destruct Hwf as (_ & ? & _).
  - exists (Prev rg). simpl. rewrite lookup_insert_eq. split; [reflexivity|].
    now apply holds_nil_all_nil in Hes'.
  - intros i Hi. simpl. now rewrite lookup_insert_ne.
Qed.

(** So does any number of them. *)
Lemma Pops_all_nil h r n :
  wf r -> (exists rg, buf r !! highP r = Some (Some rg) /\ all_nil rg) ->
  exists rn,
    Pops n h r = Some (replicate n (""%string, Some ErrTypeAssertion), rn) /\
    wf rn /\ highP rn = highP r /\
    forall i, i <> highP r -> buf rn !! i = buf r !! i.
Proof.
  revert r. induction n as [|n IH]; intros r Hwf (rg & Hm & Hall); simpl; [eauto|].
  destruct (Pop_all_nil h r rg Hwf Hm Hall) as (r' & -> & Hwf' & Hhp' & Hex' & Hoth').
  destruct (IH r' Hwf' Hex') as (rn & -> & Hwfn & Hhpn & Hothn). simpl.
  exists rn. split; [reflexivity|]. split; [exact Hwfn|].
  split; [now rewrite Hhpn|].
  intros i Hi. rewrite Hothn by now rewrite Hhp'. now apply Hoth'.
Qed.

(** The entry written last at a rank not below [highP] is the one the next
    [Pop] returns, read from the heap as it is then. *)
Lemma Pop_written h r p b :
  wf r -> highP r <= p ->
  exists r2, Pop h (written r p b) = Ret (to_string h b, None) r2.
Proof.
  intros Hwf Hp.
  pose proof (wf_written r p b Hwf) as Hwf'.
  destruct (holds_ring_or_New r p Hwf) as [es Hes].
  apply (holds_write _ _ _ b) in Hes.
  assert (0 < Z.to_nat (bufCap r))%nat as HC by (destruct Hwf; lia).
  rewrite (push_snoc _ _ _ HC) in Hes. apply holds_pop in Hes as [HV _].
  assert (highP (written r p b) = p) as Hhp by (simpl; lia).
  assert (buf (written r p b) !! highP (written r p b)
          = Some (Some (Next (set_Value (ring_or_New r p) (Some b))))) as Hm.
  { rewrite Hhp. simpl. apply lookup_insert_eq. }
  rewrite (Pop_ok h _ _ b Hm HV).
  destruct (rescan_total (popped (written r p b) (Next (set_Value (ring_or_New r p) (Some b))))
              (Z.to_nat (highP (written r p b) + 1)) (highP (written r p b)))
    as [found ->]; [|eauto].
  intros j. unfold popped. rewrite lookup_insert. case_decide; [discriminate|].
  apply (wf_no_nil _ j Hwf').
Qed.

Lemma PWrite_then_Pop h r p b :
  wf r -> highP r <= p ->
  exists r1 r2,
    PWrite r p b = Ret (len b, None) r1 /\ Pop h r1 = Ret (to_string h b, None) r2.
Proof.
  intros Hwf Hp. exists (written r p b).
  destruct (Pop_written h r p b Hwf Hp) as [r2 HP].
  exists r2. split; [|exact HP]. apply PWrite_Ret. now destruct Hwf.
Qed.

Lemma drained_all_nil i rg :
  buf drained !! i = Some (Some rg) -> all_nil rg.
Proof.
  unfold drained; simpl. intros H.
  apply lookup_singleton_Some in H as [_ [= <-]].
  repeat constructor.
Qed.

(** C2, as stated, fails on a drained store: the ring of rank [highP] is
    still there, and [Pop] answers with the type-assertion error. *)
Lemma drained_not_empty_error :
  reachable Minor 3 drained /\ ~ empty_error_when_drained sample_heap drained.
Proof.
  split; [apply drained_reachable|].
  intros H. destruct H as [r' H].
  - intros i rg _. apply drained_all_nil.
  - vm_compute in H. discriminate.
Qed.

(** C2 (amended). Take a store the public API has built and whose rank
    [highP] holds no unread entry.  Then [Pop] fails, and keeps failing
    with the same error for as long as nothing is written: that error is
    the empty-buffer error when no ring exists at rank [highP], in which
    case the store does not change, and the type-assertion error when the
    ring exists and is empty.  After any number of such failures, a write
    at a priority not below [highP] makes the next [Pop] succeed and return
    the entry written. *)
Theorem Pop_without_entry d C h r :
  0 < C -> reachable d C r ->
  (forall rg, buf r !! highP r = Some (Some rg) -> all_nil rg) ->
  forall n, exists rn,
    Pops n h r
    = Some (replicate n (""%string,
                         Some (match buf r !! highP r with
                               | None => ErrBufferEmpty
                               | Some _ => ErrTypeAssertion
                               end)), rn) /\
    (buf r !! highP r = None -> rn = r) /\
    forall p b, highP r <= p ->
      exists r1 r2,
        PWrite rn p b = Ret (len b, None) r1 /\
        Pop h r1 = Ret (to_string h b, None) r2.
Proof.
  intros HC Hr Hnil n. apply (reachable_wf d C r HC) in Hr as [Hwf _].
  destruct (buf r !! highP r) as [x|] eqn:Hm.
  - destruct (Pops_all_nil h r n Hwf) as (rn & Hn & Hwfn & Hhp & _).
    { destruct x as [rg|]; [eauto|]. now apply wf_no_nil in Hm. }
    exists rn. split; [exact Hn|]. split; [discriminate|].
    intros p b Hp. apply PWrite_then_Pop; [exact Hwfn|lia].
  - exists r. split; [|split; [reflexivity|]].
    + clear Hnil. induction n as [|n IH]; simpl; [reflexivity|].
      rewrite (Pop_empty h r Hm), IH. reflexivity.
    + intros p b Hp. now apply PWrite_then_Pop.
Qed.

Lemma Pop_without_entry_witness :
  0 < 3 /\ reachable Minor 3 drained /\
  (forall rg, buf drained !! highP drained = Some (Some rg) -> all_nil rg) /\
  forall n, exists rn,
    Pops n sample_heap drained
    = Some (replicate n (""%string, Some ErrTypeAssertion), rn) /\
    (buf drained !! highP drained = None -> rn = drained) /\
    forall p b, highP drained <= p ->
      exists r1 r2,
        PWrite rn p b = Ret (len b, None) r1 /\
        Pop sample_heap r1 = Ret (to_string sample_heap b, None) r2.
Proof.
  split; [lia|]. split; [apply drained_reachable|].
  split; [intros rg; apply drained_all_nil|].
  apply (Pop_without_entry Minor 3 sample_heap drained);
    [lia|apply drained_reachable|intros rg; apply drained_all_nil].
Defined.

(** ** The type-assertion error *)

(** C4, as stated, fails: with a capacity of 3, one write and two pops,
    the second [Pop] returns the type-assertion error. *)
Lemma type_assertion_error_reached :
  run sample_heap [CWrite sa; CPop; CPop] (NewRingBuffer Minor 3)
  = Some ([RWrite 1 None; RPop "a" None; RPop "" (Some ErrTypeAssertion)],
          RingBuffer.mk Minor 3 {[ Minor := Some (mkRing [None; None; None] 2) ]} Minor).
Proof. vm_compute. reflexivity. Qed.

(** C4 (amended). On every store the public API builds from a positive
    capacity, [Pop] returns the type-assertion error exactly when the ring
    of rank [highP] exists and holds no entry (all its slots are nil), as
    it does once that ring has been drained; the error is thus reachable,
    and it never comes from a slot of another shape than nil or bytes. *)
Theorem type_assertion_error_iff d C h r :
  0 < C -> reachable d C r ->
  (exists s r', Pop h r = Ret (s, Some ErrTypeAssertion) r') <->
  (exists rg, buf r !! highP r = Some (Some rg) /\ all_nil rg).
Proof.
  intros HC Hr. apply (reachable_wf d C r HC) in Hr as [Hwf _]. split.
  - intros (s & r' & HP). destruct (buf r !! highP r) as [[rg|]|] eqn:Hm.
    + exists rg. split; [reflexivity|].
      destruct (wf_holds r _ rg Hwf Hm) as [es Hes].
      destruct (Value (Prev rg)) as [b|] eqn:HV.
      * rewrite (Pop_ok h r rg b Hm HV) in HP.
        destruct (rescan _ _ _); discriminate.
      * apply (holds_peek _ _ _ Hes) in HV as ->.
        now apply holds_nil_all_nil in Hes.
    + now rewrite (Pop_nil_ring h r Hm) in HP.
    + now rewrite (Pop_empty h r Hm) in HP.
  - intros (rg & Hm & Hall).
    destruct (Pop_all_nil h r rg Hwf Hm Hall) as (r' & HP & _). eauto.
Qed.

Lemma type_assertion_error_iff_witness :
  0 < 3 /\ reachable Minor 3 drained /\
  ((exists s r', Pop sample_heap drained = Ret (s, Some ErrTypeAssertion) r') <->
   (exists rg, buf drained !! highP drained = Some (Some rg) /\ all_nil rg)).
Proof.
  split; [lia|]. split; [apply drained_reachable|].
  apply (type_assertion_error_iff Minor 3 sample_heap drained);
    [lia|apply drained_reachable].
Defined.

(** ** Capacity *)

(** C9, as stated, fails: [NewRingBuffer] hands out a store of capacity 0
    when asked to, and the first [PWrite] on it panics. *)
Lemma zero_capacity_accepted :
  bufCap (NewRingBuffer Minor 0) = 0 /\
  PWrite (NewRingBuffer Minor 0) Minor sa = Panic.
Proof. split; reflexivity. Qed.

(** C9 (amended). [NewRingBuffer] rejects nothing: the store it returns has
    the capacity it was given, whatever its sign.  When that capacity is
    positive, no [PWrite] on a store built from it through the public API
    panics, at a new priority or at one already written: it returns
    [len(b)] and no error. *)
Theorem NewRingBuffer_capacity d size :
  bufCap (NewRingBuffer d size) = size /\
  (0 < size ->
   forall r, reachable d size r ->
   forall p b, exists r', PWrite r p b = Ret (len b, None) r').
Proof.
  split; [reflexivity|]. intros Hsize r Hr p b.
  apply (reachable_wf d size r Hsize) in Hr as [Hwf _].
  exists (written r p b). apply PWrite_Ret. now destruct Hwf.
Qed.

Lemma NewRingBuffer_capacity_witness :
  bufCap (NewRingBuffer Minor 3) = 3 /\
  exists r', PWrite drained Critical sb = Ret (len sb, None) r'.
Proof.
  destruct (NewRingBuffer_capacity Minor 3) as [Hcap Hw].
  split; [exact Hcap|].
  apply (Hw ltac:(lia) drained drained_reachable Critical sb).
Defined.

(** ** Overflow at one priority *)

Section overflow.
Variables (h : heap) (C : Z) (p : LogPriority).
Hypothesis HC : 0 < C.
Hypothesis Hp : 0 <= p.

Lemma lone_wf es r : lone C p es r -> wf r.
Proof.
  intros (HCr & Hhp & rg & Hm & Hes). split; [lia|]. split; [lia|].
  intros i x. rewrite Hm. intros [_ <-]%lookup_singleton_Some.
  rewrite HCr. eauto.
Qed.

Lemma lone_first_write d b :
  lone C p (push (Z.to_nat C) [] b) (written (NewRingBuffer d C) p b).
Proof.
  split; [reflexivity|]. split; [simpl; lia|].
  eexists. split; [unfold written; simpl; apply insert_empty|].
  apply holds_write. apply holds_New. unfold New.
  simpl. now rewrite decide_False by lia.
Qed.

Lemma lone_write es r b :
  lone C p es r -> lone C p (push (Z.to_nat C) es b) (written r p b).
Proof.
  intros (HCr & Hhp & rg & Hm & Hes).
  split; [exact HCr|]. split; [simpl; lia|].
  assert (ring_or_New r p = rg) as Hrg.
  { unfold ring_or_New, ring_at. now rewrite Hm, lookup_singleton_eq. }
  eexists. split.
  - unfold written; simpl. rewrite Hm, Hrg. apply insert_singleton_eq.
  - now apply holds_write.
Qed.


Lemma fold_push (n : nat) bs es :
  (length es <= n)%nat ->
  fold_left (push n) bs es = drop (length es + length bs - n) (es ++ bs).
Proof.
  revert es. induction bs as [|b bs IH]; intros es Hle; simpl.
  - replace (length es + 0 - n)%nat with 0%nat by lia.
    now rewrite drop_0, app_nil_r.
  - rewrite IH by (unfold push; rewrite length_drop, length_app; simpl; lia).
    unfold push. rewrite length_drop, length_app. simpl.
    rewrite <- (drop_app_le (es ++ [b]) bs) by (rewrite length_app; simpl; lia).
    rewrite drop_drop, <- app_assoc. simpl. f_equal. lia.
Qed.

Lemma Pop_lone es b r :
  lone C p (es ++ [b]) r ->
  exists r', Pop h r = Ret (popped_entry h b) r' /\ lone C p es r'.
Proof.
  intros (HCr & Hhp & rg & Hm & Hes).
  destruct (holds_pop _ _ _ _ Hes) as [HV Hes'].
  assert (buf r !! highP r = Some (Some rg)) as Hat.
  { now rewrite Hm, Hhp, lookup_singleton_eq. }
  rewrite (Pop_ok h r rg b Hat HV).
  assert (popped r rg = {[ p := Some (set_Value (Prev rg) None) ]}) as Hpop.
  { unfold popped. rewrite Hm, Hhp. apply insert_singleton_eq. }
  destruct (rescan_total (popped r rg) (Z.to_nat (highP r + 1)) (highP r))
    as [found Hf].
  { intros j. rewrite Hpop. intros [_ [=]]%lookup_singleton_Some. }
  rewrite Hf. eexists. split; [reflexivity|].
  split; [exact HCr|]. split.
  - simpl. destruct found as [j|]; simpl; [|exact Hhp].
    apply rescan_found in Hf as (_ & rg' & b' & Hj & _).
    rewrite Hpop in Hj. now apply lookup_singleton_Some in Hj as [-> _].
  - simpl. eauto.
Qed.

Lemma Pops_lone es r :
  lone C p es r ->
  exists r', Pops (length es) h r = Some (popped_entry h <$> reverse es, r') /\
    lone C p [] r'.
Proof.
  revert r. induction es as [|b es IH] using rev_ind; intros r Hr.
  - simpl. eauto.
  - rewrite length_app, Nat.add_1_r, reverse_snoc. simpl.
    destruct (Pop_lone es b r Hr) as (r1 & -> & Hr1).
    destruct (IH r1 Hr1) as (r' & -> & Hr'). simpl. eauto.
Qed.

Lemma Pop_lone_nil r :
  lone C p [] r ->
  exists r', Pop h r = Ret (""%string, Some ErrTypeAssertion) r'.
Proof.
  intros (HCr & Hhp & rg & Hm & Hes).
  destruct (holds_pop_nil _ _ Hes) as [HV _].
  eexists. apply (Pop_fail h r rg); [|exact HV].
  now rewrite Hm, Hhp, lookup_singleton_eq.
Qed.
End overflow.




(** C7, as stated, fails: a store of capacity 3 keeps three entries, and
    the fourth [Pop] already fails. *)
Lemma overflow_test_capacity_3 :
  overflow_test 3
  = Some (replicate 7 (RWrite 1 None) ++
          [RPop "6" None; RPop "5" None; RPop "4" None;
           RPop "" (Some ErrTypeAssertion); RPop "" (Some ErrTypeAssertion);
           RPop "" (Some ErrTypeAssertion)]) /\
  forall e, overflow_test 3 <> Some (overflow_replies e).
Proof.
  split; [vm_compute; reflexivity|].
  intros e He. vm_compute in He. discriminate.
Qed.

(** C7 (amended). For a store of capacity 5, as in the package's own
    overflow test, after writing "0","1","2","3","4","5","6" at the same
    priority, successive Pops yield "6","5","4","3","2", and then Pop
    returns an error. *)
Theorem overflow_test_capacity_5 :
  overflow_test 5 = Some (overflow_replies ErrTypeAssertion).
Proof. vm_compute. reflexivity. Qed.

(** ** Priority and recency *)

(** C1. The code breaks the claim.  A store is drained at [Major], then
    written at [Minor]: the entry "b" is unread at rank [Minor], yet every
    later [Pop] fails with the type-assertion error, however many are
    made, and the entry stays where it is. *)
Theorem lower_write_after_drain_is_stuck :
  run sample_heap [CPWrite Major sa; CPop; CWrite sb] (NewRingBuffer Minor 3)
  = Some ([RWrite 1 None; RPop "a" None; RWrite 1 None], stuck) /\
  ranks_with_entries stuck = [Minor] /\
  forall n, exists rn,
    Pops n sample_heap stuck
    = Some (replicate n (""%string, Some ErrTypeAssertion), rn) /\
    buf rn !! Minor = Some (Some (mkRing [Some sb; None; None] 1)).
Proof.
  split; [apply stuck_run|]. split; [vm_compute; reflexivity|].
  intros n.
  assert (wf stuck) as Hwf.
  { eapply (reachable_wf Minor 3); [lia|].
    eapply run_reachable; [apply reach_New|apply stuck_run]. }
  destruct (Pops_all_nil sample_heap stuck n Hwf) as (rn & Hn & _ & _ & Hoth).
  { eexists. split; [vm_compute; reflexivity|]. repeat constructor. }
  exists rn. split; [exact Hn|].
  rewrite Hoth by (vm_compute; discriminate). vm_compute. reflexivity.
Qed.

(** C3. The code breaks the claim.  After [PWrite(Major, "a")] and [Pop]
    the rescan of [Pop] finds no rank, and [highP] is still [Major], not 0.
    After the write at [Minor] that follows, the only rank that holds an
    entry is [Minor], and [highP] is still [Major]. *)
Theorem highP_stale_after_drain :
  run sample_heap [CPWrite Major sa; CPop] (NewRingBuffer Minor 3)
  = Some ([RWrite 1 None; RPop "a" None], drained) /\
  rescan (buf drained) (Z.to_nat (highP drained + 1)) (highP drained) = Some None /\
  highP drained = Major /\
  do_call sample_heap (CWrite sb) drained = Some (RWrite 1 None, stuck) /\
  ranks_with_entries stuck = [Minor] /\
  highP stuck = Major.
Proof. repeat split; vm_compute; reflexivity. Qed.

(** What [Pop] does when rank [highP] holds an entry: it returns the
    newest entry of that rank and takes it out, leaves the other ranks as
    they are, and moves [highP] down to the highest rank that still holds
    an entry; when no rank from [highP] down to 0 does, [highP] stays. *)
Lemma Pop_newest_of_highP h r es b :
  wf r -> rank_holds r (highP r) (es ++ [b]) ->
  exists r',
    Pop h r = Ret (to_string h b, None) r' /\ wf r' /\
    rank_holds r' (highP r) es /\
    (forall i, i <> highP r -> buf r' !! i = buf r !! i) /\
    0 <= highP r' <= highP r /\
    (forall i es', highP r' < i <= highP r -> rank_holds r' i es' -> es' = []) /\
    ((exists es' e, rank_holds r' (highP r') (es' ++ [e])) \/
     (highP r' = highP r /\
      forall i es', 0 <= i <= highP r -> rank_holds r' i es' -> es' = [])).
Proof.
  intros Hwf Hes. unfold rank_holds in Hes.
  destruct (buf r !! highP r) as [[rg|]|] eqn:Hm; [|contradiction|].
  2:{ symmetry in Hes. now apply app_cons_not_nil in Hes. }
  destruct (holds_pop _ _ _ _ Hes) as [HV Hes'].
  rewrite (Pop_ok h r rg b Hm HV).
  assert (wf (RingBuffer.mk (RingBuffer.p r) (bufCap r) (popped r rg) (highP r)))
    as Hwf1.
  { eapply wf_insert; eauto. now destruct Hwf as (_ & ? & _). }
  destruct (rescan_total (popped r rg) (Z.to_nat (highP r + 1)) (highP r))
    as [found Hf].
  { intros j. apply (wf_no_nil _ j Hwf1). }
  rewrite Hf. eexists. split; [reflexivity|].
  assert (0 <= highP r) as Hhp by now destruct Hwf as (_ & ? & _).
  assert (0 <= default (highP r) found <= highP r) as Hrange.
  { destruct found as [j|]; simpl; [|lia].
    apply rescan_found in Hf as [? _]. lia. }
  assert (forall i es', rank_holds
            (RingBuffer.mk (RingBuffer.p r) (bufCap r) (popped r rg)
               (default (highP r) found)) i es' ->
          forall rg', popped r rg !! i = Some (Some rg') ->
          Value (Prev rg') = None -> es' = []) as Hnone.
  { intros i es' Hi rg' Hrg' HV'. unfold rank_holds in Hi. simpl in Hi.
    rewrite Hrg' in Hi. now apply (holds_peek _ _ _ Hi). }
  split; [|split; [|split; [|split; [exact Hrange|split]]]].
  - destruct Hwf1 as (HC & _ & Hmap). split; [exact HC|]. split; [simpl; lia|exact Hmap].
  - unfold rank_holds, popped. simpl. now rewrite lookup_insert_eq.
  - intros i Hi. unfold popped. simpl. now rewrite lookup_insert_ne.
  - simpl. intros i es' Hi Hrank.
    destruct (popped r rg !! i) as [[rg'|]|] eqn:Hrg'.
    + apply (Hnone i es' Hrank rg' Hrg').
      apply (rescan_passed _ _ _ _ i rg' Hf); [|exact Hrg'].
      destruct found; simpl in *; lia.
    + now apply (wf_no_nil _ i Hwf1) in Hrg'.
    + unfold rank_holds in Hrank. simpl in Hrank. now rewrite Hrg' in Hrank.
  - destruct found as [j|]; simpl.
    + left. pose proof Hf as Hf'.
      apply rescan_found in Hf' as (_ & rg' & b' & Hj & HVj).
      destruct (wf_holds _ j rg' Hwf1 Hj) as [es' Hes''].
      destruct es' as [|e es' _] using rev_ind.
      * apply holds_pop_nil in Hes'' as [HV' _]. congruence.
      * exists es', e. unfold rank_holds. simpl. now rewrite Hj.
    + right. split; [reflexivity|]. intros i es' Hi Hrank.
      destruct (popped r rg !! i) as [[rg'|]|] eqn:Hrg'.
      * apply (Hnone i es' Hrank rg' Hrg').
        apply (rescan_passed _ _ _ _ i rg' Hf); [|exact Hrg'].
        simpl. lia.
      * now apply (wf_no_nil _ i Hwf1) in Hrg'.
      * unfold rank_holds in Hrank. simpl in Hrank. now rewrite Hrg' in Hrank.
Qed.

(** ** Locking *)

Section locking.
Import conc.

(** The steps of [PWrite], run alone on a free mutex, are [PWrite]. *)
Lemma PWrite_steps p b r0 :
  alone (PWrite_step p b) PWrite_done 6 WLock (mkShared r0 false)
  = match PWrite r0 p b with
    | Ret (n, _) r1 => Step (WDone n) (mkShared r1 false)
    | Panic => Crash
    end.
Proof.
  unfold PWrite. simpl.
  destruct (PWrite_store p b _) as [r1|]; simpl; [|reflexivity].
  destruct (PWrite_advance p r1) as [r2|]; reflexivity.
Qed.

(** The steps of [Pop], run alone, are [Pop], whatever the mutex. *)
Lemma Pop_steps h r0 l :
  alone (Pop_step h) Pop_done 6 PCheck (mkShared r0 l)
  = match Pop h r0 with
    | Ret res r1 => Step (PDone res) (mkShared r1 l)
    | Panic => Crash
    end.
Proof.
  unfold Pop. simpl.
  destruct (buf r0 !! highP r0); simpl; [|reflexivity].
  destruct (Pop_prev r0) as [r1|]; simpl; [|reflexivity].
  destruct (ring_at r1 (highP r1) ≫= Value) as [b|]; simpl; [|reflexivity].
  destruct (Pop_clear r1) as [r2|]; simpl; [|reflexivity].
  destruct (Pop_update r2) as [r3|]; reflexivity.
Qed.

(** No statement of [Pop] waits for the mutex or changes it. *)
Lemma Pop_step_ignores_lock h pc r0 l :
  Pop_step h pc (mkShared r0 l)
  = match Pop_step h pc (mkShared r0 false) with
    | Step pc' s' => Step pc' (mkShared (store s') l)
    | Blocked => Blocked
    | Crash => Crash
    end.
Proof.
  destruct pc; simpl; unfold on_store; simpl;
    repeat match goal with |- context [match ?x with _ => _ end] => destruct x end;
    reflexivity.
Qed.

Lemma Pop_step_not_blocked h pc s :
  Pop_done pc = false -> Pop_step h pc s <> Blocked.
Proof.
  destruct pc; simpl; try discriminate; intros _; unfold on_store;
    repeat match goal with |- context [match ?x with _ => _ end] => destruct x end;
    discriminate.
Qed.
End locking.

(** C8. The code breaks the claim.  [PWrite] takes the mutex and releases
    it when it returns, so a second [PWrite] waits; [Pop] has no statement
    that takes it: none of its statements waits while the mutex is held.
    With a new store of capacity 3, the schedule below runs a whole [Pop]
    inside the critical section of [PWrite(Major, "a")], between the
    allocation of the ring and the store of the entry: [Pop] sees the ring
    without its entry and returns the type-assertion error, which neither
    serial order of the two calls returns. *)
Theorem Pop_runs_inside_PWrite :
  (forall p b r0, conc.PWrite_step p b conc.WLock (conc.mkShared r0 true) = conc.Blocked) /\
  (forall h pc s, conc.Pop_done pc = false -> conc.Pop_step h pc s <> conc.Blocked) /\
  conc.exec sample_heap Major sa
    [conc.Writer; conc.Writer; conc.Writer;
     conc.Reader; conc.Reader; conc.Reader;
     conc.Writer; conc.Writer; conc.Writer]
    (conc.start (NewRingBuffer Minor 3))
  = Some (conc.mkConfig (conc.WDone 1)
            (conc.PDone (""%string, Some ErrTypeAssertion))
            (conc.mkShared
               (RingBuffer.mk Minor 3
                  {[ Major := Some (mkRing [None; None; Some sa] 0) ]} Major)
               false)) /\
  Pop sample_heap (NewRingBuffer Minor 3)
  = Ret (""%string, Some ErrBufferEmpty) (NewRingBuffer Minor 3) /\
  exists r1 r2,
    PWrite (NewRingBuffer Minor 3) Major sa = Ret (1%nat, None) r1 /\
    Pop sample_heap r1 = Ret ("a"%string, None) r2.
Proof.
  split; [reflexivity|]. split; [apply Pop_step_not_blocked|].
  split; [vm_compute; reflexivity|]. split; [reflexivity|].
  do 2 eexists. split; vm_compute; reflexivity.
Qed.

(** ** The append buffer *)

Section buffer_facts.
Variable roundupsize : nat -> nat.
Hypothesis roundupsize_le : forall n, (n <= roundupsize n)%nat.

Lemma blit_length (l : list byte) i src :
  (i + length src <= length l)%nat -> length (blit l i src) = length l.
Proof.
  intros H. unfold blit. rewrite !length_app, !length_take, length_drop. lia.
Qed.

Lemma take_blit (l : list byte) i src :
  (i + length src <= length l)%nat ->
  take (i + length src) (blit l i src) = take i l ++ src.
Proof.
  intros H. unfold blit.
  rewrite (take_ge src) by lia.
  rewrite app_assoc, take_app_length'; [reflexivity|].
  rewrite length_app, length_take. lia.
Qed.

Lemma alter_lookup (f : list byte -> list byte) (h : heap) a l :
  h !! a = Some l -> alter f a h = <[a := f l]> h.
Proof.
  intros Hl. apply list_eq. intros i.
  rewrite list_lookup_alter, list_lookup_insert.
  pose proof (lookup_lt_Some _ _ _ Hl).
  repeat case_decide; subst; try lia; try reflexivity.
  now rewrite Hl.
Qed.

(** Writing in place: the capacity is enough. *)
Lemma WriteString_in_place h b s a l :
  buffer_ok h b -> arr (bytes.buf b) = Some a -> h !! a = Some l ->
  (length (list_byte_of_string s) <= cap (bytes.buf b) - len (bytes.buf b))%nat ->
  bytes.WriteString roundupsize h b s
  = (bytes.mkBuffer
       (Slice (Some a) 0 (len (bytes.buf b) + length (list_byte_of_string s))
          (cap (bytes.buf b))) 0,
     <[a := blit l (len (bytes.buf b)) (list_byte_of_string s)]> h).
Proof.
  intros (Hoff & Hsoff & Hle & a' & l' & Ha & Hl & Hlen) Ha' Hl' Hfit.
  destruct b as [[o so n c] bo]. simpl in *. subst.
  injection Ha' as ->. rewrite Hl in Hl'. injection Hl' as ->.
  unfold bytes.WriteString, bytes.tryGrowByReslice. simpl.
  rewrite decide_True by lia. simpl.
  unfold copy, reslice_from, reslice. simpl.
  rewrite !Nat.sub_0_r, (alter_lookup _ _ _ _ Hl).
  rewrite take_ge by lia. reflexivity.
Qed.

(** [growSlice] copies the slice to the start of a new array. *)
Lemma growSlice_eq h a n c k l :
  h !! a = Some l -> (n <= length l)%nat ->
  exists F,
    (n + k <= F)%nat /\
    bytes.growSlice roundupsize h (Slice (Some a) 0 n c) k
    = (Slice (Some (length h)) 0 n F,
       h ++ [take n l ++ replicate (F - n) x00]).
Proof.
  intros Hl Hn. unfold bytes.growSlice.
  set (c' := if decide (_ < _)%nat then _ else _).
  assert (n + k <= c')%nat as Hc'.
  { subst c'. cbn [len cap]. case_decide; lia. }
  clearbody c'. pose proof (roundupsize_le c') as HF.
  exists (roundupsize c'). split; [lia|].
  unfold make, copy, load, array_of, reslice. cbn [arr off len cap fst snd].
  rewrite lookup_app_l by (eapply lookup_lt_Some; eauto).
  rewrite Hl. cbn [default from_option id]. rewrite drop_0.
  rewrite (take_ge (take n l)) by (rewrite length_take; lia).
  rewrite length_take, Nat.min_l by lia.
  rewrite !Nat.sub_0_r, Nat.add_0_r.
  f_equal.
  replace (length h) with (length h + 0)%nat at 1 by lia.
  rewrite alter_app_r. f_equal. cbn [alter list_alter]. f_equal.
  unfold blit. rewrite take_0, app_nil_l, length_replicate, Nat.sub_0_r.
  rewrite (take_ge (take n l)) by (rewrite length_take; lia).
  rewrite length_take, Nat.min_l by lia.
  rewrite drop_replicate. reflexivity.
Qed.

(** Writing past the capacity: the buffer moves to a new array. *)
Lemma WriteString_grow h b s a l :
  buffer_ok h b -> arr (bytes.buf b) = Some a -> h !! a = Some l ->
  (cap (bytes.buf b) - len (bytes.buf b) < length (list_byte_of_string s))%nat ->
  exists c,
    (len (bytes.buf b) + length (list_byte_of_string s) <= c)%nat /\
    bytes.WriteString roundupsize h b s
    = (bytes.mkBuffer
         (Slice (Some (length h)) 0
            (len (bytes.buf b) + length (list_byte_of_string s)) c) 0,
       h ++ [take (len (bytes.buf b)) l ++ list_byte_of_string s ++
             replicate (c - (len (bytes.buf b) + length (list_byte_of_string s))) x00]).
Proof.
  intros (Hoff & Hsoff & Hle & a' & l' & Ha & Hl & Hlen) Ha' Hl' Hfit.
  destruct b as [[o so n c] bo]. cbn [bytes.buf bytes.off arr off len cap] in *. subst.
  injection Ha' as ->. rewrite Hl in Hl'. injection Hl' as ->.
  unfold bytes.WriteString.
  remember (length (list_byte_of_string s)) as k eqn:Hk.
  unfold bytes.tryGrowByReslice at 1. cbn [bytes.buf bytes.off arr off len cap].
  rewrite decide_False by lia.
  unfold bytes.grow, bytes.Len. cbn [bytes.buf bytes.off arr off len cap].
  rewrite (decide_False (P := (n - 0 = 0 /\ 0 <> 0)%nat)) by lia.
  unfold bytes.tryGrowByReslice. cbn [bytes.buf bytes.off arr off len cap].
  rewrite decide_False by lia.
  rewrite decide_False by (cbn; intros [[=] _]).
  assert (length l / 2 <= length l)%nat by (apply Nat.Div0.div_le_upper_bound; lia).
  rewrite decide_False by lia.
  unfold reslice_from at 1. unfold reslice at 1.
  cbn [bytes.buf bytes.off arr off len cap].
  rewrite !Nat.add_0_l, !Nat.sub_0_r.
  destruct (growSlice_eq h a n (length l) k l Hl Hle) as (F & HF & ->).
  exists F. split; [exact HF|].
  unfold reslice_from, reslice, copy. cbn [bytes.buf bytes.off arr off len cap snd].
  rewrite !Nat.add_0_l, !Nat.sub_0_r. f_equal.
  replace (n + k - n)%nat with k by lia.
  rewrite (take_ge (list_byte_of_string s)) by lia.
  replace (length h) with (length h + 0)%nat at 1 by lia.
  rewrite alter_app_r. f_equal. cbn [alter list_alter]. f_equal.
  unfold blit. rewrite length_app, length_take, length_replicate.
  rewrite take_app_length' by (rewrite length_take; lia).
  rewrite (take_ge (list_byte_of_string s)) by lia. rewrite <- Hk.
  rewrite drop_app_ge by (rewrite length_take; lia).
  rewrite length_take, drop_replicate. do 3 f_equal. lia.
Qed.

(** [WriteString] appends to the contents, in place or not. *)
Lemma WriteString_ok h b s :
  buffer_ok h b ->
  buffer_ok (bytes.WriteString roundupsize h b s).2
            (bytes.WriteString roundupsize h b s).1 /\
  contents (bytes.WriteString roundupsize h b s).2
           (bytes.WriteString roundupsize h b s).1
  = contents h b ++ list_byte_of_string s.
Proof.
  intros Hok. pose proof Hok as (Hoff & Hsoff & Hle & a & l & Ha & Hl & Hlen).
  assert (contents h b = take (len (bytes.buf b)) l) as Hc.
  { unfold contents, bytes.Bytes, load, array_of, reslice_from, reslice.
    cbn [arr off len cap]. rewrite Hoff, Hsoff, Ha, Hl. cbn.
    now rewrite Nat.sub_0_r. }
  rewrite Hc.
  destruct (decide (length (list_byte_of_string s)
                    <= cap (bytes.buf b) - len (bytes.buf b))%nat) as [Hfit|Hfit].
  - rewrite (WriteString_in_place h b s a l Hok Ha Hl Hfit).
    cbn [fst snd]. pose proof (lookup_lt_Some _ _ _ Hl) as Hlt.
    assert (length (blit l (len (bytes.buf b)) (list_byte_of_string s)) = length l)
      as Hbl by (apply blit_length; lia).
    split.
    + repeat split; cbn [bytes.buf bytes.off arr off len cap]; [lia|].
      exists a, (blit l (len (bytes.buf b)) (list_byte_of_string s)).
      split; [reflexivity|]. split; [now apply list_lookup_insert_eq|]. lia.
    + unfold contents, bytes.Bytes, load, array_of, reslice_from, reslice.
      cbn [bytes.buf bytes.off arr off len cap].
      rewrite list_lookup_insert_eq by exact Hlt. cbn.
      rewrite Nat.sub_0_r. apply take_blit. lia.
  - destruct (WriteString_grow h b s a l Hok Ha Hl ltac:(lia)) as (c & Hc' & ->).
    cbn [fst snd]. split.
    + repeat split; cbn [bytes.buf bytes.off arr off len cap]; [lia|].
      eexists _, _. split; [reflexivity|].
      split; [apply list_lookup_middle; reflexivity|].
      rewrite !length_app, length_take, length_replicate. lia.
    + unfold contents, bytes.Bytes, load, array_of, reslice_from, reslice.
      cbn [bytes.buf bytes.off arr off len cap].
      rewrite list_lookup_middle by reflexivity. cbn.
      rewrite Nat.sub_0_r, app_assoc. apply take_app_length'.
      rewrite length_app, length_take. lia.
Qed.

Lemma Appends_ok h l frs :
  buffer_ok h (Logger.aBuf l) ->
  buffer_ok (Appends roundupsize h l frs).2
            (Logger.aBuf (Appends roundupsize h l frs).1) /\
  contents (Appends roundupsize h l frs).2
           (Logger.aBuf (Appends roundupsize h l frs).1)
  = contents h (Logger.aBuf l) ++ bytes_of frs /\
  Logger.buf (Appends roundupsize h l frs).1 = Logger.buf l.
Proof.
  revert h l. induction frs as [|s frs IH]; intros h l Hok; simpl.
  - unfold bytes_of. simpl. now rewrite app_nil_r.
  - unfold Append.
    destruct (WriteString_ok h (Logger.aBuf l) s Hok) as [Hok' Hc].
    destruct (bytes.WriteString roundupsize h (Logger.aBuf l) s) as [a' h'].
    cbn [fst snd] in *.
    destruct (IH h' (Logger.mk (Logger.buf l) a') Hok') as (Hok'' & Hc' & Hb).
    split; [exact Hok''|]. split; [|exact Hb].
    rewrite Hc'. cbn [Logger.aBuf]. rewrite Hc. unfold bytes_of. simpl.
    now rewrite app_assoc.
Qed.

Lemma Reset_ok h b : buffer_ok h b -> buffer_ok h (bytes.Reset b).
Proof.
  intros (Hoff & Hsoff & Hle & a & l & Ha & Hl & Hlen).
  unfold bytes.Reset, reslice. repeat split; cbn; [lia|lia|].
  exists a, l. rewrite Nat.sub_0_r. auto.
Qed.
End buffer_facts.

(** C5. The code breaks the claim.  [AppendDone] hands [PWrite] the slice
    [aBuf.Bytes()], which shares its backing array with the accumulator,
    and [Reset] keeps that array.  Whatever capacities the allocator
    returns: after the first commit session of a new logger the committed
    entry reads as the concatenation of the session's fragments and the
    accumulator is empty, but the first [Append] of the next session, of a
    fragment [s] no longer than that entry, writes over the entry, which
    then reads as [s] followed by what is left of its old content. *)
Theorem committed_entry_overwritten roundupsize d C p frs s :
  (forall n, (n <= roundupsize n)%nat) -> 0 < C -> 0 <= p ->
  (length (list_byte_of_string s) <= length (bytes_of frs))%nat ->
  exists l1 h1 l2 h2 r1 r2,
    session roundupsize (NewLogger [] (NewRingBuffer d C)).2
      (NewLogger [] (NewRingBuffer d C)).1 frs p = Some (l1, h1) /\
    Pop h1 (GetBuffer l1) = Ret (string_of_list_byte (bytes_of frs), None) r1 /\
    bytes.Len (Logger.aBuf l1) = 0%nat /\
    Append roundupsize h1 l1 s = (l2, h2) /\
    GetBuffer l2 = GetBuffer l1 /\
    Pop h2 (GetBuffer l2)
    = Ret (string_of_list_byte
             (list_byte_of_string s ++
              drop (length (list_byte_of_string s)) (bytes_of frs)), None) r2.
Proof.
intros Hle HC Hp Hlen. unfold session.
  set (l0 := (NewLogger [] (NewRingBuffer d C)).1).
  set (h0 := (NewLogger [] (NewRingBuffer d C)).2).
  assert (buffer_ok h0 (Logger.aBuf l0)) as Hok0.
  { repeat split; cbn; [lia|]. exists 0%nat, []. auto. }
  destruct (Appends_ok roundupsize Hle h0 l0 frs Hok0) as (Hok & Hc & Hb).
  destruct (Appends roundupsize h0 l0 frs) as [la ha]. cbn [fst snd] in *.
  change (contents h0 (Logger.aBuf l0)) with (@nil byte) in Hc.
  rewrite app_nil_l in Hc.
  unfold AppendDone. rewrite Hb. change (Logger.buf l0) with (NewRingBuffer d C).
  rewrite PWrite_Ret by (simpl; lia). cbn [fmap option_fmap option_map].
  set (e := bytes.Bytes (Logger.aBuf la)).
  set (rb := written (NewRingBuffer d C) p e).
  pose proof (wf_New d C HC) as Hwf.
  assert (highP (NewRingBuffer d C) <= p) as Hhp by (simpl; lia).
  destruct (Pop_written ha _ p e Hwf Hhp) as [r1 HP1].
  pose proof (Reset_ok ha _ Hok) as HokR.
  pose proof Hok as (Hoff & Hsoff & Hlc & a & l & Ha & Hl & Hcap).
  assert (take (len (bytes.buf (Logger.aBuf la))) l = bytes_of frs) as Htake.
  { rewrite <- Hc. unfold contents, bytes.Bytes, load, array_of, reslice_from, reslice.
    cbn [arr off len cap]. rewrite Hoff, Hsoff, Ha, Hl. cbn.
    now rewrite Nat.sub_0_r. }
  assert (len (bytes.buf (Logger.aBuf la)) = length (bytes_of frs)) as Hn.
  { rewrite <- Htake, length_take. lia. }
  assert (bytes.WriteString roundupsize ha (bytes.Reset (Logger.aBuf la)) s
          = (bytes.mkBuffer (Slice (Some a) 0 (length (list_byte_of_string s))
                               (cap (bytes.buf (Logger.aBuf la)))) 0,
             <[a := blit l 0 (list_byte_of_string s)]> ha)) as HW.
  { rewrite (WriteString_in_place roundupsize ha _ s a l HokR); cbn; auto.
    - now rewrite Nat.sub_0_r.
    - lia. }
  destruct (Pop_written (<[a := blit l 0 (list_byte_of_string s)]> ha) _ p e Hwf Hhp)
    as [r2 HP2].
  exists (Logger.mk rb (bytes.Reset (Logger.aBuf la))), ha.
  unfold Append. cbn [Logger.aBuf Logger.buf]. rewrite HW.
  do 2 eexists. exists r1, r2.
  split; [reflexivity|]. unfold GetBuffer. cbn [Logger.buf Logger.aBuf].
  split; [|split; [cbn; lia|split; [reflexivity|split; [reflexivity|]]]].
  - unfold rb. rewrite HP1. unfold to_string, e. fold (contents ha (Logger.aBuf la)).
    now rewrite Hc.
  - cbn [Logger.buf]. unfold rb. rewrite HP2. unfold to_string. do 3 f_equal.
    unfold e, bytes.Bytes, load, array_of, reslice_from, reslice.
    cbn [arr off len cap]. rewrite Hoff, Hsoff, Ha. cbn [default from_option id].
    rewrite list_lookup_insert_eq by (eapply lookup_lt_Some; eauto). cbn.
    rewrite Nat.sub_0_r. unfold blit. rewrite take_0, app_nil_l, Nat.sub_0_r.
    rewrite (take_ge (list_byte_of_string s)) by lia. cbn [Nat.add].
    rewrite drop_0, take_app_ge by lia.
    rewrite take_drop_commute. do 2 f_equal.
    rewrite <- Htake. f_equal. lia.
Qed.

Lemma committed_entry_overwritten_witness :
  (forall n, (n <= id n)%nat) /\ 0 < 3 /\ 0 <= Major /\
  (length (list_byte_of_string "abcd")
   <= length (bytes_of ["n"; "e"; "m"; "o"]%string))%nat /\
  exists l1 h1 l2 h2 r1 r2,
    session id (NewLogger [] (NewRingBuffer Minor 3)).2
      (NewLogger [] (NewRingBuffer Minor 3)).1 ["n"; "e"; "m"; "o"]%string Major
    = Some (l1, h1) /\
    Pop h1 (GetBuffer l1) = Ret ("nemo"%string, None) r1 /\
    bytes.Len (Logger.aBuf l1) = 0%nat /\
    Append id h1 l1 "abcd" = (l2, h2) /\
    GetBuffer l2 = GetBuffer l1 /\
    Pop h2 (GetBuffer l2) = Ret ("abcd"%string, None) r2.
Proof.
  split; [intros n; unfold id; lia|]. split; [lia|].
  split; [unfold Major; lia|]. split; [simpl; lia|].
  apply (committed_entry_overwritten id Minor 3 Major ["n"; "e"; "m"; "o"]%string "abcd");
    [intros n; unfold id; lia|lia|unfold Major; lia|simpl; lia].
Defined.

(** The same with two whole sessions, as in the package's test but with
    two different entries, on an allocator that rounds nothing up: both
    pops return the second entry. *)
Example two_sessions_one_entry :
  (session id (NewLogger [] (NewRingBuffer Minor 3)).2
     (NewLogger [] (NewRingBuffer Minor 3)).1 ["n"; "e"; "m"; "o"]%string Major
   ≫= fun '(l, h) => session id h l ["a"; "b"; "c"; "d"]%string Major
   ≫= fun '(l, h) => fst <$> Pops 2 h (GetBuffer l))
  = Some [("abcd"%string, None); ("abcd"%string, None)].
Proof. vm_compute. reflexivity. Qed.

(** ** The tests of the package *)

Example testRingBufferGetPriority :
  GetPriority (NewRingBuffer Minor 3) = Minor.
Proof. reflexivity. Qed.

Example testRingBufferSetPriority :
  GetPriority (SetPriority (NewRingBuffer Minor 3) Major) = Major.
Proof. reflexivity. Qed.

Example testRingBufferWrite :
  run sample_heap [CWrite sa; CPop] (NewRingBuffer Minor 3)
  = Some ([RWrite 1 None; RPop "a" None],
          RingBuffer.mk Minor 3 {[ Minor := Some (mkRing [None; None; None] 0) ]} Minor).
Proof. vm_compute. reflexivity. Qed.

Example testRingBufferPWrite :
  fst <$> run sample_heap [CPWrite Major sa; CPop] (NewRingBuffer Minor 3)
  = Some [RWrite 1 None; RPop "a" None].
Proof. vm_compute. reflexivity. Qed.

Example testRingBufferPop :
  pop_test
  = Some ([RWrite 6 None; RWrite 6 None; RWrite 8 None; RWrite 9 None;
           RWrite 6 None; RWrite 6 None; RWrite 9 None; RWrite 8 None] ++
          [RPop "critical1" None; RPop "critical0" None;
           RPop "major1" None; RPop "major0" None;
           RPop "minor1" None; RPop "minor0" None;
           RPop "trivial1" None; RPop "trivial0" None]).
Proof. vm_compute. reflexivity. Qed.

Example testLoggerConcurrentAppend :
  append_test id
  = Some [("nemo"%string, None); ("nemo"%string, None); ("nemo"%string, None)].
Proof. vm_compute. reflexivity. Qed.

(** * Further properties of the store *)

(** ** What a rank holds, computed *)

Lemma holds_unread C rg es : holds C rg es -> unread rg = es.
Proof.
  intros (_ & _ & Hv). unfold unread. rewrite Hv. clear Hv.
  rewrite omap_app.
  assert (omap id (replicate (C - length es) (@None slice)) = []) as ->.
  { induction (C - length es)%nat as [|n IH]; [reflexivity|exact IH]. }
  simpl. induction es as [|e es IH]; [reflexivity|]. cbn. f_equal. exact IH.
Qed.

Lemma wf_rank_holds r i : wf r -> rank_holds r i (rank r i).
Proof.
  intros Hwf. unfold rank_holds, rank.
  destruct (buf r !! i) as [[rg|]|] eqn:Hm; [|now apply wf_no_nil in Hm|reflexivity].
  destruct (wf_holds r i rg Hwf Hm) as [es Hes].
  now rewrite (holds_unread _ _ _ Hes).
Qed.

Lemma rank_holds_rank r i es : rank_holds r i es -> rank r i = es.
Proof.
  unfold rank_holds, rank.
  destruct (buf r !! i) as [[rg|]|]; [apply holds_unread|contradiction|congruence].
Qed.

Lemma rank_ext r r' i :
  buf r' !! i = buf r !! i -> rank r' i = rank r i.
Proof. unfold rank. now intros ->. Qed.

Lemma unread_ring_or_New r p : wf r -> unread (ring_or_New r p) = rank r p.
Proof.
  intros Hwf. unfold ring_or_New, ring_at, rank.
  destruct (buf r !! p) as [[rg|]|] eqn:Hm; simpl; [reflexivity| |].
  - apply (holds_unread (Z.to_nat (bufCap r))). apply holds_New. unfold New.
    destruct Hwf as (HC & _). now rewrite decide_False by lia.
  - apply (holds_unread (Z.to_nat (bufCap r))). apply holds_New. unfold New.
    destruct Hwf as (HC & _). now rewrite decide_False by lia.
Qed.

Lemma stuck_reachable : reachable Minor 3 stuck.
Proof. eapply run_reachable; [apply reach_New|apply stuck_run]. Qed.

(** ** What [PWrite] does *)

(** X2. On a store the public API has built from a positive capacity [C],
    [PWrite(p, b)] returns [len(b)] and no error.  Rank [p] then holds its
    former entries followed by [b], less the oldest ones when that makes
    more than [C]; no other rank changes; the ring of rank [p] is in the map, and no ring has left it;
    [highP] is the larger of its former value and [p]; the capacity and
    the default priority are as before. *)
Theorem PWrite_effect d C r p b :
  0 < C -> reachable d C r ->
  exists r',
    PWrite r p b = Ret (len b, None) r' /\
    rank r' p = push (Z.to_nat C) (rank r p) b /\
    (forall i, i <> p -> buf r' !! i = buf r !! i) /\
    dom (buf r') = {[ p ]} ∪ dom (buf r) /\
    highP r' = Z.max (highP r) p /\
    bufCap r' = C /\ GetPriority r' = GetPriority r.
Proof.
  intros HC Hr. apply (reachable_wf d C r HC) in Hr as [Hwf HCr].
  exists (written r p b). split; [apply PWrite_Ret; lia|].
  split; [|split; [|split; [|split; [reflexivity|split; [exact HCr|reflexivity]]]]].
  - destruct (holds_ring_or_New r p Hwf) as [es Hes].
    pose proof (holds_unread _ _ _ Hes) as Hun.
    rewrite (unread_ring_or_New r p Hwf) in Hun.
    apply (holds_write _ _ _ b) in Hes. apply holds_unread in Hes.
    rewrite Hun, <- HCr, <- Hes. unfold rank, written. simpl.
    now rewrite lookup_insert_eq.
  - intros i Hi. simpl. now rewrite lookup_insert_ne.
  - simpl. apply dom_insert_L.
Qed.

Lemma PWrite_effect_witness :
  0 < 3 /\ reachable Minor 3 stuck /\
  exists r',
    PWrite stuck Minor sa = Ret (len sa, None) r' /\
    rank r' Minor = push (Z.to_nat 3) (rank stuck Minor) sa /\
    (forall i, i <> Minor -> buf r' !! i = buf stuck !! i) /\
    dom (buf r') = {[ Minor ]} ∪ dom (buf stuck) /\
    highP r' = Z.max (highP stuck) Minor /\
    bufCap r' = 3 /\ GetPriority r' = GetPriority stuck.
Proof.
  split; [lia|]. split; [apply stuck_reachable|].
  apply (PWrite_effect Minor 3 stuck Minor sa); [lia|apply stuck_reachable].
Defined.

(** ** What [Pop] does *)

(** [Pop] keeps the ranks that have a ring. *)
Lemma Pop_frame h r a r' :
  Pop h r = Ret a r' ->
  dom (buf r') = dom (buf r) /\
  (forall i, i <> highP r -> buf r' !! i = buf r !! i) /\
  bufCap r' = bufCap r /\ GetPriority r' = GetPriority r /\
  highP r' <= highP r /\ (0 <= highP r -> 0 <= highP r').
Proof.
  assert (forall (x : option Ring), is_Some (buf r !! highP r) ->
            dom (<[highP r := x]> (buf r)) = dom (buf r)) as Hdom.
  { intros x Hs. now apply dom_insert_lookup_L. }
  destruct (buf r !! highP r) as [[rg|]|] eqn:Hm.
  - destruct (Value (Prev rg)) as [b|] eqn:HV.
    + rewrite (Pop_ok h r rg b Hm HV).
      destruct (rescan _ _ _) as [found|] eqn:Hf; [|discriminate].
      intros [= _ <-]. simpl. split; [apply Hdom; eauto|].
      split; [intros i Hi; unfold popped; now rewrite lookup_insert_ne|].
      split; [reflexivity|]. split; [reflexivity|].
      destruct found as [j|]; simpl; [|lia].
      apply rescan_found in Hf as [? _]. lia.
    + rewrite (Pop_fail h r rg Hm HV). intros [= _ <-]. simpl.
      split; [apply Hdom; eauto|].
      split; [intros i Hi; now rewrite lookup_insert_ne|].
      repeat split; lia.
  - now rewrite (Pop_nil_ring h r Hm).
  - rewrite (Pop_empty h r Hm). intros [= _ <-]. repeat split; lia.
Qed.

(** A failed [Pop] changes what no rank holds. *)
Lemma Pop_failure h r s e r' :
  wf r -> Pop h r = Ret (s, Some e) r' ->
  s = ""%string /\ rank r (highP r) = [] /\ highP r' = highP r /\
  forall i, rank r' i = rank r i.
Proof.
  intros Hwf. destruct (buf r !! highP r) as [[rg|]|] eqn:Hm.
  - destruct (Value (Prev rg)) as [b|] eqn:HV.
    + rewrite (Pop_ok h r rg b Hm HV). destruct (rescan _ _ _); discriminate.
    + rewrite (Pop_fail h r rg Hm HV). intros [= <- _ <-].
      destruct (wf_holds r _ rg Hwf Hm) as [es Hes].
      pose proof HV as Hnil. apply (holds_peek _ _ _ Hes) in Hnil. subst es.
      destruct (holds_pop_nil _ _ Hes) as [_ Hes'].
      split; [reflexivity|]. split; [|split; [reflexivity|]].
      * unfold rank. rewrite Hm. apply (holds_unread _ _ _ Hes).
      * intros i. unfold rank. simpl. rewrite lookup_insert. case_decide.
        -- subst i. rewrite Hm.
           now rewrite (holds_unread _ _ _ Hes), (holds_unread _ _ _ Hes').
        -- reflexivity.
  - now rewrite (Pop_nil_ring h r Hm).
  - rewrite (Pop_empty h r Hm). intros [= <- _ <-].
    unfold rank. rewrite Hm. auto.
Qed.

(** X3. A [Pop] that fails, with either error, returns the empty string; it
    fails only when rank [highP] holds no entry; and it loses nothing: every
    rank holds afterwards the entries it held before, and [highP] is the
    same.  A write at a priority not below [highP] makes the next [Pop]
    succeed again, with the entry written. *)
Theorem Pop_failure_loses_nothing d C h r s e r' :
  0 < C -> reachable d C r -> Pop h r = Ret (s, Some e) r' ->
  s = ""%string /\ rank r (highP r) = [] /\ highP r' = highP r /\
  (forall i, rank r' i = rank r i) /\
  forall p b, highP r <= p ->
    exists r1 r2, PWrite r' p b = Ret (len b, None) r1 /\
      Pop h r1 = Ret (to_string h b, None) r2.
Proof.
  intros HC Hr HP. pose proof (reach_Pop d C h r _ r' Hr HP) as Hr'.
  apply (reachable_wf d C r HC) in Hr as [Hwf _].
  apply (reachable_wf d C r' HC) in Hr' as [Hwf' _].
  destruct (Pop_failure h r s e r' Hwf HP) as (Hs & Hnil & Hhp & Hranks).
  repeat split; auto.
  intros p b Hp. apply PWrite_then_Pop; [exact Hwf'|lia].
Qed.

Lemma Pop_failure_loses_nothing_witness :
  0 < 3 /\ reachable Minor 3 stuck /\
  Pop sample_heap stuck
  = Ret (""%string, Some ErrTypeAssertion)
      (RingBuffer.mk Minor 3
         {[ Minor := Some (mkRing [Some sb; None; None] 1);
            Major := Some (mkRing [None; None; None] 2) ]} Major) /\
  rank stuck Minor = [sb] /\
  rank (RingBuffer.mk Minor 3
          {[ Minor := Some (mkRing [Some sb; None; None] 1);
             Major := Some (mkRing [None; None; None] 2) ]} Major) Minor = [sb].
Proof.
  split; [lia|]. split; [apply stuck_reachable|].
  assert (Pop sample_heap stuck
          = Ret (""%string, Some ErrTypeAssertion)
              (RingBuffer.mk Minor 3
                 {[ Minor := Some (mkRing [Some sb; None; None] 1);
                    Major := Some (mkRing [None; None; None] 2) ]} Major)) as HP
    by (vm_compute; reflexivity).
  split; [exact HP|]. split; [vm_compute; reflexivity|].
  destruct (Pop_failure_loses_nothing Minor 3 sample_heap stuck _ _ _
              ltac:(lia) stuck_reachable HP) as (_ & _ & _ & Hranks & _).
  rewrite Hranks. vm_compute. reflexivity.
Defined.

(** Pops keep the ranks out of their reach as they are. *)
Lemma Pops_frame_wf h n r l rn :
  wf r -> Pops n h r = Some (l, rn) ->
  wf rn /\ length l = n /\
  dom (buf rn) = dom (buf r) /\
  0 <= highP rn <= highP r /\
  (forall i, i < 0 \/ highP r < i -> buf rn !! i = buf r !! i) /\
  bufCap rn = bufCap r /\ GetPriority rn = GetPriority r.
Proof.
  revert r l. induction n as [|n IH]; intros r l Hwf; simpl.
  - intros [= <- <-]. split; [exact Hwf|].
    assert (0 <= highP r) by now destruct Hwf as (_ & ? & _).
    repeat split; auto; lia.
  - destruct (Pop h r) as [a r1|] eqn:HP; [|discriminate].
    destruct (Pops n h r1) as [[l1 r2]|] eqn:HPs; simpl; [|discriminate].
    intros [= <- <-].
    destruct (wf_Pop h r Hwf) as (a' & r1' & HP' & Hwf1 & _).
    rewrite HP in HP'. injection HP' as _ <-.
    destruct (Pop_frame h r a r1 HP) as (Hdom & Hoth & Hcap & Hprio & Hle & Hge).
    destruct (IH r1 l1 Hwf1 HPs) as (Hwf2 & Hlen & Hdom2 & Hhp2 & Hoth2 & Hcap2 & Hprio2).
    assert (0 <= highP r) by now destruct Hwf as (_ & ? & _).
    split; [exact Hwf2|]. split; [simpl; lia|]. split; [congruence|].
    split; [lia|]. split; [|split; congruence].
    intros i Hi. rewrite Hoth2 by lia. apply Hoth. lia.
Qed.

(** X4. Pops never reach a rank below 0 or above [highP]: whatever their
    number, the rings of those ranks, and so the entries written there,
    stay as they are.  Nor do pops ever add a ring to the map or take one
    away, raise [highP] or make it negative, or change the capacity or the
    default priority. *)
Theorem Pops_reach d C h n r l rn :
  0 < C -> reachable d C r -> Pops n h r = Some (l, rn) ->
  length l = n /\
  dom (buf rn) = dom (buf r) /\
  0 <= highP rn <= highP r /\
  (forall i, i < 0 \/ highP r < i -> buf rn !! i = buf r !! i) /\
  (forall i, i < 0 \/ highP r < i -> rank rn i = rank r i) /\
  bufCap rn = C /\ GetPriority rn = GetPriority r.
Proof.
  intros HC Hr HPs. apply (reachable_wf d C r HC) in Hr as [Hwf HCr].
  destruct (Pops_frame_wf h n r l rn Hwf HPs)
    as (_ & Hlen & Hdom & Hhp & Hoth & Hcap & Hprio).
  split; [exact Hlen|]. split; [exact Hdom|]. split; [exact Hhp|].
  split; [exact Hoth|]. split; [|split; congruence].
  intros i Hi. apply rank_ext, Hoth, Hi.
Qed.

Lemma Pops_reach_witness :
  0 < 3 /\ reachable Minor 3 stuck /\
  Pops 2 sample_heap stuck
  = Some (replicate 2 (""%string, Some ErrTypeAssertion),
          RingBuffer.mk Minor 3
            {[ Minor := Some (mkRing [Some sb; None; None] 1);
               Major := Some (mkRing [None; None; None] 1) ]} Major) /\
  forall i, i < 0 \/ highP stuck < i ->
    rank (RingBuffer.mk Minor 3
            {[ Minor := Some (mkRing [Some sb; None; None] 1);
               Major := Some (mkRing [None; None; None] 1) ]} Major) i
    = rank stuck i.
Proof.
  split; [lia|]. split; [apply stuck_reachable|].
  assert (Pops 2 sample_heap stuck
          = Some (replicate 2 (""%string, Some ErrTypeAssertion),
                  RingBuffer.mk Minor 3
                    {[ Minor := Some (mkRing [Some sb; None; None] 1);
                       Major := Some (mkRing [None; None; None] 1) ]} Major)) as HP
    by (vm_compute; reflexivity).
  split; [exact HP|].
  apply (Pops_reach Minor 3 sample_heap 2 stuck _ _ ltac:(lia) stuck_reachable HP).
Defined.

(** X1. When rank [highP] holds an entry, [Pop] succeeds: it returns the
    entry written last at that rank, read from the heap as it is then, and
    takes it out; every other rank keeps its entries; [highP] moves down to
    the highest rank that still holds an entry, passing only over ranks
    that hold none, and stays where it is when no rank from it down to 0
    holds one. *)
Theorem Pop_takes_newest d C h r es b :
  0 < C -> reachable d C r -> rank r (highP r) = es ++ [b] ->
  exists r',
    Pop h r = Ret (to_string h b, None) r' /\
    rank r' (highP r) = es /\
    (forall i, i <> highP r -> rank r' i = rank r i) /\
    0 <= highP r' <= highP r /\
    (forall i, highP r' < i <= highP r -> rank r' i = []) /\
    (rank r' (highP r') <> [] \/
     (highP r' = highP r /\ forall i, 0 <= i <= highP r -> rank r' i = [])).
Proof.
  intros HC Hr Hrank. apply (reachable_wf d C r HC) in Hr as [Hwf _].
  pose proof (wf_rank_holds r (highP r) Hwf) as Hh. rewrite Hrank in Hh.
  destruct (Pop_newest_of_highP h r es b Hwf Hh)
    as (r' & HP & Hwf' & Hes & Hoth & Hhp & Hpass & Hnext).
  exists r'. split; [exact HP|]. split; [now apply rank_holds_rank|].
  split; [intros i Hi; now apply rank_ext, Hoth|]. split; [exact Hhp|].
  split.
  - intros i Hi. apply (Hpass i _ Hi), wf_rank_holds, Hwf'.
  - destruct Hnext as [(es' & e & He)|[Heq Hall]].
    + left. rewrite (rank_holds_rank _ _ _ He).
      intros Hnil. symmetry in Hnil. now apply app_cons_not_nil in Hnil.
    + right. split; [exact Heq|].
      intros i Hi. apply (Hall i _ Hi), wf_rank_holds, Hwf'.
Qed.

Lemma one_entry_reachable : reachable Minor 3 one_entry.
Proof.
  apply (reach_PWrite Minor 3 (NewRingBuffer Minor 3) Major sa (1%nat, None));
    [apply reach_New|vm_compute; reflexivity].
Qed.

Lemma Pop_takes_newest_witness :
  0 < 3 /\ reachable Minor 3 one_entry /\
  rank one_entry (highP one_entry) = [] ++ [sa] /\
  exists r',
    Pop sample_heap one_entry = Ret (to_string sample_heap sa, None) r' /\
    rank r' (highP one_entry) = [].
Proof.
  split; [lia|]. split; [apply one_entry_reachable|].
  split; [vm_compute; reflexivity|].
  destruct (Pop_takes_newest Minor 3 sample_heap one_entry [] sa)
    as (r' & HP & Hes & _);
    [lia|apply one_entry_reachable|vm_compute; reflexivity|].
  exists r'. split; [exact HP|exact Hes].
Defined.

(** The rank [highP] has a ring as soon as something was written at a rank
    that is not negative. *)
Lemma reachable_highP_ring d C r :
  0 < C -> reachable d C r ->
  is_Some (buf r !! highP r) \/
  (highP r = 0 /\ forall i, 0 <= i -> buf r !! i = None).
Proof.
  intros HC. induction 1 as
    [|r p b a r' Hr IH Hw|r b a r' Hr IH Hw|h r a r' Hr IH Hp|r p Hr IH].
  - right. split; [reflexivity|]. intros i _. apply lookup_empty.
  - apply (reachable_wf d C r HC) in Hr as [Hwf HCr].
    rewrite PWrite_Ret in Hw by lia. injection Hw as _ <-. simpl.
    destruct (decide (highP r < p)) as [Hlt|Hge].
    + left. rewrite Z.max_r by lia. rewrite lookup_insert_eq. eauto.
    + rewrite Z.max_l by lia. destruct IH as [Hs|[H0 Hnone]].
      * left. rewrite lookup_insert. case_decide; eauto.
      * destruct (decide (p = 0)) as [->|Hne].
        -- left. rewrite H0, lookup_insert_eq. eauto.
        -- right. split; [exact H0|]. intros i Hi.
           rewrite lookup_insert_ne by lia. now apply Hnone.
  - apply (reachable_wf d C r HC) in Hr as [Hwf HCr].
    unfold Write in Hw. rewrite PWrite_Ret in Hw by lia. injection Hw as _ <-.
    simpl. set (p := GetPriority r).
    destruct (decide (highP r < p)) as [Hlt|Hge].
    + left. rewrite Z.max_r by lia. rewrite lookup_insert_eq. eauto.
    + rewrite Z.max_l by lia. destruct IH as [Hs|[H0 Hnone]].
      * left. rewrite lookup_insert. case_decide; eauto.
      * destruct (decide (p = 0)) as [Hp0|Hne].
        -- left. rewrite H0, Hp0, lookup_insert_eq. eauto.
        -- right. split; [exact H0|]. intros i Hi.
           rewrite lookup_insert_ne by lia. now apply Hnone.
  - destruct (buf r !! highP r) as [[rg|]|] eqn:Hm.
    + destruct (Value (Prev rg)) as [b|] eqn:HV.
      * rewrite (Pop_ok h r rg b Hm HV) in Hp.
        destruct (rescan _ _ _) as [found|] eqn:Hf; [|discriminate].
        injection Hp as _ <-. left. simpl. destruct found as [j|]; simpl.
        -- apply rescan_found in Hf as (_ & rg' & b' & Hj & _).
           rewrite Hj. eauto.
        -- unfold popped. rewrite lookup_insert_eq. eauto.
      * rewrite (Pop_fail h r rg Hm HV) in Hp. injection Hp as _ <-.
        left. simpl. rewrite lookup_insert_eq. eauto.
    + now rewrite (Pop_nil_ring h r Hm) in Hp.
    + rewrite (Pop_empty h r Hm) in Hp. injection Hp as _ <-.
      destruct IH as [Hs|IH]; [|right; exact IH].
      rewrite ?Hm in Hs. destruct Hs as [x Hx]. discriminate.
  - exact IH.
Qed.

(** X5. On a store the public API has built from a positive capacity,
    [Pop] answers with the empty-buffer error exactly as long as nothing
    has been written at any rank from 0 up: once such a write has been
    made, no later [Pop] returns that error again. *)
Theorem empty_error_iff d C h r :
  0 < C -> reachable d C r ->
  (exists s r', Pop h r = Ret (s, Some ErrBufferEmpty) r') <->
  (forall i, 0 <= i -> buf r !! i = None).
Proof.
  intros HC Hr. pose proof (reachable_highP_ring d C r HC Hr) as HJ.
  apply (reachable_wf d C r HC) in Hr as [Hwf _].
  assert (0 <= highP r) as Hhp by now destruct Hwf as (_ & ? & _).
  split.
  - intros (s & r' & HP). destruct (buf r !! highP r) as [[rg|]|] eqn:Hm.
    + destruct (Value (Prev rg)) as [b|] eqn:HV.
      * rewrite (Pop_ok h r rg b Hm HV) in HP.
        destruct (rescan _ _ _); discriminate.
      * now rewrite (Pop_fail h r rg Hm HV) in HP.
    + now rewrite (Pop_nil_ring h r Hm) in HP.
    + destruct HJ as [Hs|[_ Hnone]]; [|exact Hnone].
      rewrite ?Hm in Hs. destruct Hs as [x Hx]. discriminate.
  - intros Hnone. exists ""%string, r. apply Pop_empty. now apply Hnone.
Qed.

Lemma empty_error_iff_witness :
  0 < 3 /\ reachable Minor 3 (NewRingBuffer Minor 3) /\
  ((exists s r', Pop sample_heap (NewRingBuffer Minor 3)
                 = Ret (s, Some ErrBufferEmpty) r') <->
   (forall i, 0 <= i -> buf (NewRingBuffer Minor 3) !! i = None)).
Proof.
  split; [lia|]. split; [apply reach_New|].
  apply (empty_error_iff Minor 3 sample_heap (NewRingBuffer Minor 3));
    [lia|apply reach_New].
Defined.

(** X6. Memory is bounded: in a store the public API has built from a
    positive capacity [C], every rank in the map has a ring (never a nil
    pointer) of exactly [C] slots, whose designated element is one of
    them, and holds at most [C] unread entries. *)
Theorem rings_bounded d C r i x :
  0 < C -> reachable d C r -> buf r !! i = Some x ->
  exists rg, x = Some rg /\
    Len rg = Z.to_nat C /\ (cur rg < Len rg)%nat /\
    (length (rank r i) <= Z.to_nat C)%nat.
Proof.
  intros HC Hr Hm. apply (reachable_wf d C r HC) in Hr as [Hwf HCr].
  destruct Hwf as (_ & _ & Hmap).
  destruct (Hmap i x Hm) as (rg & es & -> & Hes).
  exists rg. split; [reflexivity|]. rewrite HCr in Hes.
  split; [apply (holds_Len _ _ _ Hes)|]. split; [apply Hes|].
  unfold rank. rewrite Hm, (holds_unread _ _ _ Hes). apply Hes.
Qed.

Lemma rings_bounded_witness :
  0 < 3 /\ reachable Minor 3 stuck /\
  buf stuck !! Minor = Some (Some (mkRing [Some sb; None; None] 1)) /\
  exists rg, Some (mkRing [Some sb; None; None] 1) = Some rg /\
    Len rg = Z.to_nat 3 /\ (cur rg < Len rg)%nat /\
    (length (rank stuck Minor) <= Z.to_nat 3)%nat.
Proof.
  split; [lia|]. split; [apply stuck_reachable|].
  split; [vm_compute; reflexivity|].
  apply (rings_bounded Minor 3 stuck Minor); [lia|apply stuck_reachable|].
  vm_compute; reflexivity.
Defined.

(** ** Draining a store *)

Lemma drain_from_ext r r' n i :
  (forall k, i - Z.of_nat n < k <= i -> rank r' k = rank r k) ->
  drain_from r' n i = drain_from r n i.
Proof.
  revert i. induction n as [|n IH]; intros i Hk; simpl; [reflexivity|].
  rewrite Hk by lia. f_equal. apply IH. intros k Hr. apply Hk. lia.
Qed.

Lemma drain_from_skip r lo hi :
  0 <= lo + 1 -> lo <= hi ->
  (forall k, lo < k <= hi -> rank r k = []) ->
  drain_from r (Z.to_nat (hi + 1)) hi = drain_from r (Z.to_nat (lo + 1)) lo.
Proof.
  intros Hlo Hle Hnil.
  remember (Z.to_nat (hi - lo)) as k eqn:Hk. revert hi Hle Hnil Hk.
  induction k as [|k IH]; intros hi Hle Hnil Hk.
  - replace hi with lo by lia. reflexivity.
  - replace (Z.to_nat (hi + 1)) with (S (Z.to_nat (hi - 1 + 1))) by lia.
    simpl. rewrite Hnil by lia. simpl.
    apply IH; [lia| |lia]. intros j Hj. apply Hnil. lia.
Qed.

Lemma drain_from_nil r n i :
  (forall k, rank r k = []) -> drain_from r n i = [].
Proof.
  intros Hnil. revert i. induction n as [|n IH]; intros i; simpl; [reflexivity|].
  now rewrite Hnil, IH.
Qed.

(** [Pop] fails when rank [highP] holds nothing. *)
Lemma Pop_fails_on_empty_rank h r :
  wf r -> rank r (highP r) = [] ->
  exists e r', Pop h r = Ret (""%string, Some e) r'.
Proof.
  intros Hwf Hnil. destruct (buf r !! highP r) as [[rg|]|] eqn:Hm.
  - destruct (wf_holds r _ rg Hwf Hm) as [es Hes].
    assert (es = []) as ->.
    { rewrite <- (holds_unread _ _ _ Hes). unfold rank in Hnil. now rewrite Hm in Hnil. }
    destruct (holds_pop_nil _ _ Hes) as [HV _].
    do 2 eexists. apply (Pop_fail h r rg Hm HV).
  - now apply wf_no_nil in Hm.
  - do 2 eexists. apply (Pop_empty h r Hm).
Qed.

(** One [Pop] on a store in order takes the head of [drain] and leaves a
    store in order. *)
Lemma Pop_in_order h r es b :
  wf r -> in_order r -> rank r (highP r) = es ++ [b] ->
  exists r', Pop h r = Ret (popped_entry h b) r' /\
    wf r' /\ in_order r' /\ drain r = b :: drain r'.
Proof.
  intros Hwf [Hin _] Hrank.
  pose proof (wf_rank_holds r (highP r) Hwf) as Hh. rewrite Hrank in Hh.
  destruct (Pop_newest_of_highP h r es b Hwf Hh)
    as (r' & HP & Hwf' & Hes & Hoth & Hhp & Hpass & Hnext).
  apply rank_holds_rank in Hes.
  assert (forall i, i <> highP r -> rank r' i = rank r i) as Hoth'
    by (intros i Hi; now apply rank_ext, Hoth).
  assert (forall i, highP r' < i <= highP r -> rank r' i = []) as Hpass'
    by (intros i Hi; apply (Hpass i _ Hi), wf_rank_holds, Hwf').
  exists r'. split; [exact HP|]. split; [exact Hwf'|]. split; [split|].
  - intros i Hne. destruct (decide (highP r' < i <= highP r)) as [Hi|Hi].
    + now rewrite Hpass' in Hne.
    + destruct (decide (i = highP r)) as [->|Hd]; [lia|].
      rewrite Hoth' in Hne by exact Hd. apply Hin in Hne. lia.
  - destruct Hnext as [(es' & e & He)|[Heq Hall]].
    + left. rewrite (rank_holds_rank _ _ _ He).
      intros Hnil. symmetry in Hnil. now apply app_cons_not_nil in Hnil.
    + right. intros i. destruct (decide (0 <= i <= highP r)) as [Hi|Hi].
      * apply (Hall i _ Hi), wf_rank_holds, Hwf'.
      * destruct (rank r' i) as [|x l] eqn:Hri; [reflexivity|].
        assert (i <> highP r) as Hd by lia.
        rewrite (Hoth' i Hd) in Hri.
        assert (rank r i <> []) as Hne by (rewrite Hri; discriminate).
        apply Hin in Hne. lia.
  - unfold drain.
    rewrite <- (drain_from_skip r' (highP r') (highP r)) by (auto; lia).
    replace (Z.to_nat (highP r + 1)) with (S (Z.to_nat (highP r))) by lia.
    simpl. rewrite Hrank, Hes, reverse_snoc. simpl. do 2 f_equal.
    symmetry. apply drain_from_ext. intros k Hk. apply Hoth'. lia.
Qed.

(** Draining, by induction on what is left to drain. *)
Lemma Pops_drain h n r :
  wf r -> in_order r -> length (drain r) = n ->
  exists r', Pops n h r = Some (popped_entry h <$> drain r, r') /\
    wf r' /\ dom (buf r') = dom (buf r) /\ forall i, rank r' i = [].
Proof.
  revert r. induction n as [|n IH]; intros r Hwf Hord Hlen.
  - apply nil_length_inv in Hlen. rewrite Hlen. simpl.
    exists r. split; [reflexivity|]. split; [exact Hwf|]. split; [reflexivity|].
    destruct Hord as [Hin [Hne|Hall]]; [|exact Hall].
    exfalso. unfold drain in Hlen.
    assert (0 <= highP r) by now destruct Hwf as (_ & ? & _).
    replace (Z.to_nat (highP r + 1)) with (S (Z.to_nat (highP r))) in Hlen by lia.
    simpl in Hlen. apply app_eq_nil in Hlen as [Hrev _].
    apply (f_equal reverse) in Hrev. rewrite reverse_involutive in Hrev.
    now apply Hne.
  - destruct (rank r (highP r)) as [|b es _] eqn:Hrank using rev_ind.
    + exfalso. destruct Hord as [Hin [Hne|Hall]]; [now apply Hne|].
      unfold drain in Hlen. rewrite drain_from_nil in Hlen by exact Hall.
      discriminate.
    + destruct (Pop_in_order h r es b Hwf Hord Hrank)
        as (r1 & HP & Hwf1 & Hord1 & Hdrain).
      rewrite Hdrain in Hlen. simpl in Hlen. injection Hlen as Hlen.
      destruct (IH r1 Hwf1 Hord1 Hlen) as (r' & HPs & Hwf' & Hdom & Hnil).
      exists r'. simpl. rewrite HP, HPs, Hdrain. simpl.
      split; [reflexivity|]. split; [exact Hwf'|]. split; [|exact Hnil].
      rewrite Hdom. unfold popped_entry in HP.
      now destruct (Pop_frame h r _ r1 HP) as (-> & _).
Qed.

Lemma Pops_reachable d C h n r l r' :
  reachable d C r -> Pops n h r = Some (l, r') -> reachable d C r'.
Proof.
  revert r l. induction n as [|n IH]; intros r l Hr; simpl.
  - now intros [= _ <-].
  - destruct (Pop h r) as [a r1|] eqn:HP; [|discriminate].
    destruct (Pops n h r1) as [[l1 r2]|] eqn:HPs; simpl; [|discriminate].
    intros [= _ <-]. apply (IH r1 l1); [|exact HPs].
    eapply reach_Pop; eauto.
Qed.

Lemma PWrite_all_reachable d C ws r r' :
  reachable d C r -> PWrite_all r ws = Some r' -> reachable d C r'.
Proof.
  revert r. induction ws as [|w ws IH]; intros r Hr; simpl.
  - now intros [= <-].
  - destruct (PWrite r w.1 w.2) as [a r1|] eqn:Hw; [|discriminate].
    apply IH. eapply reach_PWrite; eauto.
Qed.

(** X7. Draining a store that is in order ([highP] is the highest rank
    that holds an entry): as many pops as the ranks from [highP] down to 0
    hold entries all succeed; they return those entries by decreasing
    rank and, within a rank, from the last written to the first; after
    them no rank holds an entry and [Pop] fails. *)
Theorem drain_in_order d C h r :
  0 < C -> reachable d C r -> in_order r ->
  exists r' e r'',
    Pops (length (drain r)) h r = Some (popped_entry h <$> drain r, r') /\
    (forall i, rank r' i = []) /\
    Pop h r' = Ret (""%string, Some e) r''.
Proof.
  intros HC Hr Hord. apply (reachable_wf d C r HC) in Hr as [Hwf _].
  destruct (Pops_drain h (length (drain r)) r Hwf Hord eq_refl)
    as (r' & HPs & Hwf' & _ & Hnil).
  destruct (Pop_fails_on_empty_rank h r' Hwf' (Hnil _)) as (e & r'' & HP).
  exists r', e, r''. auto.
Qed.

(** ** Writes on a new store, then pops *)

Lemma rank_written r p b i :
  wf r ->
  rank (written r p b) i
  = if decide (i = p) then push (Z.to_nat (bufCap r)) (rank r p) b else rank r i.
Proof.
  intros Hwf. case_decide as Hi.
  - subst i. destruct (holds_ring_or_New r p Hwf) as [es Hes].
    pose proof (holds_unread _ _ _ Hes) as Hun.
    rewrite (unread_ring_or_New r p Hwf) in Hun.
    apply (holds_write _ _ _ b) in Hes. apply holds_unread in Hes.
    rewrite Hun, <- Hes. unfold rank, written. simpl.
    now rewrite lookup_insert_eq.
  - apply rank_ext. simpl. now rewrite lookup_insert_ne.
Qed.

Lemma push_not_nil C es b : (0 < C)%nat -> push C es b <> [].
Proof.
  intros HC. rewrite push_snoc by exact HC.
  intros Hnil. symmetry in Hnil. now apply app_cons_not_nil in Hnil.
Qed.

(** A write at a rank from 0 up keeps [highP] right. *)
Lemma written_in_order r p b :
  wf r -> 0 <= p ->
  (forall i, rank r i <> [] -> 0 <= i <= highP r) ->
  (rank r (highP r) <> [] \/ (highP r = 0 /\ forall i, rank r i = [])) ->
  (forall i, rank (written r p b) i <> [] -> 0 <= i <= highP (written r p b)) /\
  rank (written r p b) (highP (written r p b)) <> [].
Proof.
  intros Hwf Hp Hin Htop.
  assert (0 < Z.to_nat (bufCap r))%nat as HC by (destruct Hwf; lia).
  assert (0 <= highP r) as Hhp by now destruct Hwf as (_ & ? & _).
  split.
  - intros i. rewrite rank_written by exact Hwf. simpl. case_decide.
    + subst. lia.
    + intros Hne. apply Hin in Hne. lia.
  - rewrite rank_written by exact Hwf. simpl. case_decide as Hd.
    + now apply push_not_nil.
    + destruct Htop as [Hne|[H0 _]]; [|lia].
      replace (Z.max (highP r) p) with (highP r) by lia. exact Hne.
Qed.

Lemma PWrite_all_in_order ws r :
  wf r -> Forall (fun w => 0 <= w.1) ws ->
  (forall i, rank r i <> [] -> 0 <= i <= highP r) ->
  (rank r (highP r) <> [] \/ (highP r = 0 /\ forall i, rank r i = [])) ->
  exists r',
    PWrite_all r ws = Some r' /\ wf r' /\
    (forall i, rank r' i <> [] -> 0 <= i <= highP r') /\
    (rank r' (highP r') <> [] \/ (highP r' = 0 /\ forall i, rank r' i = [])) /\
    highP r' = fold_left (fun m w => Z.max m w.1) ws (highP r) /\
    (forall i, rank r' i
               = fold_left (push (Z.to_nat (bufCap r))) (written_at ws i) (rank r i)) /\
    (forall i, is_Some (buf r !! i) \/ (exists w, w ∈ ws /\ w.1 = i) ->
               is_Some (buf r' !! i)).
Proof.
  revert r. induction ws as [|[p b] ws IH]; intros r Hwf Hpos Hin Htop.
  - exists r. split; [reflexivity|]. split; [exact Hwf|]. split; [exact Hin|].
    split; [exact Htop|]. split; [reflexivity|]. split; [intros i; reflexivity|].
    intros i [Hs|(w & Hw & _)]; [exact Hs|]. now apply elem_of_nil in Hw.
  - apply Forall_cons in Hpos as [Hp Hpos]. simpl in Hp.
    simpl PWrite_all. rewrite PWrite_Ret by (now destruct Hwf).
    destruct (written_in_order r p b Hwf Hp Hin Htop) as [Hin1 Htop1].
    destruct (IH (written r p b) (wf_written r p b Hwf) Hpos Hin1 (or_introl Htop1))
      as (r' & HW & Hwf' & Hin' & Htop' & Hhp' & Hrank' & Hdom').
    exists r'. split; [exact HW|]. split; [exact Hwf'|]. split; [exact Hin'|].
    split; [exact Htop'|]. split; [exact Hhp'|]. split.
    + intros i. rewrite Hrank', rank_written by exact Hwf. simpl bufCap.
      unfold written_at. rewrite filter_cons. simpl.
      case_decide as Hd; case_decide as Hd'; try congruence; [|reflexivity].
      subst i. rewrite fmap_cons. reflexivity.
    + intros i Hi. apply Hdom'. simpl.
      destruct (decide (i = p)) as [->|Hne].
      * left. rewrite lookup_insert_eq. eauto.
      * rewrite lookup_insert_ne by congruence.
        destruct Hi as [Hs|(w & Hw & Hwi)]; [now left|].
        apply elem_of_cons in Hw as [->|Hw]; [simpl in Hwi; congruence|].
        right. eauto.
Qed.

Lemma drain_newest C r ws n i :
  (0 < C)%nat ->
  (forall k, rank r k = fold_left (push C) (written_at ws k) []) ->
  drain_from r n i = newest_from C ws n i.
Proof.
  intros HC Hrank. revert i. induction n as [|n IH]; intros i; simpl; [reflexivity|].
  rewrite IH, Hrank, fold_push by (simpl; lia). simpl.
  now rewrite take_reverse.
Qed.

Lemma Pop_fails_with_type_assertion h r :
  wf r -> rank r (highP r) = [] -> is_Some (buf r !! highP r) ->
  exists r', Pop h r = Ret (""%string, Some ErrTypeAssertion) r'.
Proof.
  intros Hwf Hnil Hs. destruct (buf r !! highP r) as [[rg|]|] eqn:Hm.
  - destruct (wf_holds r _ rg Hwf Hm) as [es Hes].
    assert (es = []) as ->.
    { rewrite <- (holds_unread _ _ _ Hes). unfold rank in Hnil. now rewrite Hm in Hnil. }
    destruct (holds_pop_nil _ _ Hes) as [HV _].
    eexists. apply (Pop_fail h r rg Hm HV).
  - now apply wf_no_nil in Hm.
  - destruct Hs as [x Hx]. discriminate.
Qed.

(** X8. Writes, then pops.  On a new store of positive capacity [C], after
    any writes at priorities from 0 up, pops return the entries by
    decreasing priority and, within a priority, from the last written to
    the first, at most [C] of them for each priority: the older ones are
    gone.  The pop after them fails, with the type-assertion error if
    anything was written and the empty-buffer error otherwise. *)
Theorem writes_then_pops d C h ws :
  0 < C -> Forall (fun w => 0 <= w.1) ws ->
  exists r r' r'',
    PWrite_all (NewRingBuffer d C) ws = Some r /\
    Pops (length (newest_first (Z.to_nat C) ws)) h r
    = Some (popped_entry h <$> newest_first (Z.to_nat C) ws, r') /\
    Pop h r'
    = Ret (""%string,
           Some (match ws with [] => ErrBufferEmpty | _ => ErrTypeAssertion end)) r''.
Proof.
  intros HC Hpos.
  pose proof (wf_New d C HC) as Hwf0.
  assert (forall i, rank (NewRingBuffer d C) i = []) as Hnil0.
  { intros i. unfold rank. simpl. now rewrite lookup_empty. }
  destruct (PWrite_all_in_order ws (NewRingBuffer d C) Hwf0 Hpos)
    as (r & HW & Hwf & Hin & Htop & Hhp & Hrank & Hdom).
  { intros i Hne. now rewrite Hnil0 in Hne. }
  { right. split; [reflexivity|exact Hnil0]. }
  assert (in_order r) as Hord.
  { split; [exact Hin|]. destruct Htop as [Hne|[_ Hall]]; auto. }
  assert (drain r = newest_first (Z.to_nat C) ws) as Hdrain.
  { unfold drain, newest_first, top_priority. rewrite Hhp. simpl highP.
    apply drain_newest; [lia|]. intros k. rewrite Hrank, Hnil0. reflexivity. }
  destruct (Pops_drain h (length (drain r)) r Hwf Hord eq_refl)
    as (r' & HPs & Hwf' & Hdom' & Hnil').
  rewrite Hdrain in HPs.
  assert (reachable d C r') as Hr'.
  { eapply Pops_reachable; [|exact HPs].
    eapply PWrite_all_reachable; [apply reach_New|exact HW]. }
  destruct ws as [|w ws].
  - simpl in HW. assert (r = NewRingBuffer d C) as -> by congruence.
    assert (newest_first (Z.to_nat C) (@nil (Z * slice)) = []) as Hn.
    { unfold newest_first, top_priority, written_at. simpl.
      destruct (Z.to_nat C); reflexivity. }
    rewrite Hn in HPs. simpl in HPs.
    assert (r' = NewRingBuffer d C) as -> by congruence.
    exists (NewRingBuffer d C), (NewRingBuffer d C).
    eexists. split; [reflexivity|]. split; [now rewrite Hn|]. reflexivity.
  - destruct (Pop_fails_with_type_assertion h r' Hwf' (Hnil' _)) as [r'' HP].
    + destruct (reachable_highP_ring d C r' HC Hr') as [Hs|[_ Hnone]]; [exact Hs|].
      exfalso. apply Forall_cons in Hpos as [Hw _].
      assert (is_Some (buf r !! w.1)) as Hsw.
      { apply Hdom. right. exists w. split; [apply elem_of_cons; now left|reflexivity]. }
      apply elem_of_dom in Hsw. rewrite <- Hdom' in Hsw. apply elem_of_dom in Hsw.
      rewrite (Hnone _ Hw) in Hsw. destruct Hsw as [x Hx]. discriminate.
    + exists r, r', r''. auto.
Qed.

Lemma writes_then_pops_witness :
  0 < 3 /\ Forall (fun w => 0 <= w.1) pop_test_writes /\
  exists r r' r'',
    PWrite_all (NewRingBuffer Minor 3) pop_test_writes = Some r /\
    Pops 8 pop_test_heap r
    = Some ([("critical1", None); ("critical0", None);
             ("major1", None); ("major0", None);
             ("minor1", None); ("minor0", None);
             ("trivial1", None); ("trivial0", None)]%string, r') /\
    Pop pop_test_heap r' = Ret (""%string, Some ErrTypeAssertion) r''.
Proof.
  split; [lia|].
  assert (Forall (fun w : LogPriority * slice => 0 <= w.1) pop_test_writes) as Hpos.
  { vm_compute. repeat constructor; discriminate. }
  split; [exact Hpos|].
  destruct (writes_then_pops Minor 3 pop_test_heap pop_test_writes ltac:(lia) Hpos)
    as (r & r' & r'' & HW & HPs & HP).
  exists r, r', r''. split; [exact HW|]. split; [exact HPs|exact HP].
Defined.

Lemma one_entry_in_order : in_order one_entry.
Proof.
  assert (forall i, i <> Major -> rank one_entry i = []) as Hoth.
  { intros i Hi. unfold rank, one_entry. simpl.
    now rewrite lookup_singleton_ne by congruence. }
  split.
  - intros i Hne. destruct (decide (i = Major)) as [->|Hi].
    + simpl. unfold Major. lia.
    + now rewrite Hoth in Hne.
  - left. vm_compute. discriminate.
Qed.

Lemma drain_in_order_witness :
  0 < 3 /\ reachable Minor 3 one_entry /\ in_order one_entry /\
  exists r' e r'',
    Pops 1 sample_heap one_entry = Some ([("a"%string, None)], r') /\
    (forall i, rank r' i = []) /\
    Pop sample_heap r' = Ret (""%string, Some e) r''.
Proof.
  split; [lia|]. split; [apply one_entry_reachable|].
  split; [apply one_entry_in_order|].
  apply (drain_in_order Minor 3 sample_heap one_entry);
    [lia|apply one_entry_reachable|apply one_entry_in_order].
Defined.

(** ** A write, then a pop *)

Lemma Prev_Next rg : ring_wf rg -> Prev (Next rg) = rg.
Proof.
  destruct rg as [l c]. unfold ring_wf, Next, Prev, Len; simpl. intros H.
  f_equal. destruct (decide (c + 1 < length l)%nat) as [Hlt|Hge].
  - rewrite (Nat.mod_small (c + 1)) by lia.
    replace (c + 1 + length l - 1)%nat with (c + 1 * length l)%nat by lia.
    rewrite Nat.Div0.mod_add. apply Nat.mod_small. lia.
  - replace (c + 1)%nat with (length l) by lia.
    rewrite Nat.Div0.mod_same, Nat.add_0_l, Nat.mod_small by lia. lia.
Qed.

(** Storing an entry in a nil slot, stepping forward, stepping back and
    clearing the slot gives the ring back. *)
Lemma write_pop_ring rg b :
  ring_wf rg -> Value rg = None ->
  set_Value (Prev (Next (set_Value rg (Some b)))) None = rg.
Proof.
  intros Hwf HV. rewrite Prev_Next by now apply set_Value_wf.
  destruct rg as [l c]. unfold ring_wf, Len, Value, set_Value in *. simpl in *.
  f_equal. rewrite list_insert_insert_eq. apply list_insert_id.
  destruct (lookup_lt_is_Some_2 l c Hwf) as [x Hx].
  rewrite Hx in HV. simpl in HV. now subst x.
Qed.

Lemma holds_Value_nil C rg es :
  holds C rg es -> (length es < C)%nat -> Value rg = None.
Proof.
  intros (Hwf & _ & Hv) Hlt. rewrite (view_cons rg Hwf) in Hv.
  replace (C - length es)%nat with (S (C - length es - 1)) in Hv by lia.
  simpl in Hv. now injection Hv as ->.
Qed.

(** X9. A write at a priority not below [highP], then a pop: the pop
    returns the entry just written; the rank then holds what it held
    before the write, less its oldest entry when it was full; the other
    ranks are as before.  When moreover the write was at priority [highP],
    and that rank held an entry and was not full, the two calls leave
    exactly the store they found. *)
Theorem write_then_pop d C h r p b :
  0 < C -> reachable d C r -> highP r <= p ->
  exists r1 r2,
    PWrite r p b = Ret (len b, None) r1 /\
    Pop h r1 = Ret (to_string h b, None) r2 /\
    rank r2 p = drop (S (length (rank r p)) - Z.to_nat C) (rank r p) /\
    (forall i, i <> p -> rank r2 i = rank r i) /\
    (highP r = p -> rank r p <> [] -> (length (rank r p) < Z.to_nat C)%nat ->
     r2 = r).
Proof.
  intros HC Hr Hp. apply (reachable_wf d C r HC) in Hr as [Hwf HCr].
  pose proof (wf_written r p b Hwf) as Hwf1.
  assert (highP (written r p b) = p) as Hhp1 by (simpl; lia).
  assert (rank (written r p b) (highP (written r p b))
          = drop (S (length (rank r p)) - Z.to_nat C) (rank r p) ++ [b]) as Hrank1.
  { rewrite Hhp1, rank_written, decide_True, HCr by auto. apply push_snoc. lia. }
  pose proof (wf_rank_holds _ (highP (written r p b)) Hwf1) as Hh.
  rewrite Hrank1 in Hh.
  destruct (Pop_newest_of_highP h _ _ b Hwf1 Hh)
    as (r2 & HP & Hwf2 & Hes & Hoth & _).
  exists (written r p b), r2. split; [apply PWrite_Ret; lia|].
  split; [exact HP|]. split; [|split].
  - rewrite Hhp1 in Hes. now apply rank_holds_rank.
  - intros i Hi. rewrite (rank_ext _ _ i (Hoth i ltac:(lia))).
    rewrite rank_written, decide_False by auto. reflexivity.
  - intros Hhp Hne Hlt.
    destruct (buf r !! p) as [[rg|]|] eqn:Hm;
      [|now apply wf_no_nil in Hm|unfold rank in Hne; now rewrite Hm in Hne].
    destruct (wf_holds r p rg Hwf Hm) as [es Hes'].
    assert (rank r p = es) as Hres.
    { unfold rank. rewrite Hm. apply (holds_unread _ _ _ Hes'). }
    rewrite Hres, <- HCr in Hlt. rewrite Hres in Hne.
    pose proof (holds_Value_nil _ _ _ Hes' Hlt) as HV.
    assert (ring_or_New r p = rg) as Hrg.
    { unfold ring_or_New, ring_at. now rewrite Hm. }
    assert (buf (written r p b) !! highP (written r p b)
            = Some (Some (Next (set_Value rg (Some b))))) as Hm1.
    { rewrite Hhp1. simpl. now rewrite lookup_insert_eq, Hrg. }
    pose proof (holds_write _ _ _ b Hes') as Hw.
    rewrite push_snoc in Hw by lia.
    destruct (holds_pop _ _ _ _ Hw) as [HV1 _].
    rewrite (Pop_ok h _ _ b Hm1 HV1) in HP.
    assert (popped (written r p b) (Next (set_Value rg (Some b))) = buf r) as Hpop.
    { unfold popped. rewrite Hhp1. simpl.
      rewrite insert_insert_eq, write_pop_ring by (auto; apply Hes').
      now apply insert_id. }
    rewrite Hpop, Hhp1 in HP.
    destruct es as [|e es _] using rev_ind; [congruence|].
    destruct (holds_pop _ _ _ _ Hes') as [HVp _].
    assert (0 <= p) by (destruct Hwf as (_ & ? & _); lia).
    replace (Z.to_nat (p + 1)) with (S (Z.to_nat p)) in HP by lia.
    rewrite (rescan_top _ _ _ rg e Hm HVp) in HP.
    injection HP as <-. destruct r as [dp cap m hp]. simpl in *. now subst.
Qed.

Lemma write_then_pop_witness :
  0 < 3 /\ reachable Minor 3 one_entry /\ highP one_entry <= Major /\
  exists r1,
    PWrite one_entry Major sb = Ret (len sb, None) r1 /\
    Pop sample_heap r1 = Ret ("b"%string, None) one_entry.
Proof.
  split; [lia|]. split; [apply one_entry_reachable|].
  split; [vm_compute; discriminate|].
  destruct (write_then_pop Minor 3 sample_heap one_entry Major sb)
    as (r1 & r2 & HW & HP & _ & _ & Heq);
    [lia|apply one_entry_reachable|vm_compute; discriminate|].
  exists r1. split; [exact HW|].
  rewrite <- (Heq eq_refl); [exact HP| |].
  - vm_compute. discriminate.
  - vm_compute. lia.
Defined.

(** ** The default priority *)

Lemma deref_set_p r q i (k : Ring -> RingBuffer.t) :
  deref (set_p r q) i (fun rg => set_p (k rg) q)
  = (fun r' => set_p r' q) <$> deref r i k.
Proof. unfold deref, ring_at. simpl. now destruct (buf r !! i) as [[rg|]|]. Qed.

Lemma PWrite_set_p r q p b :
  PWrite (set_p r q) p b = map_store (fun r' => set_p r' q) (PWrite r p b).
Proof.
  unfold PWrite.
  assert (PWrite_alloc p (PWrite_raise p (set_p r q))
          = set_p (PWrite_alloc p (PWrite_raise p r)) q) as ->.
  { destruct r as [d C m hp]. unfold PWrite_raise, PWrite_alloc, ring_at. simpl.
    destruct (decide (hp < p)); simpl; case_match; reflexivity. }
  set (r1 := PWrite_alloc p (PWrite_raise p r)).
  unfold PWrite_store.
  change (fun rg => set_buf (set_p r1 q) (<[p:=Some (set_Value rg (Some b))]> (buf (set_p r1 q))))
    with (fun rg => set_p (set_buf r1 (<[p:=Some (set_Value rg (Some b))]> (buf r1))) q).
  rewrite deref_set_p.
  destruct (deref r1 p _) as [r2|]; simpl; [|reflexivity].
  unfold PWrite_advance.
  change (fun rg => set_buf (set_p r2 q) (<[p:=Some (Next rg)]> (buf (set_p r2 q))))
    with (fun rg => set_p (set_buf r2 (<[p:=Some (Next rg)]> (buf r2))) q).
  rewrite deref_set_p.
  destruct (deref r2 p _) as [r3|]; reflexivity.
Qed.

Lemma Pop_set_p h r q :
  Pop h (set_p r q) = map_store (fun r' => set_p r' q) (Pop h r).
Proof.
  unfold Pop. simpl.
  destruct (buf r !! highP r) as [x|] eqn:Hm; [|reflexivity].
  unfold Pop_prev.
  change (fun rg => set_buf (set_p r q)
                      (<[highP (set_p r q):=Some (Prev rg)]> (buf (set_p r q))))
    with (fun rg => set_p (set_buf r (<[highP r:=Some (Prev rg)]> (buf r))) q).
  change (highP (set_p r q)) with (highP r).
  rewrite deref_set_p.
  destruct (deref r (highP r) _) as [r1|]; simpl; [|reflexivity].
  change (ring_at (set_p r1 q) (highP r1)) with (ring_at r1 (highP r1)).
  destruct (ring_at r1 (highP r1) ≫= Value) as [b|]; [|reflexivity].
  unfold Pop_clear.
  change (fun rg => set_buf (set_p r1 q)
                      (<[highP (set_p r1 q):=Some (set_Value rg None)]> (buf (set_p r1 q))))
    with (fun rg => set_p (set_buf r1 (<[highP r1:=Some (set_Value rg None)]> (buf r1))) q).
  change (highP (set_p r1 q)) with (highP r1).
  rewrite deref_set_p.
  destruct (deref r1 (highP r1) _) as [r2|]; simpl; [|reflexivity].
  unfold Pop_update. simpl.
  destruct (rescan _ _ _) as [[j|]|]; reflexivity.
Qed.

(** X10. [SetPriority] changes the default priority and nothing else:
    [GetPriority] then returns the new value, whatever it is, and [Write]
    writes at it; [Pop] and [PWrite] return what they would have returned
    and leave the store they would have left, but for the default
    priority. *)
Theorem SetPriority_only_default r q :
  GetPriority (SetPriority r q) = q /\
  (forall b, Write (SetPriority r q) b = PWrite (SetPriority r q) q b) /\
  (forall p b, PWrite (SetPriority r q) p b
               = map_store (fun r' => SetPriority r' q) (PWrite r p b)) /\
  (forall h, Pop h (SetPriority r q)
             = map_store (fun r' => SetPriority r' q) (Pop h r)).
Proof.
  split; [reflexivity|]. split; [reflexivity|]. split.
  - intros p b. apply PWrite_set_p.
  - intros h. apply Pop_set_p.
Qed.

(** * Further properties of the logger *)

(** ** [Append] *)

(** [WriteString] changes no array but the buffer's own, and the buffer
    stays in its array or moves to a new one. *)
Lemma WriteString_frame roundupsize h b s a :
  (forall n, (n <= roundupsize n)%nat) ->
  buffer_ok h b -> arr (bytes.buf b) = Some a ->
  (length h <= length (bytes.WriteString roundupsize h b s).2)%nat /\
  (arr (bytes.buf (bytes.WriteString roundupsize h b s).1) = Some a \/
   arr (bytes.buf (bytes.WriteString roundupsize h b s).1) = Some (length h)) /\
  forall x, x <> a -> (x < length h)%nat ->
    (bytes.WriteString roundupsize h b s).2 !! x = h !! x.
Proof.
  intros Hle Hok Ha. pose proof Hok as (_ & _ & _ & a' & l & Ha' & Hl & _).
  rewrite Ha in Ha'. injection Ha' as <-.
  destruct (decide (length (list_byte_of_string s)
                    <= cap (bytes.buf b) - len (bytes.buf b))%nat) as [Hfit|Hfit].
  - rewrite (WriteString_in_place roundupsize h b s a l Hok Ha Hl Hfit).
    cbn [fst snd bytes.buf arr]. rewrite length_insert.
    split; [lia|]. split; [now left|].
    intros x Hx _. now apply list_lookup_insert_ne.
  - destruct (WriteString_grow roundupsize Hle h b s a l Hok Ha Hl ltac:(lia))
      as (c & _ & ->).
    cbn [fst snd bytes.buf arr]. rewrite length_app.
    split; [lia|]. split; [now right|].
    intros x _ Hx. now apply lookup_app_l.
Qed.

(** X11. [Append(s)] adds the bytes of [s] at the end of the accumulator
    and leaves the store alone.  In the heap it changes no array but the
    one the accumulator is in, so it alters no entry that [Print] wrote;
    the accumulator stays in its array when [s] fits, and moves to a new
    array otherwise. *)
Theorem Append_appends roundupsize h l s a :
  (forall n, (n <= roundupsize n)%nat) ->
  buffer_ok h (Logger.aBuf l) -> arr (bytes.buf (Logger.aBuf l)) = Some a ->
  buffer_ok (Append roundupsize h l s).2 (Logger.aBuf (Append roundupsize h l s).1) /\
  contents (Append roundupsize h l s).2 (Logger.aBuf (Append roundupsize h l s).1)
  = contents h (Logger.aBuf l) ++ list_byte_of_string s /\
  GetBuffer (Append roundupsize h l s).1 = GetBuffer l /\
  (forall x, x <> a -> (x < length h)%nat ->
     (Append roundupsize h l s).2 !! x = h !! x) /\
  ((length (list_byte_of_string s)
    <= cap (bytes.buf (Logger.aBuf l)) - len (bytes.buf (Logger.aBuf l)))%nat ->
   arr (bytes.buf (Logger.aBuf (Append roundupsize h l s).1)) = Some a /\
   length (Append roundupsize h l s).2 = length h).
Proof.
  intros Hle Hok Ha.
  destruct (WriteString_ok roundupsize Hle h (Logger.aBuf l) s Hok) as [Hok' Hc].
  destruct (WriteString_frame roundupsize h (Logger.aBuf l) s a Hle Hok Ha)
    as (_ & _ & Hframe).
  pose proof Hok as (_ & _ & _ & a' & la & Ha' & Hl & _).
  rewrite Ha in Ha'. injection Ha' as <-.
  pose proof (WriteString_in_place roundupsize h (Logger.aBuf l) s a la Hok Ha Hl)
    as Hin.
  unfold Append.
  destruct (bytes.WriteString roundupsize h (Logger.aBuf l) s) as [b' h'].
  cbn [fst snd Logger.aBuf Logger.buf GetBuffer] in *.
  split; [exact Hok'|]. split; [exact Hc|]. split; [reflexivity|].
  split; [exact Hframe|].
  intros Hfit. specialize (Hin Hfit). injection Hin as -> ->.
  cbn [bytes.buf arr]. rewrite length_insert. auto.
Qed.

Lemma Append_appends_witness :
  (forall n, (n <= id n)%nat) /\
  buffer_ok [[]] (Logger.aBuf (NewLogger [] (NewRingBuffer Minor 3)).1) /\
  contents (Append id [[]] (NewLogger [] (NewRingBuffer Minor 3)).1 "ne").2
    (Logger.aBuf (Append id [[]] (NewLogger [] (NewRingBuffer Minor 3)).1 "ne").1)
  = [] ++ list_byte_of_string "ne".
Proof.
  assert (forall n, (n <= id n)%nat) as Hle by (intros n; unfold id; lia).
  assert (buffer_ok [[]] (Logger.aBuf (NewLogger [] (NewRingBuffer Minor 3)).1)) as Hok.
  { repeat split; cbn; [lia|]. exists 0%nat, []. auto. }
  split; [exact Hle|]. split; [exact Hok|].
  apply (Append_appends id [[]] (NewLogger [] (NewRingBuffer Minor 3)).1 "ne" 0%nat Hle Hok).
  reflexivity.
Defined.

(** ** Commit sessions *)

Lemma buffer_ok_contents h b a l :
  buffer_ok h b -> arr (bytes.buf b) = Some a -> h !! a = Some l ->
  contents h b = take (len (bytes.buf b)) l.
Proof.
  intros (Hoff & Hsoff & _) Ha Hl.
  unfold contents, bytes.Bytes, load, array_of, reslice_from, reslice.
  cbn [arr off len cap]. rewrite Hoff, Hsoff, Ha, Hl. cbn.
  now rewrite Nat.sub_0_r.
Qed.

(** X12. A commit session on a logger whose accumulator is empty, at a
    priority not below [highP]: the appends followed by [AppendDone] write
    one entry, which the next [Pop] returns as the concatenation of the
    session's fragments (the empty string, without error, when nothing was
    appended); the accumulator is empty again, so that the next session
    starts as this one did. *)
Theorem session_commits roundupsize d C h l frs p :
  (forall n, (n <= roundupsize n)%nat) ->
  0 < C -> reachable d C (GetBuffer l) -> highP (GetBuffer l) <= p ->
  buffer_ok h (Logger.aBuf l) -> bytes.Len (Logger.aBuf l) = 0%nat ->
  exists l' h' r2,
    session roundupsize h l frs p = Some (l', h') /\
    Pop h' (GetBuffer l') = Ret (string_of_list_byte (bytes_of frs), None) r2 /\
    reachable d C (GetBuffer l') /\ highP (GetBuffer l') = p /\
    buffer_ok h' (Logger.aBuf l') /\ bytes.Len (Logger.aBuf l') = 0%nat.
Proof.
  intros Hle HC Hr Hp Hok Hlen. unfold session, GetBuffer in *.
  destruct (Appends_ok roundupsize Hle h l frs Hok) as (Hok1 & Hc & Hb).
  destruct (Appends roundupsize h l frs) as [la ha]. cbn [fst snd] in *.
  assert (contents h (Logger.aBuf l) = []) as Hnil.
  { pose proof Hok as (Hoff & _ & _ & a & la' & Ha & Hl & _).
    rewrite (buffer_ok_contents h _ a la' Hok Ha Hl).
    unfold bytes.Len in Hlen. rewrite Hoff in Hlen.
    replace (len (bytes.buf (Logger.aBuf l))) with 0%nat by lia. reflexivity. }
  rewrite Hnil, app_nil_l in Hc.
  pose proof (reachable_wf d C _ HC Hr) as [Hwf HCr].
  unfold AppendDone. rewrite Hb, PWrite_Ret by lia.
  cbn [fmap option_fmap option_map].
  destruct (Pop_written ha (Logger.buf l) p (bytes.Bytes (Logger.aBuf la)) Hwf Hp)
    as [r2 HP].
  do 2 eexists. exists r2. split; [reflexivity|]. cbn [Logger.buf Logger.aBuf].
  split; [|split; [|split; [|split]]].
  - rewrite HP. unfold to_string. fold (contents ha (Logger.aBuf la)).
    now rewrite Hc.
  - eapply reach_PWrite; [exact Hr|]. apply PWrite_Ret. lia.
  - simpl. lia.
  - now apply Reset_ok.
  - cbn. lia.
Qed.

Lemma session_commits_witness :
  (forall n, (n <= id n)%nat) /\ 0 < 3 /\
  reachable Minor 3 (GetBuffer (Logger.mk one_entry (bytes.mkBuffer (Slice (Some 0%nat) 0 0 0) 0))) /\
  exists l' h' r2,
    session id [[]] (Logger.mk one_entry (bytes.mkBuffer (Slice (Some 0%nat) 0 0 0) 0))
      [] Major = Some (l', h') /\
    Pop h' (GetBuffer l') = Ret (""%string, None) r2.
Proof.
  assert (forall n, (n <= id n)%nat) as Hle by (intros n; unfold id; lia).
  split; [exact Hle|]. split; [lia|]. split; [apply one_entry_reachable|].
  destruct (session_commits id Minor 3 [[]]
              (Logger.mk one_entry (bytes.mkBuffer (Slice (Some 0%nat) 0 0 0) 0))
              [] Major Hle)
    as (l' & h' & r2 & Hs & HP & _);
    [lia|apply one_entry_reachable|vm_compute; discriminate| |reflexivity|].
  { repeat split; cbn; [lia|]. exists 0%nat, []. auto. }
  exists l', h', r2. split; [exact Hs|exact HP].
Defined.

(** ** [Print] *)

Lemma Appends_frame roundupsize h l frs a x :
  (forall n, (n <= roundupsize n)%nat) ->
  buffer_ok h (Logger.aBuf l) -> arr (bytes.buf (Logger.aBuf l)) = Some a ->
  x <> a -> (x < length h)%nat ->
  (Appends roundupsize h l frs).2 !! x = h !! x.
Proof.
  intros Hle. revert h l a. induction frs as [|s frs IH]; intros h l a Hok Ha Hx Hlt.
  - reflexivity.
  - simpl. unfold Append.
    destruct (WriteString_ok roundupsize Hle h (Logger.aBuf l) s Hok) as [Hok' _].
    destruct (WriteString_frame roundupsize h (Logger.aBuf l) s a Hle Hok Ha)
      as (Hlen & Harr & Hframe).
    destruct (bytes.WriteString roundupsize h (Logger.aBuf l) s) as [b' h'].
    cbn [fst snd] in *. rewrite <- (Hframe x Hx Hlt).
    destruct Harr as [Ha'|Ha'].
    + apply (IH h' (Logger.mk (Logger.buf l) b') a); auto. lia.
    + apply (IH h' (Logger.mk (Logger.buf l) b') (length h)); auto; lia.
Qed.

(** X13. [Print(p, s)] at a priority not below [highP] writes an entry of
    its own: the next [Pop] returns [s], and still does after any number
    of [Append]s made in between, which never write into it.  [Print]
    leaves the accumulator as it is. *)
Theorem Print_entry_stable roundupsize d C h l p s frs :
  (forall n, (n <= roundupsize n)%nat) ->
  0 < C -> reachable d C (GetBuffer l) -> highP (GetBuffer l) <= p ->
  buffer_ok h (Logger.aBuf l) ->
  exists l1 h1 r2,
    Print h l p s = Some (l1, h1) /\
    Logger.aBuf l1 = Logger.aBuf l /\
    contents h1 (Logger.aBuf l1) = contents h (Logger.aBuf l) /\
    Pop (Appends roundupsize h1 l1 frs).2 (GetBuffer (Appends roundupsize h1 l1 frs).1)
    = Ret (s, None) r2.
Proof.
  intros Hle HC Hr Hp Hok. unfold Print, of_string, GetBuffer in *.
  pose proof (reachable_wf d C _ HC Hr) as [Hwf HCr].
  rewrite PWrite_Ret by lia.
  set (n := length (list_byte_of_string s)).
  set (b := Slice (Some (length h)) 0 n n).
  set (h1 := h ++ [list_byte_of_string s]).
  set (l1 := Logger.mk (written (Logger.buf l) p b) (Logger.aBuf l)).
  pose proof Hok as (Hoff & Hsoff & Hlc & a & la & Ha & Hl & Hcap).
  pose proof (lookup_lt_Some _ _ _ Hl) as Hlt.
  assert (buffer_ok h1 (Logger.aBuf l1)) as Hok1.
  { repeat split; auto. exists a, la. split; [exact Ha|]. split; [|exact Hcap].
    unfold h1. now rewrite lookup_app_l. }
  destruct (Appends_ok roundupsize Hle h1 l1 frs Hok1) as (_ & _ & Hb).
  pose proof (Appends_frame roundupsize h1 l1 frs a (length h) Hle Hok1 Ha) as Hfr.
  destruct (Pop_written (Appends roundupsize h1 l1 frs).2 (Logger.buf l) p b Hwf Hp)
    as [r2 HP].
  exists l1, h1, r2. split; [reflexivity|]. split; [reflexivity|]. split.
  - rewrite (buffer_ok_contents h1 _ a la Hok1 Ha) by (unfold h1; now rewrite lookup_app_l).
    now rewrite (buffer_ok_contents h _ a la Hok Ha Hl).
  - rewrite Hb. cbn [Logger.buf l1]. rewrite HP. do 2 f_equal.
    unfold to_string, load, array_of, b. cbn [arr off len].
    rewrite Hfr by (unfold h1; rewrite ?length_app; simpl; lia).
    unfold h1. rewrite list_lookup_middle by reflexivity. cbn.
    rewrite take_ge by (unfold n; apply Nat.le_refl).
    apply string_of_list_byte_of_string.
Qed.

Lemma Print_entry_stable_witness :
  (forall n, (n <= id n)%nat) /\ 0 < 3 /\
  exists l1 h1 r2,
    Print [[]] (NewLogger [] (NewRingBuffer Minor 3)).1 Major "nemo" = Some (l1, h1) /\
    Pop (Appends id h1 l1 ["ab"; "cd"]%string).2
        (GetBuffer (Appends id h1 l1 ["ab"; "cd"]%string).1)
    = Ret ("nemo"%string, None) r2.
Proof.
  assert (forall n, (n <= id n)%nat) as Hle by (intros n; unfold id; lia).
  split; [exact Hle|]. split; [lia|].
  destruct (Print_entry_stable id Minor 3 [[]]
              (NewLogger [] (NewRingBuffer Minor 3)).1 Major "nemo"
              ["ab"; "cd"]%string Hle)
    as (l1 & h1 & r2 & HPr & _ & _ & HP);
    [lia|apply reach_New|vm_compute; discriminate| |].
  { repeat split; cbn; [lia|]. exists 0%nat, []. auto. }
  exists l1, h1, r2. split; [exact HPr|exact HP].
Defined.

(** * Further properties of the locking *)

(** ** Two calls of [PWrite] at once *)

Section two_writers.
Import conc writers.

(** A step of a call that has the store to itself. *)
Lemma PWrite_step_progress p b r0 pc s pc' s' :
  progress p b r0 pc (store s) -> locked s = critical pc ->
  PWrite_step p b pc s = Step pc' s' ->
  progress p b r0 pc' (store s') /\ locked s' = critical pc' /\
  (critical pc = true -> pc' <> WLock).
Proof.
  intros Hprog Hl Hstep. destruct pc; cbn [PWrite_step progress critical] in *.
  - rewrite Hl in Hstep. injection Hstep as <- <-. simpl.
    split; [exact Hprog|]. split; [reflexivity|discriminate].
  - unfold on_store in Hstep. injection Hstep as <- <-. simpl. rewrite <- ?Hprog.
    split; [reflexivity|]. split; [exact Hl|discriminate].
  - unfold on_store in Hstep. injection Hstep as <- <-. simpl. rewrite <- ?Hprog.
    split; [reflexivity|]. split; [exact Hl|discriminate].
  - unfold on_store in Hstep.
    destruct (PWrite_store p b (store s)) as [r|] eqn:Hs; [|discriminate].
    injection Hstep as <- <-. simpl. rewrite <- ?Hprog.
    split; [exact Hs|]. split; [exact Hl|discriminate].
  - unfold on_store in Hstep.
    destruct (PWrite_advance p (store s)) as [r|] eqn:Hs; [|discriminate].
    injection Hstep as <- <-. simpl. rewrite Hprog. simpl.
    split; [exact Hs|]. split; [exact Hl|discriminate].
  - injection Hstep as <- <-. simpl. unfold PWrite. rewrite Hprog.
    split; [reflexivity|]. split; [reflexivity|discriminate].
  - discriminate.
Qed.

Lemma ordered_step (x y : LogPriority * slice) r0 pc pc' s :
  ordered x y r0 pc pc' s ->
  (forall pc1 s1, PWrite_step x.1 x.2 pc s = Step pc1 s1 -> ordered x y r0 pc1 pc' s1) /\
  (forall pc1 s1, PWrite_step y.1 y.2 pc' s = Step pc1 s1 -> ordered x y r0 pc pc1 s1).
Proof.
  intros [(Hc & -> & Hl & Hprog)|(n & r1 & -> & HW & Hprog & Hl)].
  - split.
    + intros pc1 s1 Hstep.
      destruct (PWrite_step_progress _ _ r0 pc s pc1 s1 Hprog) as (Hp1 & Hl1 & Hne);
        [now rewrite Hc|exact Hstep|].
      specialize (Hne Hc).
      destruct pc1 as [| | | | | |n]; cbn [critical] in Hl1;
        try (left; repeat split; auto; fail).
      right. exists n, (store s1). split; [reflexivity|]. split; [exact Hp1|].
      split; [reflexivity|]. exact Hl1.
    + intros pc1 s1 Hstep. simpl in Hstep. now rewrite Hl in Hstep.
  - split.
    + intros pc1 s1 Hstep. discriminate.
    + intros pc1 s1 Hstep.
      destruct (PWrite_step_progress _ _ r1 pc' s pc1 s1 Hprog) as (Hp1 & Hl1 & _);
        [exact Hl|exact Hstep|].
      right. exists n, r1. auto.
Qed.

(** What every schedule keeps: nobody has started, or one call is ahead of
    the other. *)
Lemma writers_exec_ordered p1 b1 p2 b2 r0 ts c c' :
  c = writers_start r0 \/
  ordered (p1, b1) (p2, b2) r0 (w1 c) (w2 c) (wmem c) \/
  ordered (p2, b2) (p1, b1) r0 (w2 c) (w1 c) (wmem c) ->
  writers_exec p1 b1 p2 b2 ts c = Some c' ->
  c' = writers_start r0 \/
  ordered (p1, b1) (p2, b2) r0 (w1 c') (w2 c') (wmem c') \/
  ordered (p2, b2) (p1, b1) r0 (w2 c') (w1 c') (wmem c').
Proof.
  revert c. induction ts as [|t ts IH]; intros c Hc Hex.
  - injection Hex as <-. exact Hc.
  - cbn [writers_exec] in Hex.
    destruct (writer_step p1 b1 p2 b2 t c) as [c1|] eqn:Hstep; [|discriminate].
    apply (IH c1); [|exact Hex]. clear IH Hex. right.
    destruct Hc as [->|[Ho|Ho]].
    + destruct t; injection Hstep as <-.
      * left. left. simpl. auto.
      * right. left. simpl. auto.
    + destruct (ordered_step _ _ _ _ _ _ Ho) as [H1 H2].
      destruct t; unfold writer_step in Hstep.
      * destruct (PWrite_step p1 b1 (w1 c) (wmem c)) as [pc s| |] eqn:E; try discriminate.
        injection Hstep as <-. left. apply H1. exact E.
      * destruct (PWrite_step p2 b2 (w2 c) (wmem c)) as [pc s| |] eqn:E; try discriminate.
        injection Hstep as <-. left. apply H2. exact E.
    + destruct (ordered_step _ _ _ _ _ _ Ho) as [H1 H2].
      destruct t; unfold writer_step in Hstep.
      * destruct (PWrite_step p1 b1 (w1 c) (wmem c)) as [pc s| |] eqn:E; try discriminate.
        injection Hstep as <-. right. apply H2. exact E.
      * destruct (PWrite_step p2 b2 (w2 c) (wmem c)) as [pc s| |] eqn:E; try discriminate.
        injection Hstep as <-. right. apply H1. exact E.
Qed.

(** The schedule [one_after_the_other] on a store that can take writes. *)
Lemma one_after_the_other_runs p1 b1 p2 b2 r0 r1 r2 :
  PWrite r0 p1 b1 = Ret (len b1, None) r1 ->
  PWrite r1 p2 b2 = Ret (len b2, None) r2 ->
  writers_exec p1 b1 p2 b2 one_after_the_other (writers_start r0)
  = Some (mkWconfig (WDone (len b1)) (WDone (len b2)) (mkShared r2 false)).
Proof.
  unfold PWrite. intros H1 H2.
  destruct (PWrite_store p1 b1 _) as [ra|] eqn:Ea; [|discriminate].
  cbn [mbind option_bind] in H1.
  destruct (PWrite_advance p1 ra) as [rb|] eqn:Eb; [|discriminate].
  assert (rb = r1) as -> by congruence. clear H1.
  destruct (PWrite_store p2 b2 _) as [rc|] eqn:Ec; [|discriminate].
  cbn [mbind option_bind] in H2.
  destruct (PWrite_advance p2 rc) as [rd|] eqn:Ed; [|discriminate].
  assert (rd = r2) as -> by congruence. clear H2.
  unfold one_after_the_other, writers_start.
  cbn [replicate app writers_exec writer_step PWrite_step w1 w2 wmem locked store
       on_store mbind option_bind].
  rewrite Ea. cbn [on_store writers_exec writer_step PWrite_step w1 w2 wmem locked store
       mbind option_bind].
  rewrite Eb. cbn [on_store writers_exec writer_step PWrite_step w1 w2 wmem locked store
       mbind option_bind].
  rewrite Ec. cbn [on_store writers_exec writer_step PWrite_step w1 w2 wmem locked store
       mbind option_bind].
  rewrite Ed. reflexivity.
Qed.

End two_writers.

(** X14. Two calls of [PWrite] on one store never interleave.  Whatever the
    schedule, the two calls are never both between their [Lock] and their
    [Unlock]; when both have returned, each has returned the length of its
    argument, the mutex is free and the store is the one that the two calls
    give when run one after the other, in one of the two orders.  On a store
    of positive capacity the schedule that runs one call to its end and then
    the other does reach that point. *)
Theorem PWrites_serialized r0 p1 b1 p2 b2 :
  0 < bufCap r0 ->
  (forall ts c,
     writers.writers_exec p1 b1 p2 b2 ts (writers.writers_start r0) = Some c ->
     (writers.critical (writers.w1 c) && writers.critical (writers.w2 c) = false) /\
     (forall n1 n2, writers.w1 c = conc.WDone n1 -> writers.w2 c = conc.WDone n2 ->
        n1 = len b1 /\ n2 = len b2 /\ conc.locked (writers.wmem c) = false /\
        ((exists r1, PWrite r0 p1 b1 = Ret (n1, None) r1 /\
                     PWrite r1 p2 b2 = Ret (n2, None) (conc.store (writers.wmem c))) \/
         (exists r1, PWrite r0 p2 b2 = Ret (n2, None) r1 /\
                     PWrite r1 p1 b1 = Ret (n1, None) (conc.store (writers.wmem c)))))) /\
  (exists c, writers.writers_exec p1 b1 p2 b2 writers.one_after_the_other
               (writers.writers_start r0) = Some c /\
             writers.w1 c = conc.WDone (len b1) /\ writers.w2 c = conc.WDone (len b2)).
Proof.
  intros HC. split.
  - intros ts c Hex.
    pose proof (writers_exec_ordered p1 b1 p2 b2 r0 ts _ c (or_introl eq_refl) Hex) as Hinv.
    assert (Hlen : forall r p b n r', PWrite r p b = Ret (n, None) r' -> n = len b).
    { intros r p b n r'. unfold PWrite. case_match; [|discriminate]. congruence. }
    split.
    + destruct Hinv as [->|[Ho|Ho]]; [reflexivity| |].
      * destruct Ho as [(_ & -> & _)|(n & r1 & -> & _)]; [apply andb_false_r|reflexivity].
      * destruct Ho as [(_ & -> & _)|(n & r1 & -> & _)]; [reflexivity|apply andb_false_r].
    + intros n1 n2 H1 H2.
      destruct Hinv as [->|[Ho|Ho]]; [discriminate| |].
      * destruct Ho as [(Hc & _)|(n & r1 & Hn & HW & Hp & Hl)].
        { rewrite H1 in Hc. discriminate. }
        cbn [fst snd] in *. rewrite H1 in Hn. injection Hn as <-.
        rewrite H2 in Hp, Hl. cbn [writers.progress writers.critical] in Hp, Hl.
        split; [eapply Hlen; eauto|]. split; [eapply Hlen; eauto|].
        split; [exact Hl|]. left. exists r1. auto.
      * destruct Ho as [(Hc & _)|(n & r1 & Hn & HW & Hp & Hl)].
        { rewrite H2 in Hc. discriminate. }
        cbn [fst snd] in *. rewrite H2 in Hn. injection Hn as <-.
        rewrite H1 in Hp, Hl. cbn [writers.progress writers.critical] in Hp, Hl.
        split; [eapply Hlen; eauto|]. split; [eapply Hlen; eauto|].
        split; [exact Hl|]. right. exists r1. auto.
  - exists (writers.mkWconfig (conc.WDone (len b1)) (conc.WDone (len b2))
              (conc.mkShared (written (written r0 p1 b1) p2 b2) false)).
    split; [|split; reflexivity].
    apply (one_after_the_other_runs p1 b1 p2 b2 r0 (written r0 p1 b1)).
    + now apply PWrite_Ret.
    + apply PWrite_Ret. now destruct r0.
Qed.

Lemma PWrites_serialized_witness :
  0 < bufCap one_entry /\
  exists c, writers.writers_exec Minor sa Major sb writers.one_after_the_other
              (writers.writers_start one_entry) = Some c /\
            writers.w1 c = conc.WDone (len sa) /\ writers.w2 c = conc.WDone (len sb).
Proof.
  split; [reflexivity|].
  apply (PWrites_serialized one_entry Minor sa Major sb). reflexivity.
Defined.

(** ** Commit sessions of several goroutines *)

Section session_facts.
Import sessions.
Variable roundupsize : nat -> nat.
Hypothesis roundupsize_le : forall n, (n <= roundupsize n)%nat.

Lemma omap_ext_lookup {A B} (f g : A -> option B) (l : list A) :
  (forall i z, l !! i = Some z -> g z = f z) -> omap g l = omap f l.
Proof.
  induction l as [|b l IH]; intros H; [reflexivity|]. cbn.
  rewrite (H 0%nat b eq_refl), IH; [reflexivity|].
  intros i z Hi. apply (H (S i)). exact Hi.
Qed.

Lemma omap_insert_ext {A B} (f g : A -> option B) (l : list A) t x y :
  l !! t = Some x -> g y = f x ->
  (forall t' z, t' <> t -> l !! t' = Some z -> g z = f z) ->
  omap g (<[t := y]> l) = omap f l.
Proof.
  revert t. induction l as [|a l IH]; intros [|t] Ht Hxy Hext; try discriminate.
  - injection Ht as ->. cbn. rewrite Hxy. 
    rewrite (omap_ext_lookup f g l); [reflexivity|].
    intros i z Hi. apply (Hext (S i)); [lia|exact Hi].
  - change (<[S t:=y]> (a :: l)) with (a :: <[t:=y]> l).
    change (omap g (a :: <[t:=y]> l))
      with (match g a with Some b => b :: omap g (<[t:=y]> l) | None => omap g (<[t:=y]> l) end).
    change (omap f (a :: l))
      with (match f a with Some b => b :: omap f l | None => omap f l end).
    rewrite (Hext 0%nat a) by (auto; lia).
    rewrite (IH t Ht Hxy); [reflexivity|].
    intros t' z Hne Hz. apply (Hext (S t')); [lia|exact Hz].
Qed.

Lemma omap_insert_take {A B} (f g : A -> option B) (l : list A) t x y b :
  l !! t = Some x -> f x = Some b -> g y = None ->
  (forall t' z, t' <> t -> l !! t' = Some z -> g z = f z) ->
  omap f l ≡ₚ b :: omap g (<[t := y]> l).
Proof.
  revert t. induction l as [|a l IH]; intros [|t] Ht Hx Hy Hext; try discriminate.
  - injection Ht as ->. cbn. rewrite Hx, Hy. constructor.
    rewrite (omap_ext_lookup f g l); [reflexivity|].
    intros i z Hi. apply (Hext (S i)); [lia|exact Hi].
  - change (<[S t:=y]> (a :: l)) with (a :: <[t:=y]> l).
    change (omap g (a :: <[t:=y]> l))
      with (match g a with Some b => b :: omap g (<[t:=y]> l) | None => omap g (<[t:=y]> l) end).
    change (omap f (a :: l))
      with (match f a with Some b => b :: omap f l | None => omap f l end).
    rewrite (Hext 0%nat a) by (auto; lia).
    assert (omap f l ≡ₚ b :: omap g (<[t:=y]> l)) as HP.
    { apply (IH t Ht Hx Hy). intros t' z Hne Hz. apply (Hext (S t')); [lia|exact Hz]. }
    destruct (f a) as [b'|]; [|exact HP].
    rewrite HP. apply perm_swap.
Qed.

Lemma to_hand_appends c frs p :
  to_hand c ((OAppend <$> frs) ++ [OAppendDone p; OUnlock]) = Some (p, c ++ bytes_of frs).
Proof.
  revert c. induction frs as [|s frs IH]; intros c; cbn.
  - unfold bytes_of. cbn. now rewrite app_nil_r.
  - rewrite IH. unfold bytes_of. cbn. now rewrite app_assoc.
Qed.

Lemma to_hand_idle c c' ops : idle ops -> to_hand c ops = to_hand c' ops.
Proof. intros [->|[x ->]]; reflexivity. Qed.

Lemma contents_length h b : buffer_ok h b -> length (contents h b) = bytes.Len b.
Proof.
  intros Hok. pose proof Hok as (Hoff & _ & Hle & a & l & Ha & Hl & Hlen).
  rewrite (buffer_ok_contents h b a l Hok Ha Hl), length_take.
  unfold bytes.Len. lia.
Qed.

Lemma contents_Reset h b : buffer_ok h b -> contents h (bytes.Reset b) = [].
Proof.
  intros Hok. apply nil_length_inv.
  rewrite contents_length by now apply Reset_ok.
  destruct Hok as (Hoff & _). unfold bytes.Len, bytes.Reset, reslice. cbn. lia.
Qed.

Lemma start_inv h l xs :
  buffer_ok h (Logger.aBuf l) -> bytes.Len (Logger.aBuf l) = 0%nat ->
  inv ((fun x => (x.2, bytes_of x.1)) <$> xs) (start h l xs).
Proof.
  intros Hok Hlen. unfold inv, start. cbn [lheap logger threads lock handed].
  split; [exact Hok|]. split; [|split].
  - cbn [app]. induction xs as [|x xs IH]; [reflexivity|].
    cbn [fmap list_fmap omap list_omap session_ops to_hand].
    rewrite to_hand_appends. cbn [app]. constructor. exact IH.
  - apply nil_length_inv. now rewrite contents_length.
  - apply Forall_fmap, Forall_forall. intros x _. right. now exists x.
Qed.

Lemma step_inv target t st st' :
  inv target st -> step roundupsize t st = Some st' -> inv target st'.
Proof.
  destruct st as [ths l h lk hd]. unfold inv, step.
  cbn [threads logger lheap lock handed].
  intros (Hok & Hperm & Hlk) Hstep.
  destruct (ths !! t) as [[|o rest]|] eqn:Ht; try discriminate.
  assert (Hlt : (t < length ths)%nat) by (eapply lookup_lt_Some; eauto).
  destruct lk.
  - destruct Hlk as (t0 & ops0 & Ht0 & Hhold & Hothers).
    destruct (decide (t = t0)) as [->|Hne].
    2:{ destruct (Hothers t (o :: rest) Hne Ht) as [?|[x Hx]]; [discriminate|].
        injection Hx as -> _. discriminate. }
    rewrite Ht in Ht0. injection Ht0 as <-.
    destruct Hhold as [(frs & p & Hops)|[Hops Hc]].
    + destruct frs as [|s frs]; injection Hops as -> ->.
      * (* AppendDone *)
        unfold AppendDone in Hstep.
        destruct (PWrite (Logger.buf l) p (bytes.Bytes (Logger.aBuf l)))
          as [a r|]; [|discriminate].
        injection Hstep as <-. cbn [threads logger lheap lock handed Logger.aBuf].
        rewrite contents_Reset by exact Hok.
        split; [now apply Reset_ok|]. split; [|].
        -- rewrite <- Hperm, <- app_assoc. apply Permutation_app_head. cbn [app].
           symmetry.
           apply (omap_insert_take _ _ ths t0
                    [OAppendDone p; OUnlock] [OUnlock] _ Ht); [reflexivity..|].
           intros t' z Hne Hz. apply to_hand_idle. eauto.
        -- exists t0, [OUnlock]. split; [now apply list_lookup_insert_eq|].
           split; [now right|].
           intros t' ops' Hne. rewrite list_lookup_insert_ne by auto. eauto.
      * (* Append *)
        unfold Append in Hstep.
        destruct (WriteString_ok roundupsize roundupsize_le h (Logger.aBuf l) s Hok)
          as [Hok' Hc'].
        destruct (bytes.WriteString roundupsize h (Logger.aBuf l) s) as [a' h'].
        injection Hstep as <-. cbn [threads logger lheap lock handed Logger.aBuf fst snd] in *.
        split; [exact Hok'|]. split; [|].
        -- rewrite <- Hperm. apply Permutation_app_head.
           erewrite (omap_insert_ext (to_hand (contents h (Logger.aBuf l)))
                       (to_hand (contents h' a')) ths t0); [reflexivity|exact Ht| |].
           ++ rewrite Hc'. reflexivity.
           ++ intros t' z Hne Hz. apply to_hand_idle. eauto.
        -- exists t0, ((OAppend <$> frs) ++ [OAppendDone p; OUnlock]).
           split; [now apply list_lookup_insert_eq|]. split; [left; eauto|].
           intros t' ops' Hne. rewrite list_lookup_insert_ne by auto. eauto.
    + (* Unlock *)
      injection Hops as -> ->. injection Hstep as <-.
      cbn [threads logger lheap lock handed].
      split; [exact Hok|]. split; [|split; [exact Hc|]].
      * rewrite <- Hperm. apply Permutation_app_head.
        erewrite (omap_insert_ext (to_hand (contents h (Logger.aBuf l)))
                    (to_hand (contents h (Logger.aBuf l))) ths t0);
          [reflexivity|exact Ht|reflexivity|reflexivity].
      * apply Forall_lookup. intros i ops Hi.
        destruct (decide (i = t0)) as [->|Hne].
        -- rewrite list_lookup_insert_eq in Hi by exact Hlt. injection Hi as <-. now left.
        -- rewrite list_lookup_insert_ne in Hi by auto. eauto.
  - destruct Hlk as [Hc Hidle].
    destruct (Forall_lookup_1 _ _ _ _ Hidle Ht) as [?|[x Hx]]; [discriminate|].
    injection Hx as -> ->. injection Hstep as <-.
    cbn [threads logger lheap lock handed].
    split; [exact Hok|]. split; [|].
    + rewrite <- Hperm. apply Permutation_app_head.
      erewrite (omap_insert_ext (to_hand (contents h (Logger.aBuf l)))
                  (to_hand (contents h (Logger.aBuf l))) ths t);
        [reflexivity|exact Ht| |reflexivity].
      rewrite Hc. reflexivity.
    + exists t, ((OAppend <$> x.1) ++ [OAppendDone x.2; OUnlock]).
      split; [now apply list_lookup_insert_eq|]. split; [left; eauto|].
      intros t' ops' Hne. rewrite list_lookup_insert_ne by auto.
      intros Hz. eapply Forall_lookup_1; eauto.
Qed.

Lemma steps_inv target ts st st' :
  inv target st -> steps roundupsize ts st = Some st' -> inv target st'.
Proof.
  revert st. induction ts as [|t ts IH]; intros st Hinv Hsteps.
  - injection Hsteps as <-. exact Hinv.
  - cbn [steps] in Hsteps.
    destruct (step roundupsize t st) as [st1|] eqn:Hstep; [|discriminate].
    apply (IH st1); [|exact Hsteps]. eapply step_inv; eauto.
Qed.

End session_facts.

Section session_runs.
Import sessions.
Variable roundupsize : nat -> nat.

Lemma steps_app ts ts' st :
  steps roundupsize (ts ++ ts') st = steps roundupsize ts st ≫= steps roundupsize ts'.
Proof.
  revert st. induction ts as [|t ts IH]; intros st; [reflexivity|].
  cbn [app steps]. destruct (step roundupsize t st) as [st1|]; [apply IH|reflexivity].
Qed.

(** The appends of a session, run in a row. *)
Lemma appends_run t frs tail st :
  threads st !! t = Some ((OAppend <$> frs) ++ tail) ->
  exists st',
    steps roundupsize (replicate (length frs) t) st = Some st' /\
    threads st' = <[t := tail]> (threads st) /\ lock st' = lock st /\
    Logger.buf (logger st') = Logger.buf (logger st).
Proof.
  revert st. induction frs as [|s frs IH]; intros st Ht.
  - exists st. split; [reflexivity|]. split; [|auto].
    symmetry. now apply list_insert_id.
  - cbn [length replicate steps]. unfold step at 1. rewrite Ht.
    cbn [fmap list_fmap app]. unfold Append.
    destruct (bytes.WriteString roundupsize (lheap st) (Logger.aBuf (logger st)) s)
      as [a' h'].
    cbn [mbind option_bind].
    assert (Hlt : (t < length (threads st))%nat) by (eapply lookup_lt_Some; eauto).
    edestruct (IH (mkState (<[t:=(OAppend <$> frs) ++ tail]> (threads st))
                     (Logger.mk (Logger.buf (logger st)) a') h' (lock st) (handed st)))
      as (st' & Hsteps & Hths & Hlk & Hbuf).
    { cbn [threads]. now apply list_lookup_insert_eq. }
    exists st'. split; [exact Hsteps|].
    cbn [threads lock logger Logger.buf] in *.
    rewrite list_insert_insert_eq in Hths. auto.
Qed.

Lemma steps_cons t ts st :
  steps roundupsize (t :: ts) st = step roundupsize t st ≫= steps roundupsize ts.
Proof. reflexivity. Qed.

(** One goroutine runs its whole session while the others stand still. *)
Lemma session_runs t x st :
  threads st !! t = Some (session_ops x) -> lock st = false ->
  0 < bufCap (Logger.buf (logger st)) ->
  exists st',
    steps roundupsize (replicate (length (session_ops x)) t) st = Some st' /\
    threads st' = <[t := []]> (threads st) /\ lock st' = false /\
    0 < bufCap (Logger.buf (logger st')).
Proof.
  intros Ht Hlk HC.
  assert (Hlt : (t < length (threads st))%nat) by (eapply lookup_lt_Some; eauto).
  unfold session_ops. cbn [length]. rewrite length_app, length_fmap.
  cbn [length replicate]. rewrite steps_cons.
  unfold step. rewrite Ht. unfold session_ops. rewrite Hlk.
  cbn [mbind option_bind]. rewrite replicate_add, steps_app.
  edestruct (appends_run t x.1 [OAppendDone x.2; OUnlock]
               (mkState (<[t:=(OAppend <$> x.1) ++ [OAppendDone x.2; OUnlock]]> (threads st))
                  (logger st) (lheap st) true (handed st)))
    as (st1 & Hsteps & Hths & Hlk1 & Hbuf).
  { cbn [threads]. now apply list_lookup_insert_eq. }
  rewrite Hsteps. cbn [mbind option_bind threads lock logger] in *.
  rewrite list_insert_insert_eq in Hths.
  cbn [replicate]. rewrite steps_cons.
  unfold step. rewrite Hths, list_lookup_insert_eq by exact Hlt.
  unfold AppendDone. rewrite PWrite_Ret by now rewrite Hbuf.
  cbn [mbind option_bind]. rewrite steps_cons. unfold step.
  cbn [threads lock logger lheap handed].
  rewrite list_lookup_insert_eq by now rewrite length_insert.
  rewrite Hlk1. cbn [mbind option_bind steps].
  eexists. split; [reflexivity|]. cbn [threads lock logger Logger.buf].
  rewrite !list_insert_insert_eq. split; [reflexivity|]. split; [reflexivity|].
  rewrite Hbuf. now destruct (Logger.buf (logger st)).
Qed.

(** The goroutines run their sessions in turn. *)
Lemma in_turn_runs xs pre st :
  threads st = pre ++ (session_ops <$> xs) -> lock st = false ->
  0 < bufCap (Logger.buf (logger st)) ->
  exists st',
    steps roundupsize (in_turn (length pre) (session_ops <$> xs)) st = Some st' /\
    threads st' = pre ++ replicate (length xs) [].
Proof.
  revert pre st. induction xs as [|x xs IH]; intros pre st Hths Hlk HC.
  - exists st. split; [reflexivity|exact Hths].
  - cbn [fmap list_fmap in_turn]. rewrite steps_app.
    destruct (session_runs (length pre) x st) as (st1 & Hsteps & Hths1 & Hlk1 & HC1);
      [|exact Hlk|exact HC|].
    { rewrite Hths. change (session_ops <$> x :: xs) with (session_ops x :: (session_ops <$> xs)).
      now apply list_lookup_middle. }
    rewrite Hsteps. cbn [mbind option_bind].
    destruct (IH (pre ++ [[]]) st1) as (st' & Hsteps' & Hths'); [|exact Hlk1|exact HC1|].
    { rewrite Hths1, Hths.
      change (session_ops <$> x :: xs) with (session_ops x :: (session_ops <$> xs)).
      rewrite insert_app_r_alt by lia. rewrite Nat.sub_diag.
      change (<[0%nat:=[]]> (session_ops x :: (session_ops <$> xs)))
        with ([] :: (session_ops <$> xs)).
      now rewrite <- app_assoc. }
    rewrite length_app in Hsteps'. cbn [length] in Hsteps'.
    rewrite Nat.add_1_r in Hsteps'.
    exists st'. split; [exact Hsteps'|]. rewrite Hths', <- app_assoc. reflexivity.
Qed.

End session_runs.

(** X15. Goroutines that share a logger and each run [Lock], some
    [Append]s, [AppendDone], [Unlock], as [testLoggerConcurrentAppend] does:
    their sessions never mix.  Whatever the schedule, every slice handed to
    [PWrite] so far holds the concatenation of the fragments of one session,
    at that session's priority, each session at most once; when all
    goroutines have returned every session has been handed over, the mutex
    is free and the accumulator is empty.  Letting the goroutines run in
    turn is one schedule that ends so. *)
Theorem sessions_serialized roundupsize h l xs :
  (forall n, (n <= roundupsize n)%nat) ->
  buffer_ok h (Logger.aBuf l) -> bytes.Len (Logger.aBuf l) = 0%nat ->
  0 < bufCap (GetBuffer l) ->
  (forall ts st,
     sessions.steps roundupsize ts (sessions.start h l xs) = Some st ->
     sessions.handed st ⊆+ (fun x => (x.2, bytes_of x.1)) <$> xs /\
     (Forall (fun ops => ops = []) (sessions.threads st) ->
      sessions.handed st ≡ₚ (fun x => (x.2, bytes_of x.1)) <$> xs /\
      sessions.lock st = false /\
      bytes.Len (Logger.aBuf (sessions.logger st)) = 0%nat)) /\
  (exists st,
     sessions.steps roundupsize (sessions.in_turn 0 (sessions.session_ops <$> xs))
       (sessions.start h l xs) = Some st /\
     Forall (fun ops => ops = []) (sessions.threads st)).
Proof.
  intros Hle Hok Hlen HC. split.
  - intros ts st Hsteps.
    pose proof (steps_inv roundupsize Hle _ ts _ st (start_inv h l xs Hok Hlen) Hsteps)
      as (Hok' & Hperm & Hlk).
    split.
    { rewrite <- Hperm. apply submseteq_inserts_r. reflexivity. }
    intros Hdone.
    assert (omap (sessions.to_hand
                    (contents (sessions.lheap st) (Logger.aBuf (sessions.logger st))))
              (sessions.threads st) = []) as Hnil.
    { clear -Hdone. induction Hdone as [|ops ths -> _ IH]; [reflexivity|exact IH]. }
    rewrite Hnil, app_nil_r in Hperm. split; [exact Hperm|].
    destruct (sessions.lock st).
    + destruct Hlk as (t & ops & Ht & Hhold & _).
      rewrite (Forall_lookup_1 _ _ _ _ Hdone Ht) in Hhold.
      destruct Hhold as [(frs & p & Hops)|[Hops _]]; [|discriminate].
      destruct frs; discriminate.
    + split; [reflexivity|]. destruct Hlk as [Hc _].
      rewrite <- (contents_length _ _ Hok'), Hc. reflexivity.
  - destruct (in_turn_runs roundupsize xs [] (sessions.start h l xs))
      as (st & Hsteps & Hths); [reflexivity|reflexivity|exact HC|].
    exists st. split; [exact Hsteps|]. rewrite Hths. cbn [app].
    apply Forall_replicate. reflexivity.
Qed.

Lemma sessions_serialized_witness :
  (forall n, (n <= id n)%nat) /\
  0 < bufCap (GetBuffer (Logger.mk one_entry (bytes.mkBuffer (Slice (Some 0%nat) 0 0 0) 0))) /\
  exists st,
    sessions.steps id
      (sessions.in_turn 0
         (sessions.session_ops <$> [(["n"; "e"], Major); (["m"; "o"], Minor)]%string))
      (sessions.start [[]]
         (Logger.mk one_entry (bytes.mkBuffer (Slice (Some 0%nat) 0 0 0) 0))
         [(["n"; "e"], Major); (["m"; "o"], Minor)]%string) = Some st /\
    Forall (fun ops => ops = []) (sessions.threads st).
Proof.
  assert (forall n, (n <= id n)%nat) as Hle by (intros n; unfold id; lia).
  split; [exact Hle|]. split; [reflexivity|].
  apply (sessions_serialized id [[]]
           (Logger.mk one_entry (bytes.mkBuffer (Slice (Some 0%nat) 0 0 0) 0))
           [(["n"; "e"], Major); (["m"; "o"], Minor)]%string Hle);
    [|reflexivity|reflexivity].
  repeat split; cbn; [lia|]. exists 0%nat, []. auto.
Defined.

(** ** The same session, several times *)

Section same_session_facts.
Variable roundupsize : nat -> nat.
Hypothesis roundupsize_le : forall n, (n <= roundupsize n)%nat.

Lemma blit_same (pre src rest : list byte) :
  blit (pre ++ src ++ rest) (length pre) src = pre ++ src ++ rest.
Proof.
  unfold blit. rewrite take_app_length. f_equal.
  rewrite !length_app, take_ge by lia. f_equal.
  rewrite app_assoc, <- length_app. apply drop_app_length.
Qed.

(** Appends that write again what the array holds already. *)
Lemma Appends_same h r b frs a pre rest :
  buffer_ok h b -> arr (bytes.buf b) = Some a ->
  h !! a = Some (pre ++ bytes_of frs ++ rest) ->
  len (bytes.buf b) = length pre ->
  Appends roundupsize h (Logger.mk r b) frs
  = (Logger.mk r (bytes.mkBuffer
       (Slice (Some a) 0 (length pre + length (bytes_of frs)) (cap (bytes.buf b))) 0), h).
Proof.
  revert b pre. induction frs as [|s frs IH]; intros b pre Hok Ha Hl Hlen.
  - destruct Hok as (Hoff & Hsoff & _). destruct b as [[o so n c] bo].
    cbn in *. subst. now rewrite Nat.add_0_r.
  - cbn [Appends]. unfold Append. cbn [Logger.aBuf Logger.buf].
    pose proof Hok as (Hoff & Hsoff & Hle & a' & l' & Ha' & Hl' & Hcap).
    rewrite Ha in Ha'. injection Ha' as <-. rewrite Hl in Hl'. injection Hl' as <-.
    assert (bytes_of (s :: frs) = list_byte_of_string s ++ bytes_of frs) as Hb
      by reflexivity.
    rewrite Hb in *. rewrite <- app_assoc in Hl. rewrite !length_app in Hcap.
    rewrite (WriteString_in_place roundupsize h b s a _ Hok Ha Hl) by lia.
    rewrite Hlen, blit_same, list_insert_id by exact Hl.
    rewrite (IH _ (pre ++ list_byte_of_string s)).
    + cbn [bytes.buf cap]. rewrite !length_app. now rewrite Nat.add_assoc.
    + repeat split; cbn; [lia|]. exists a. eexists. split; [reflexivity|].
      split; [exact Hl|]. rewrite !length_app. lia.
    + reflexivity.
    + now rewrite <- !app_assoc.
    + cbn. now rewrite length_app.
Qed.

(** A session that writes again what the array holds already: the store
    gets one more entry, the same slice as before, and the heap and the
    accumulator stay as they are. *)
Lemma session_same h r frs p a c rest :
  0 < bufCap r -> h !! a = Some (bytes_of frs ++ rest) ->
  c = length (bytes_of frs ++ rest) ->
  session roundupsize h (Logger.mk r (bytes.mkBuffer (Slice (Some a) 0 0 c) 0)) frs p
  = Some (Logger.mk (written r p (Slice (Some a) 0 (length (bytes_of frs)) c))
            (bytes.mkBuffer (Slice (Some a) 0 0 c) 0), h).
Proof.
  intros HC Hl Hc. unfold session.
  rewrite (Appends_same h r _ frs a [] rest); [| |reflexivity|exact Hl|reflexivity].
  - unfold AppendDone. cbn [Logger.buf Logger.aBuf]. rewrite PWrite_Ret by exact HC.
    cbn [fmap option_fmap option_map]. unfold bytes.Bytes, bytes.Reset, reslice_from, reslice.
    cbn [bytes.buf bytes.off arr off len cap length Nat.add Nat.sub].
    now rewrite !Nat.sub_0_r.
  - repeat split; cbn; [lia|]. exists a. eexists. split; [reflexivity|].
    split; [exact Hl|]. now rewrite Hc.
Qed.

Lemma same_sessions_lone C h k r frs p a c rest es :
  0 < C -> h !! a = Some (bytes_of frs ++ rest) ->
  c = length (bytes_of frs ++ rest) -> lone C p es r ->
  exists r',
    same_sessions roundupsize k h (Logger.mk r (bytes.mkBuffer (Slice (Some a) 0 0 c) 0)) frs p
    = Some (Logger.mk r' (bytes.mkBuffer (Slice (Some a) 0 0 c) 0), h) /\
    lone C p (fold_left (push (Z.to_nat C))
                (replicate k (Slice (Some a) 0 (length (bytes_of frs)) c)) es) r'.
Proof.
  intros HC Hl Hc. revert r es. induction k as [|k IH]; intros r es Hr.
  - exists r. split; [reflexivity|exact Hr].
  - cbn [same_sessions replicate fold_left].
    rewrite (session_same h r frs p a c rest); [|destruct Hr as (-> & _); lia|exact Hl|exact Hc].
    cbn [mbind option_bind]. apply IH. now apply lone_write.
Qed.

End same_session_facts.

(** X16. The same commit session run [k + 1] times on a new logger over a
    new store of positive capacity [C], at a priority [p >= 0]: every
    session writes the same bytes over the same array, so the entries, which
    all share that array, still read as the concatenation of the fragments.
    The next [min (k + 1) C] pops return that concatenation, and the pop
    after them fails with the type-assertion error. *)
Theorem same_sessions_pop roundupsize d C p frs k h0 :
  (forall n, (n <= roundupsize n)%nat) -> 0 < C -> 0 <= p ->
  exists l h r' r'',
    same_sessions roundupsize (S k) (NewLogger h0 (NewRingBuffer d C)).2
      (NewLogger h0 (NewRingBuffer d C)).1 frs p = Some (l, h) /\
    Pops (S k `min` Z.to_nat C) h (GetBuffer l)
    = Some (replicate (S k `min` Z.to_nat C)
              (string_of_list_byte (bytes_of frs), None), r') /\
    Pop h r' = Ret (""%string, Some ErrTypeAssertion) r''.
Proof.
  intros Hle HC Hp. unfold NewLogger, make, bytes.NewBuffer. cbn [fst snd replicate].
  cbn [same_sessions]. unfold session at 1.
  set (l0 := Logger.mk (NewRingBuffer d C)
               (bytes.mkBuffer (Slice (Some (length h0)) 0 0 0) 0)).
  assert (Hok0 : buffer_ok (h0 ++ [[]]) (Logger.aBuf l0)).
  { repeat split; cbn; [lia|]. exists (length h0), []. split; [reflexivity|].
    split; [|reflexivity]. now apply list_lookup_middle. }
  destruct (Appends_ok roundupsize Hle (h0 ++ [[]]) l0 frs Hok0) as (Hok1 & Hc1 & Hb1).
  destruct (Appends roundupsize (h0 ++ [[]]) l0 frs) as [[r1 b1] h1].
  cbn [fst snd Logger.buf Logger.aBuf] in *. subst r1.
  pose proof Hok1 as (Hoff & Hsoff & Hlc & a & la & Ha & Hl & Hcap).
  rewrite (buffer_ok_contents h1 b1 a la Hok1 Ha Hl) in Hc1.
  assert (contents (h0 ++ [[]]) (Logger.aBuf l0) = []) as Hnil by reflexivity.
  rewrite Hnil, app_nil_l in Hc1.
  assert (len (bytes.buf b1) = length (bytes_of frs)) as Hn.
  { rewrite <- Hc1, length_take. lia. }
  assert (la = bytes_of frs ++ drop (length (bytes_of frs)) la) as Hla.
  { rewrite <- Hc1 at 1. rewrite <- Hn. now rewrite take_drop. }
  unfold AppendDone. cbn [Logger.buf Logger.aBuf]. rewrite PWrite_Ret by (simpl; lia).
  cbn [fmap option_fmap option_map mbind option_bind].
  destruct b1 as [[o so n c] bo]. cbn in Hoff, Hsoff, Hlc, Ha, Hcap, Hn. subst o so bo n.
  unfold bytes.Bytes, bytes.Reset, reslice_from, reslice.
  cbn [bytes.buf bytes.off arr off len cap Nat.add Nat.sub]. rewrite !Nat.sub_0_r.
  set (e := Slice (Some a) 0 (length (bytes_of frs)) c).
  destruct (same_sessions_lone roundupsize C h1 k
              (written (NewRingBuffer d C) p e) frs p a c
              (drop (length (bytes_of frs)) la) (push (Z.to_nat C) [] e) HC)
    as (r & Hss & Hr).
  { now rewrite <- Hla. }
  { now rewrite <- Hla. }
  { apply lone_first_write; assumption. }
  fold e in Hr.
  change (fold_left (push (Z.to_nat C)) (replicate k e) (push (Z.to_nat C) [] e))
    with (fold_left (push (Z.to_nat C)) (replicate (S k) e) []) in Hr.
  rewrite fold_push in Hr by (simpl; lia).
  rewrite app_nil_l, drop_replicate in Hr. cbn [length] in Hr.
  rewrite length_replicate in Hr.
  replace (S k - (0 + S k - Z.to_nat C))%nat with (S k `min` Z.to_nat C)%nat in Hr by lia.
  destruct (Pops_lone h1 C p Hp _ r Hr) as (r' & HP & Hr').
  destruct (Pop_lone_nil h1 C p r' Hr') as (r'' & HP').
  change (Logger.buf l0) with (NewRingBuffer d C).
  rewrite Hss. eexists _, h1, r', r''. split; [reflexivity|]. split; [|exact HP'].
  unfold GetBuffer. cbn [Logger.buf].
  rewrite length_replicate in HP. rewrite HP.
  rewrite reverse_replicate, fmap_replicate. do 3 f_equal.
  unfold popped_entry, to_string, load, array_of, e. cbn [arr off len].
  rewrite Hl. cbn. rewrite drop_0. rewrite Hla at 1.
  now rewrite take_app_length.
Qed.

Lemma same_sessions_pop_witness :
  (forall n, (n <= id n)%nat) /\ 0 < 3 /\ 0 <= Major /\
  exists l h r' r'',
    same_sessions id 5 (NewLogger [] (NewRingBuffer Minor 3)).2
      (NewLogger [] (NewRingBuffer Minor 3)).1 ["n"; "e"; "m"; "o"]%string Major
    = Some (l, h) /\
    Pops 3 h (GetBuffer l) = Some (replicate 3 ("nemo"%string, None), r') /\
    Pop h r' = Ret (""%string, Some ErrTypeAssertion) r''.
Proof.
  assert (forall n, (n <= id n)%nat) as Hle by (intros n; unfold id; lia).
  split; [exact Hle|]. split; [lia|]. split; [unfold Major; lia|].
  apply (same_sessions_pop id Minor 3 Major ["n"; "e"; "m"; "o"]%string 4 [] Hle);
    [lia|unfold Major; lia].
Defined.
